(** * VizzAI frontend: a shallow embedding of [frontend/src/App.js]

    The development follows the helper functions of the [App] component:
    [getVideoId], [parseTimeToSeconds], [formatTime],
    [createTimestampsFromTranscript], [generateAITimestamps], [loadVideo]
    and [formatText]. The backend is not among the sources; its video
    cache is modelled from the specification in a section of its own.

    Modelling conventions.
    - A JavaScript string is the list of its UTF-16 code units
      ([jsstring := list N]); [length], [substring], [split] and the regular
      expressions of the source all count code units.
    - A JavaScript number is a binary64 double. The model tracks the
      doubles whose value is an integer of magnitude below 10^21
      ([Int z]); sums and products of such numbers are rounded to the
      nearest double, ties to even, and so are decimal literals. Every
      other number is [Other], about which nothing is claimed.
    - A regular expression literal of the source is a term of [regex], run
      by a backtracking matcher with the priorities of the language
      (leftmost start, greedy quantifiers, ordered alternatives). *)

From Stdlib Require Import String Ascii.
From Stdlib Require Import List NArith ZArith Lia Bool Arith.
Import ListNotations.

(** ** Strings as code-unit lists *)

Abbreviation jschar := N (only parsing).
Abbreviation jsstring := (list N) (only parsing).

(** An ASCII literal of the source, as code units. *)
Definition lit (s : string) : jsstring :=
  map N_of_ascii (list_ascii_of_string s).

Definition str_eqb (a b : jsstring) : bool :=
  if list_eq_dec N.eq_dec a b then true else false.

(** [\d] and the digits accepted by [Number] and [parseInt]. *)
Definition is_digit (c : jschar) : bool := ((48 <=? c) && (c <=? 57))%N.

(** White space and line terminators of ECMAScript: what [\s] matches,
    what [trim] strips and what [Number] ignores around a literal. *)
Definition is_line_terminator (c : jschar) : bool :=
  ((c =? 10) || (c =? 13) || (c =? 8232) || (c =? 8233))%N.

Definition is_space (c : jschar) : bool :=
  (is_line_terminator c
   || (c =? 9) || (c =? 11) || (c =? 12) || (c =? 32) || (c =? 160)
   || (c =? 5760) || ((8192 <=? c) && (c <=? 8202))
   || (c =? 8239) || (c =? 8287) || (c =? 12288) || (c =? 65279))%N.

Fixpoint dropWhile (p : jschar -> bool) (s : jsstring) : jsstring :=
  match s with
  | c :: s' => if p c then dropWhile p s' else s
  | [] => []
  end.

Fixpoint takeWhile (p : jschar -> bool) (s : jsstring) : jsstring :=
  match s with
  | c :: s' => if p c then c :: takeWhile p s' else []
  | [] => []
  end.

(** [String.prototype.trim]. *)
Definition trim (s : jsstring) : jsstring :=
  rev (dropWhile is_space (rev (dropWhile is_space s))).

(** [s.split(sep)] for a one-character separator string. *)
Fixpoint split_on (sep : jschar) (s : jsstring) : list jsstring :=
  match s with
  | [] => [[]]
  | c :: s' =>
      if (c =? sep)%N then [] :: split_on sep s'
      else match split_on sep s' with
           | p :: ps => (c :: p) :: ps
           | [] => [[c]]
           end
  end.

(** [parts.join(sep)] for a one-character separator string. *)
Fixpoint join (sep : jschar) (parts : list jsstring) : jsstring :=
  match parts with
  | [] => []
  | [p] => p
  | p :: ps => p ++ sep :: join sep ps
  end.

(** [s.substring(0, n)]. *)
Definition substring0 (n : nat) (s : jsstring) : jsstring := firstn n s.

(** [s.padStart(n, '0')]. *)
Definition padStart0 (n : nat) (s : jsstring) : jsstring :=
  repeat 48%N (n - length s) ++ s.

(** ** Numbers *)

(** A number of the source is a binary64 double. [Int z] is the double
    whose value is the integer [z]: the model tracks the integers of
    magnitude below 10^21, which [toString] prints digit by digit. Every
    other number (NaN, a fraction, an infinity, an integer of 10^21 or
    more) is [Other], about which nothing is claimed; arithmetic keeps it
    [Other]. *)
Inductive jsnum : Type :=
| Int (z : Z)
| Other.

(** The integer nearest to [a / b], the even one of two that are equally
    near ([0 <= a], [0 < b]). *)
Definition round_half_even (a b : Z) : Z :=
  let m := (a / b)%Z in
  let r := (a mod b)%Z in
  if (2 * r <? b)%Z then m
  else if (b <? 2 * r)%Z then (m + 1)%Z
  else if Z.even m then m else (m + 1)%Z.

(** The double nearest to the integer [z], ties to even: a double has 53
    significant bits, so the [k] low bits of a longer integer are rounded
    away. *)
Definition round53 (z : Z) : Z :=
  let k := (Z.log2 (Z.abs z) - 52)%Z in
  if (k <=? 0)%Z then z
  else (Z.sgn z * (round_half_even (Z.abs z) (2 ^ k) * 2 ^ k))%Z.

(** The number an operation returns when its exact result is the integer
    [z]. *)
Definition to_double (z : Z) : jsnum :=
  let r := round53 z in
  if (Z.abs r <? 10 ^ 21)%Z then Int r else Other.

Definition num_mul (a b : jsnum) : jsnum :=
  match a, b with
  | Int x, Int y => to_double (x * y)
  | _, _ => Other
  end.

Definition num_add (a b : jsnum) : jsnum :=
  match a, b with
  | Int x, Int y => to_double (x + y)
  | _, _ => Other
  end.

Definition digit_val (c : jschar) : N := (c - 48)%N.

Definition digits_value (s : jsstring) : N :=
  fold_left (fun acc c => (10 * acc + digit_val c)%N) s 0%N.

(** A run of decimal digits as a number: the double nearest to its value.
    For a run of more than 20 significant digits the language lets the
    engines differ in the last bit, and the model does not track the
    result. *)
Definition decimal (t : jsstring) : jsnum :=
  let v := Z.of_N (digits_value t) in
  if (v <? 10 ^ 20)%Z then to_double v else Other.

(** [Number(s)]: white space around the literal is ignored, the empty
    string is 0, a run of decimal digits is its value; every other outcome
    of the conversion (NaN, a fraction, a signed, exponent or
    radix-prefixed literal, an infinity) is [Other]. *)
Definition Number (s : jsstring) : jsnum :=
  match trim s with
  | [] => Int 0
  | t => if forallb is_digit t then decimal t else Other
  end.

(** [parseInt(s)]: leading white space is skipped, then an optional sign,
    then the longest run of decimal digits is read; without a digit the
    result is NaN. A [0x] prefix switches to base 16, which the model does
    not track. [Other] is NaN here, or such a base-16 value. *)
Definition parseInt (s : jsstring) : jsnum :=
  let t := dropWhile is_space s in
  let '(negative, u) :=
    match t with
    | c :: u' =>
        if (c =? 45)%N then (true, u')
        else if (c =? 43)%N then (false, u') else (false, t)
    | [] => (false, t)
    end in
  let radix16 :=
    match u with
    | z :: x :: _ => (z =? 48)%N && ((x =? 120) || (x =? 88))%N
    | _ => false
    end in
  if radix16 then Other
  else
    match takeWhile is_digit u with
    | [] => Other
    | ds =>
        match decimal ds with
        | Int v => Int (if negative then (- v)%Z else v)
        | Other => Other
        end
    end.

(** Decimal digits of a natural number, most significant first. *)
Fixpoint digits_of (fuel : nat) (n : N) (acc : jsstring) : jsstring :=
  match fuel with
  | O => acc
  | S f =>
      let acc' := (48 + n mod 10)%N :: acc in
      if (n <? 10)%N then acc' else digits_of f (n / 10)%N acc'
  end.

Definition nat_digits (n : N) : jsstring :=
  digits_of (S (N.to_nat (N.log2 n))) n [].

(** [n.toString()] for a tracked number: an integer of magnitude below
    10^21 is printed digit by digit (from 10^21 on the source prints an
    exponent, which is why such numbers are not tracked). *)
Definition toString (z : Z) : jsstring :=
  if (z <? 0)%Z then 45%N :: nat_digits (Z.to_N (- z))
  else nat_digits (Z.to_N z).

Definition MAX_SAFE_INTEGER : Z := 2 ^ 53 - 1.

(** ** Time strings *)

Definition colon : jschar := 58%N.

(** [parseTimeToSeconds]: split on [':'], convert every part with
    [Number], and combine three parts as hours, minutes, seconds, two parts
    as minutes, seconds; any other number of parts gives 0. *)
Definition parseTimeToSeconds (timeStr : jsstring) : jsnum :=
  match map Number (split_on colon timeStr) with
  | [h; m; s] => num_add (num_add (num_mul h (Int 3600)) (num_mul m (Int 60))) s
  | [m; s] => num_add (num_mul m (Int 60)) s
  | _ => Int 0
  end.

(** [Math.floor(a / b)] for integers [a] and [b > 0]: the quotient is
    rounded to the nearest double and then floored. With [q] the integer
    part of [|a| / b], the doubles near the quotient are the multiples of
    [2 ^ - k] for [k = 52 - log2 q]; when [q = 0] the quotient is below 1,
    and rounding at [k = 53] decides whether it becomes 1. *)
Definition floor_quotient (a b : Z) : Z :=
  let n := Z.abs a in
  let q := (n / b)%Z in
  let k := if (q =? 0)%Z then 53%Z else (52 - Z.log2 q)%Z in
  if (0 <=? k)%Z
  then ((Z.sgn a * round_half_even (n * 2 ^ k) b) / 2 ^ k)%Z
  else (Z.sgn a * (round_half_even n (b * 2 ^ (- k)) * 2 ^ (- k)))%Z.

(** [formatTime] for a number of seconds that is an integer: [%] is the
    remainder that takes the sign of the dividend and is exact. The three
    fields are printed by [toString], so the hours are to stay below
    10^21. *)
Definition formatTime (seconds : Z) : jsstring :=
  let hours := floor_quotient seconds 3600 in
  let minutes := floor_quotient (Z.rem seconds 3600) 60 in
  let secs := Z.rem seconds 60 in
  toString hours ++ colon :: padStart0 2 (toString minutes)
    ++ colon :: padStart0 2 (toString secs).

(** ** Regular expressions

    The fragment of the regular-expression language that the literals of
    [App.js] use. [Rep p lo hi] is a greedy quantifier over a one-character
    class ([\d{1,2}], [\s*], [.+], [[^*]+]); [Opt] is the greedy [?];
    [Grp i] is the [i]-th capturing group. *)

Inductive regex : Type :=
| Chr (p : jschar -> bool)
| Eps
| Seq (r1 r2 : regex)
| Alt (r1 r2 : regex)
| Rep (p : jschar -> bool) (lo : nat) (hi : option nat)
| Opt (r : regex)
| Grp (i : nat) (r : regex).

(** The array a match returns: index 0 is the whole match, index [i] the
    [i]-th group, [None] an undefined entry. *)
Definition captures := list (option jsstring).

Fixpoint set_cap (i : nat) (v : jsstring) (caps : captures) : captures :=
  match i, caps with
  | O, _ :: t => Some v :: t
  | O, [] => [Some v]
  | S j, c :: t => c :: set_cap j v t
  | S j, [] => None :: set_cap j v []
  end.

Definition get_cap (i : nat) (caps : captures) : jsstring :=
  match nth i caps None with
  | Some v => v
  | None => []
  end.

(** The part of [s] consumed when [s'] is what remains of it. *)
Definition consumed (s s' : jsstring) : jsstring :=
  firstn (length s - length s') s.

Section Matcher.
Variable A : Type.

(** Greedy repetition: take one more character when the class allows it
    and the bound is not reached, and fall back to stopping here when
    the rest of the pattern fails after that. *)
Fixpoint rep (p : jschar -> bool) (lo : nat) (hi : option nat)
    (s : jsstring) (k : jsstring -> option A) : option A :=
  let stop := match lo with O => k s | S _ => None end in
  match hi with
  | Some O => stop
  | _ =>
      match s with
      | c :: s' =>
          if p c then
            match rep p (pred lo) (option_map pred hi) s' k with
            | Some x => Some x
            | None => stop
            end
          else stop
      | [] => stop
      end
  end.

(** Backtracking matcher in continuation-passing style: [k] is the rest
    of the pattern, run on what is left of the input. *)
Fixpoint exec (r : regex) (s : jsstring) (caps : captures)
    (k : jsstring -> captures -> option A) : option A :=
  match r with
  | Chr p =>
      match s with
      | c :: s' => if p c then k s' caps else None
      | [] => None
      end
  | Eps => k s caps
  | Seq r1 r2 => exec r1 s caps (fun s' caps' => exec r2 s' caps' k)
  | Alt r1 r2 =>
      match exec r1 s caps k with
      | Some x => Some x
      | None => exec r2 s caps k
      end
  | Rep p lo hi => rep p lo hi s (fun s' => k s' caps)
  | Opt r1 =>
      match exec r1 s caps k with
      | Some x => Some x
      | None => k s caps
      end
  | Grp i r1 =>
      exec r1 s caps (fun s' caps' => k s' (set_cap i (consumed s s') caps'))
  end.
End Matcher.

Arguments rep {A} p lo hi s k.
Arguments exec {A} r s caps k.

(** A match anchored at the start of [s]: the captures and the rest. *)
Definition match_at (r : regex) (s : jsstring) : option (captures * jsstring) :=
  exec r s [] (fun s' caps => Some (set_cap 0 (consumed s s') caps, s')).

(** The leftmost match: what precedes it, its captures, what follows. *)
Fixpoint search (r : regex) (s : jsstring)
    : option (jsstring * captures * jsstring) :=
  match match_at r s with
  | Some (caps, rest) => Some ([], caps, rest)
  | None =>
      match s with
      | [] => None
      | c :: s' =>
          match search r s' with
          | Some (pre, caps, rest) => Some (c :: pre, caps, rest)
          | None => None
          end
      end
  end.

(** [s.match(r)] without the [g] flag. *)
Definition str_match (r : regex) (s : jsstring) : option captures :=
  match search r s with
  | Some (_, caps, _) => Some caps
  | None => None
  end.

(** [s.replace(/^.../, repl)]: a pattern that starts with [^] (no [m]
    flag) can only match at index 0. *)
Definition replace_anchored (r : regex) (repl : captures -> jsstring)
    (s : jsstring) : jsstring :=
  match match_at r s with
  | Some (caps, rest) => repl caps ++ rest
  | None => s
  end.

(** [s.replace(/.../g, repl)]: every leftmost match in turn, the search
    resuming where the previous match ended (one character further after
    an empty match). *)
Fixpoint replace_all_fuel (fuel : nat) (r : regex)
    (repl : captures -> jsstring) (s : jsstring) : jsstring :=
  match fuel with
  | O => s
  | S f =>
      match search r s with
      | None => s
      | Some (pre, caps, rest) =>
          match get_cap 0 caps, rest with
          | [], [] => pre ++ repl caps
          | [], c :: rest' => pre ++ repl caps ++ c :: replace_all_fuel f r repl rest'
          | _ :: _, _ => pre ++ repl caps ++ replace_all_fuel f r repl rest
          end
      end
  end.

Definition replace_all (r : regex) (repl : captures -> jsstring)
    (s : jsstring) : jsstring :=
  replace_all_fuel (S (length s)) r repl s.

(** [s.split(r)] for a pattern with one capturing group: the pieces
    between the matches, each match contributing its group. [acc] is the
    piece being read. A match that is empty at the start of a piece does
    not split. *)
Fixpoint split_re_fuel (fuel : nat) (r : regex) (acc s : jsstring)
    : list jsstring :=
  match fuel with
  | O => [acc ++ s]
  | S f =>
      match s with
      | [] => [acc]
      | c :: s' =>
          match match_at r s with
          | None => split_re_fuel f r (acc ++ [c]) s'
          | Some (caps, rest) =>
              match get_cap 0 caps, acc with
              | [], [] => split_re_fuel f r [c] s'
              | _, _ => acc :: get_cap 1 caps :: split_re_fuel f r [] rest
              end
          end
      end
  end.

Definition split_re (r : regex) (s : jsstring) : list jsstring :=
  match s with
  | [] => match match_at r [] with Some _ => [] | None => [[]] end
  | _ => split_re_fuel (2 * length s + 1) r [] s
  end.

(** A literal, character by character. *)
Fixpoint rlit (s : jsstring) : regex :=
  match s with
  | [] => Eps
  | c :: s' => Seq (Chr (N.eqb c)) (rlit s')
  end.

(** Canonicalisation of the [i] flag, on the ASCII range; a code unit
    outside it never canonicalises to an ASCII letter, so comparing with
    an ASCII pattern character is exact. *)
Definition canon (c : jschar) : jschar :=
  if ((97 <=? c) && (c <=? 122))%N then (c - 32)%N else c.

Fixpoint rlit_i (s : jsstring) : regex :=
  match s with
  | [] => Eps
  | c :: s' => Seq (Chr (fun x => (canon x =? canon c)%N)) (rlit_i s')
  end.

Fixpoint alts (rs : list regex) : regex :=
  match rs with
  | [] => Chr (fun _ => false)
  | [r] => r
  | r :: rs' => Alt r (alts rs')
  end.

(** ** [getVideoId] *)

(** The class [[^&\n?#]]. *)
Definition not_delim (c : jschar) : bool :=
  negb ((c =? 38) || (c =? 10) || (c =? 63) || (c =? 35))%N.

Definition watch_prefix : jsstring := Eval cbv in lit "youtube.com/watch?v=".
Definition short_prefix : jsstring := Eval cbv in lit "youtu.be/".
Definition embed_prefix : jsstring := Eval cbv in lit "youtube.com/embed/".

Definition id_pattern (prefix : jsstring) : regex :=
  Seq (rlit prefix) (Grp 1 (Rep not_delim 1 None)).

Definition patterns : list regex :=
  [id_pattern watch_prefix; id_pattern short_prefix; id_pattern embed_prefix].

(** The [for] loop over the patterns: the first one that matches gives its
    group 1; [None] is [null]. *)
Fixpoint first_capture (ps : list regex) (url : jsstring) : option jsstring :=
  match ps with
  | [] => None
  | p :: ps' =>
      match str_match p url with
      | Some caps => Some (get_cap 1 caps)
      | None => first_capture ps' url
      end
  end.

Definition getVideoId (url : jsstring) : option jsstring :=
  first_capture patterns url.

(** ** Chapters *)

Record chapter : Type := mkChapter {
  time : jsstring;
  title : jsstring;
  seconds : jsnum
}.

Definition ellipsis : jsstring := Eval cbv in lit "...".

(** [t.length > n ? t.substring(0, n - 3) + '...' : t]. *)
Definition shorten (n : nat) (t : jsstring) : jsstring :=
  if n <? length t then substring0 (n - 3) t ++ ellipsis else t.

(** *** The structural strategy *)

(** A transcript segment as the frontend reads it; a field is [None] when
    the object lacks it. *)
Record segment : Type := mkSegment {
  text : option jsstring;
  start_formatted : option jsstring;
  end_formatted : option jsstring
}.

(** A field that is present and truthy, that is, a non-empty string. *)
Definition truthy (o : option jsstring) : option jsstring :=
  match o with
  | Some (c :: s) => Some (c :: s)
  | _ => None
  end.

Definition space : jschar := 32%N.

(** [/^(welcome to|hello|hi there|today we|in this)/i] *)
Definition lead_in : regex :=
  Grp 1 (alts [rlit_i (lit "welcome to"); rlit_i (lit "hello");
               rlit_i (lit "hi there"); rlit_i (lit "today we");
               rlit_i (lit "in this")]).

(** [/^(fact|number|tip)( \d+)?:?/i] *)
Definition numbered_lead_in : regex :=
  Seq (Grp 1 (alts [rlit_i (lit "fact"); rlit_i (lit "number");
                    rlit_i (lit "tip")]))
      (Seq (Opt (Grp 2 (Seq (Chr (N.eqb space)) (Rep is_digit 1 None))))
           (Opt (Chr (N.eqb colon)))).

Definition stop_words : list jsstring :=
  Eval cbv in map lit ["the"; "and"; "but"; "for"; "are"; "will"; "can";
                       "you"; "your"]%string.

(** [toLowerCase], code unit by code unit: the ASCII capitals, and the two
    code units outside ASCII whose lower case contains an ASCII letter
    (the Kelvin sign and the dotted capital I). Other letters outside
    ASCII are left as they are: their lower-case forms are outside ASCII
    as well, so no comparison with a stop word changes. *)
Definition lower_unit (c : jschar) : jsstring :=
  if ((65 <=? c) && (c <=? 90))%N then [(c + 32)%N]
  else if (c =? 8490)%N then [107%N]
  else if (c =? 304)%N then [105%N; 775%N]
  else [c].

Definition toLowerCase (s : jsstring) : jsstring := flat_map lower_unit s.

Definition includes (l : list jsstring) (w : jsstring) : bool :=
  existsb (str_eqb w) l.

Definition significant (word : jsstring) : bool :=
  (2 <? length word) && negb (includes stop_words (toLowerCase word)).

Definition strip_lead_ins (t : jsstring) : jsstring :=
  replace_anchored numbered_lead_in (fun _ => [])
    (replace_anchored lead_in (fun _ => []) (trim t)).

(** [chapterTitle]: the first three significant words of the stripped
    text. *)
Definition chapterTitle (t : jsstring) : jsstring :=
  join space (firstn 3 (filter significant (split_on space (strip_lead_ins t)))).

(** The body of the [for] loop for the segment at the current index: the
    chapters it pushes. *)
Definition visit (seg : option segment) : list chapter :=
  match seg with
  | Some sg =>
      match truthy (text sg), truthy (start_formatted sg) with
      | Some t, Some start =>
          let ct := chapterTitle t in
          if 3 <? length ct
          then [mkChapter start (shorten 30 ct) (parseTimeToSeconds start)]
          else []
      | _, _ => []
      end
  | None => []
  end.

(** [for (let i = 0; i < totalSegments; i += segmentsPerChapter)]. *)
Fixpoint chapter_loop (fuel : nat) (structuredData : list segment)
    (segmentsPerChapter i : nat) (acc : list chapter) : list chapter :=
  match fuel with
  | O => acc
  | S f =>
      if i <? length structuredData
      then chapter_loop f structuredData segmentsPerChapter
             (i + segmentsPerChapter) (acc ++ visit (nth_error structuredData i))
      else acc
  end.

Definition conclusion_title : jsstring := Eval cbv in lit "Conclusion".

(** The conclusion chapter pushed after the loop. *)
Definition conclusion (structuredData : list segment) : list chapter :=
  match structuredData with
  | [] => []
  | _ =>
      match nth_error structuredData (length structuredData - 1) with
      | Some lastSegment =>
          match truthy (end_formatted lastSegment) with
          | Some e => [mkChapter e conclusion_title (parseTimeToSeconds e)]
          | None => []
          end
      | None => []
      end
  end.

(** The array [chapters] that [createTimestampsFromTranscript] builds and
    stores with [setTimestamps]. The loop runs at most [totalSegments]
    times because [segmentsPerChapter] is at least 50. *)
Definition chapters (structuredData : list segment) : list chapter :=
  let totalSegments := length structuredData in
  let segmentsPerChapter := Nat.max 50 (totalSegments / 15) in
  chapter_loop totalSegments structuredData segmentsPerChapter 0 []
    ++ conclusion structuredData.

(** *** The generative strategy *)

Definition hyphen : jschar := 45%N.
Definition en_dash : jschar := 8211%N.
Definition newline : jschar := 10%N.
Definition star : jschar := 42%N.

(** [/(\d{1,2}):(\d{2}):(\d{2})\s*[-–]\s*(.+)/] *)
Definition chapter_line : regex :=
  Seq (Grp 1 (Rep is_digit 1 (Some 2)))
 (Seq (Chr (N.eqb colon))
 (Seq (Grp 2 (Rep is_digit 2 (Some 2)))
 (Seq (Chr (N.eqb colon))
 (Seq (Grp 3 (Rep is_digit 2 (Some 2)))
 (Seq (Rep is_space 0 None)
 (Seq (Chr (fun c => (c =? hyphen) || (c =? en_dash))%N)
 (Seq (Rep is_space 0 None)
      (Grp 4 (Rep (fun c => negb (is_line_terminator c)) 1 None))))))))).

(** [/\*\*/g] *)
Definition double_star : regex := rlit [star; star].

Definition NaN_string : jsstring := Eval cbv in lit "NaN".

(** A template literal [`${n}`] or [n.toString()] of a number. [Other]
    is printed as NaN, which is exact for NaN, the result of [parseInt] on
    a string without digits; an untracked number that is not NaN (a
    fraction, a magnitude from 10^21 on) prints differently, so what is
    proved about printed numbers is stated for [Int]. In [parse_line] the
    captures have at most two digits and are always tracked. *)
Definition num_string (n : jsnum) : jsstring :=
  match n with
  | Int z => toString z
  | Other => NaN_string
  end.

(** The callback of [lines.forEach]: the chapters one line pushes. *)
Definition parse_line (line : jsstring) : list chapter :=
  match str_match chapter_line line with
  | Some m =>
      let hours := parseInt (get_cap 1 m) in
      let minutes := parseInt (get_cap 2 m) in
      let secs := parseInt (get_cap 3 m) in
      let t := replace_all double_star (fun _ => []) (trim (get_cap 4 m)) in
      let displayTime :=
        num_string hours ++ colon :: padStart0 2 (num_string minutes)
          ++ colon :: padStart0 2 (num_string secs) in
      [mkChapter displayTime (shorten 40 t)
         (num_add (num_add (num_mul hours (Int 3600)) (num_mul minutes (Int 60)))
                  secs)]
  | None => []
  end.

(** The array [newTimestamps] that [generateAITimestamps] builds from the
    answer and stores with [setTimestamps]. *)
Definition newTimestamps (answer : jsstring) : list chapter :=
  flat_map parse_line (split_on newline answer).

(** ** [formatText] and [jumpToTime] *)

Definition dquote : jschar := 34%N.
Definition lparen : jschar := 40%N.
Definition rparen : jschar := 41%N.

Definition not_star (c : jschar) : bool := negb (c =? star)%N.

(** An opening tag with a class attribute: [<tag class="cls">]. *)
Definition open_tag (tag cls : string) : jsstring :=
  60%N :: lit tag ++ lit " class=" ++ dquote :: lit cls ++ [dquote; 62%N].

Definition strong_open : jsstring := Eval cbv in open_tag "strong" "bold-text".
Definition strong_close : jsstring := Eval cbv in lit "</strong>".
Definition em_open : jsstring := Eval cbv in open_tag "em" "italic-text".
Definition em_close : jsstring := Eval cbv in lit "</em>".
Definition span_open : jsstring :=
  Eval cbv in open_tag "span" "timestamp-placeholder".
Definition span_close : jsstring := Eval cbv in lit "</span>".

(** [/\*\*([^*]+)\*\*/g] *)
Definition bold : regex :=
  Seq (rlit [star; star]) (Seq (Grp 1 (Rep not_star 1 None)) (rlit [star; star])).

(** [/\*([^*]+)\*/g] *)
Definition italic : regex :=
  Seq (Chr (N.eqb star)) (Seq (Grp 1 (Rep not_star 1 None)) (Chr (N.eqb star))).

(** [/\((\d{1,2}):(\d{2}):(\d{2})\)/g] *)
Definition citation : regex :=
  Seq (Chr (N.eqb lparen))
 (Seq (Grp 1 (Rep is_digit 1 (Some 2)))
 (Seq (Chr (N.eqb colon))
 (Seq (Grp 2 (Rep is_digit 2 (Some 2)))
 (Seq (Chr (N.eqb colon))
 (Seq (Grp 3 (Rep is_digit 2 (Some 2)))
      (Chr (N.eqb rparen))))))).

(** [/<span class="timestamp-placeholder">(\d{1,2}:\d{2}:\d{2})<\/span>/] *)
Definition placeholder : regex :=
  Seq (rlit span_open)
 (Seq (Grp 1 (Seq (Rep is_digit 1 (Some 2))
             (Seq (Chr (N.eqb colon))
             (Seq (Rep is_digit 2 (Some 2))
             (Seq (Chr (N.eqb colon))
                  (Rep is_digit 2 (Some 2)))))))
      (rlit span_close)).

(** The replacement strings, with [$1], [$2], [$3] filled in. *)
Definition bold_html (m : captures) : jsstring :=
  strong_open ++ get_cap 1 m ++ strong_close.

Definition italic_html (m : captures) : jsstring :=
  em_open ++ get_cap 1 m ++ em_close.

Definition placeholder_html (m : captures) : jsstring :=
  span_open ++ get_cap 1 m ++ colon :: get_cap 2 m ++ colon :: get_cap 3 m
    ++ span_close.

(** What [formatText] puts in its result array: a [<span>] whose inner
    HTML is a piece of text, or a [<button className="timestamp-link">]
    whose click calls [jumpToTime] with [seek]. *)
Inductive element : Type :=
| HtmlSpan (key : nat) (html : jsstring)
| TimestampButton (key : nat) (label : jsstring) (seek : jsnum).

(** What [formatText] returns: the array, or the text itself when the
    array is empty. *)
Inductive rendered : Type :=
| Elements (l : list element)
| PlainText (t : jsstring).

(** The loop over [parts], from index [i] on. *)
Fixpoint render_parts (i : nat) (parts : list jsstring) : list element :=
  match parts with
  | [] => []
  | p :: ps =>
      (if Nat.even i
       then match p with [] => [] | _ => [HtmlSpan i p] end
       else [TimestampButton i p (parseTimeToSeconds p)])
        ++ render_parts (S i) ps
  end.

Definition formattedText (t : jsstring) : jsstring :=
  replace_all citation placeholder_html
    (replace_all italic italic_html (replace_all bold bold_html t)).

Definition formatText (t : jsstring) : rendered :=
  let parts := split_re placeholder (formattedText t) in
  match render_parts 0 parts with
  | [] => PlainText t
  | result => Elements result
  end.

(** [jumpToTime] on the [src] of the player frame ([None]: no frame with
    id [youtube-player] in the document). *)
Definition jumpToTime (secs : jsnum) (player : option jsstring)
    : option jsstring :=
  match player with
  | Some src =>
      let baseUrl := hd [] (split_on 63%N src) in
      Some (baseUrl ++ lit "?start=" ++ num_string secs ++ lit "&autoplay=1")
  | None => None
  end.

(** The buttons of a rendering, in order: label and seek time. *)
Definition buttons_of (els : list element) : list (jsstring * jsnum) :=
  flat_map (fun e => match e with
                     | TimestampButton _ l t => [(l, t)]
                     | HtmlSpan _ _ => []
                     end) els.

Definition citations (t : jsstring) : list (jsstring * jsnum) :=
  match formatText t with
  | Elements l => buttons_of l
  | PlainText _ => []
  end.

(** ** Component state and event handlers *)

Inductive message_type : Type := SystemMsg | UserMsg | AiMsg.

Record message : Type := mkMessage {
  m_type : message_type;
  content : jsstring;
  m_time : option jsstring;
  method : option jsstring
}.

(** The [useState] cells of [App] that the handlers below touch. *)
Record AppState : Type := mkApp {
  videoUrl : jsstring;
  messages : list message;
  videoId : jsstring;
  videoTitle : jsstring;
  timestamps : list chapter;
  error : jsstring
}.

Inductive endpoint : Type := ProcessYoutube | SmartQuestion.

(** The JSON body of a request: [url], and [question] when there is one. *)
Record request : Type := mkRequest {
  req_endpoint : endpoint;
  req_url : jsstring;
  req_question : option jsstring
}.

(** The JSON object a response carries, field by field ([None]: absent). *)
Record response : Type := mkResponse {
  success : bool;
  video_title : option jsstring;
  answer : option jsstring;
  r_error : option jsstring
}.

(** [await fetch(...)] followed by [await response.json()]: a rejection
    with its message, or the parsed object. *)
Inductive fetch_result : Type :=
| Rejected (msg : jsstring)
| Json (data : response).

Inductive kind : Type := Info | Loading | Success | Failure.

(** What a handler does besides setting state: requests sent and toasts
    shown or removed (a toast is named by its message; the source names
    it by the [Date.now()] it was created at). *)
Inductive event : Type :=
| Fetched (r : request)
| Shown (msg : jsstring) (k : kind) (persistent : bool)
| Removed (msg : jsstring).

Record world : Type := mkWorld {
  app_state : AppState;
  log : list event
}.

(** A handler is a state transformer over [world]. *)
Definition M (A : Type) : Type := world -> A * world.

Definition ret {A} (a : A) : M A := fun w => (a, w).

Definition bind {A B} (c : M A) (k : A -> M B) : M B :=
  fun w => let (a, w') := c w in k a w'.

Notation "x <- c ;; k" := (bind c (fun x => k))
  (at level 61, c at next level, right associativity).
Notation "c ;; k" := (bind c (fun _ => k))
  (at level 61, right associativity).

Definition emit (e : event) : M unit :=
  fun w => (tt, mkWorld (app_state w) (log w ++ [e])).

Definition update (f : AppState -> AppState) : M unit :=
  fun w => (tt, mkWorld (f (app_state w)) (log w)).

Definition setMessages (v : list message) : M unit :=
  update (fun a => mkApp (videoUrl a) v (videoId a) (videoTitle a)
                         (timestamps a) (error a)).
Definition setVideoId (v : jsstring) : M unit :=
  update (fun a => mkApp (videoUrl a) (messages a) v (videoTitle a)
                         (timestamps a) (error a)).
Definition setVideoTitle (v : jsstring) : M unit :=
  update (fun a => mkApp (videoUrl a) (messages a) (videoId a) v
                         (timestamps a) (error a)).
Definition setTimestamps (v : list chapter) : M unit :=
  update (fun a => mkApp (videoUrl a) (messages a) (videoId a) (videoTitle a)
                         v (error a)).
Definition setError (v : jsstring) : M unit :=
  update (fun a => mkApp (videoUrl a) (messages a) (videoId a) (videoTitle a)
                         (timestamps a) v).

Definition showNotification (msg : jsstring) (k : kind) (persistent : bool)
    : M jsstring :=
  emit (Shown msg k persistent) ;; ret msg.

Definition removeNotification (id : jsstring) : M unit := emit (Removed id).

Definition fetch (server : request -> fetch_result) (r : request)
    : M fetch_result :=
  emit (Fetched r) ;; ret (server r).

Definition chapters_prompt : jsstring :=
  Eval cbv in lit "Create video chapters with short titles. Format: '0:00:00 - Introduction', '0:02:30 - Main Topic', etc. Keep titles under 5 words.".

Definition msg_creating : jsstring :=
  Eval cbv in lit "Creating chapters from transcript...".
Definition msg_generating : jsstring :=
  Eval cbv in lit "Generating timestamps...".
Definition msg_loading : jsstring :=
  Eval cbv in lit "Loading video and extracting transcript".

(** [generateAITimestamps(url)]. [rendered_title] is the [videoTitle] the
    closure was created with. A missing [data.answer] makes [split] throw,
    which the [catch] turns into the failure toast. *)
Definition generateAITimestamps (server : request -> fetch_result)
    (rendered_title : jsstring) (url : jsstring) : M unit :=
  id <- showNotification msg_generating Loading true ;;
  r <- fetch server (mkRequest SmartQuestion url (Some chapters_prompt)) ;;
  let failed :=
    removeNotification id ;;
    showNotification (lit "Failed to generate timestamps") Failure false ;;
    ret tt in
  match r with
  | Rejected _ => failed
  | Json data =>
      if success data then
        match truthy (video_title data), rendered_title with
        | Some t, [] => setVideoTitle t
        | _, _ => ret tt
        end ;;
        match answer data with
        | None => failed
        | Some a =>
            setTimestamps (newTimestamps a) ;;
            removeNotification id ;;
            showNotification (lit "Timestamps generated!") Success false ;;
            ret tt
        end
      else
        removeNotification id ;;
        showNotification (lit "Could not generate timestamps") Failure false ;;
        ret tt
  end.

(** [createTimestampsFromTranscript(structuredData)]; [None] is a value
    without a [length] ([null] or [undefined]), on which the [try] block
    throws and the [catch] falls back to [generateAITimestamps]. *)
Definition createTimestampsFromTranscript (server : request -> fetch_result)
    (rendered : AppState) (structuredData : option (list segment)) : M unit :=
  id <- showNotification msg_creating Loading true ;;
  match structuredData with
  | Some data =>
      setTimestamps (chapters data) ;;
      removeNotification id ;;
      showNotification (lit "Chapters created successfully!") Success false ;;
      ret tt
  | None =>
      removeNotification id ;;
      showNotification (lit "Using AI to generate chapters...") Info false ;;
      generateAITimestamps server (videoTitle rendered) (videoUrl rendered)
  end.

Definition or_else (o : option jsstring) (d : jsstring) : jsstring :=
  match truthy o with
  | Some v => v
  | None => d
  end.

Definition undefined_string : jsstring := Eval cbv in lit "undefined".

Definition print_field (o : option jsstring) : jsstring :=
  match o with
  | Some v => v
  | None => undefined_string
  end.

(** [loadVideo]. [rendered] is the state of the render the handler was
    created in (what [videoUrl] and [videoTitle] read); [now] is what
    [new Date().toLocaleTimeString()] returns. *)
Definition loadVideo (server : request -> fetch_result) (now : jsstring)
    (rendered : AppState) : M unit :=
  match getVideoId (videoUrl rendered) with
  | None => setError (lit "Please enter a valid YouTube URL")
  | Some id =>
      setVideoId id ;;
      setMessages [] ;;
      setTimestamps [] ;;
      setError [] ;;
      videoLoadingId <- showNotification msg_loading Loading true ;;
      r <- fetch server (mkRequest ProcessYoutube (videoUrl rendered) None) ;;
      match r with
      | Rejected msg =>
          removeNotification videoLoadingId ;;
          showNotification (lit "Connection error: " ++ msg) Failure false ;;
          setError (lit "Failed to connect to server")
      | Json data =>
          if negb (success data) then
            removeNotification videoLoadingId ;;
            showNotification
              (lit "Failed to process video: " ++ print_field (r_error data))
              Failure false ;;
            setError (lit "Could not extract transcript from this video")
          else
            removeNotification videoLoadingId ;;
            showNotification (lit "Video transcript extracted successfully!")
              Success false ;;
            setVideoTitle (or_else (video_title data) (lit "Unknown Video")) ;;
            setMessages
              [mkMessage SystemMsg
                 (lit "Video loaded! Ask questions about " ++ dquote ::
                  or_else (video_title data) (lit "this video")
                  ++ [dquote; 46%N])
                 (Some now) None] ;;
            generateAITimestamps server (videoTitle rendered) (videoUrl rendered)
      end
  end.

(** Running a handler from a state: the state it leaves and what it did. *)
Definition run_handler (h : M unit) (a : AppState) : world :=
  snd (h (mkWorld a [])).

(** One step of reading a decimal numeral. *)
Definition dec_step (acc : N) (c : jschar) : N := (10 * acc + digit_val c)%N.

(** ** Reading the id patterns without the matcher *)

(** What is left of [s] after the literal [l], when [s] starts with it. *)
Fixpoint strip_prefix (l s : jsstring) : option jsstring :=
  match l with
  | [] => Some s
  | a :: l' =>
      match s with
      | c :: s' => if (a =? c)%N then strip_prefix l' s' else None
      | [] => None
      end
  end.

(** The id that follows [prefix] at the start of [s]: the longest run of
    characters other than [&], newline, [?] and [#], if it is not empty. *)
Definition id_at (prefix s : jsstring) : option jsstring :=
  match strip_prefix prefix s with
  | Some s' =>
      match takeWhile not_delim s' with
      | [] => None
      | t => Some t
      end
  | None => None
  end.

Fixpoint find_id (prefix s : jsstring) : option jsstring :=
  match id_at prefix s with
  | Some t => Some t
  | None =>
      match s with
      | [] => None
      | _ :: s' => find_id prefix s'
      end
  end.

(** [url] contains [prefix] followed by at least one id character. *)
Definition has_form (prefix url : jsstring) : Prop :=
  exists pre c post, url = pre ++ prefix ++ c :: post /\ not_delim c = true.

Fixpoint occurs (prefix s : jsstring) : bool :=
  match strip_prefix prefix s with
  | Some (c :: _) => not_delim c
  | _ => false
  end
  || match s with
     | [] => false
     | _ :: s' => occurs prefix s'
     end.

(** A URL in none of the three forms. *)
Definition no_form (url : jsstring) : bool :=
  negb (occurs watch_prefix url) && negb (occurs short_prefix url)
  && negb (occurs embed_prefix url).

(** The characters of a video id: anything but the four delimiters of the
    patterns and the slash. *)
Definition id_char (c : jschar) : bool := not_delim c && negb (c =? 47)%N.

Definition video_id (v : jsstring) : bool :=
  match v with
  | [] => false
  | _ => forallb id_char v
  end.

(** What may precede the host name in a URL ([https://www.], [http://m.]):
    no [y] and no [?]. *)
Definition origin (pre : jsstring) : bool :=
  forallb (fun c => negb (c =? 121)%N && negb (c =? 63)%N) pre.

(** [s] has no occurrence of the character [x]. *)
Definition lacks (x : jschar) (s : jsstring) : bool :=
  forallb (fun c => negb (c =? x)%N) s.

(** ** Reading the log of a handler *)

(** The first thing the structural builder does is to show its toast. *)
Definition structural_started : event := Shown msg_creating Loading true.

Definition is_generative_request (e : event) : bool :=
  match e with
  | Fetched (mkRequest SmartQuestion _ (Some _)) => true
  | _ => false
  end.

(** Structural first: every generative request in the log comes after a
    run of the structural builder. *)
Definition structural_first (l : list event) : Prop :=
  forall pre e post,
    l = pre ++ e :: post -> is_generative_request e = true ->
    In structural_started pre.

Definition event_eqb_started (e : event) : bool :=
  match e with
  | Shown m Loading true => str_eqb m msg_creating
  | _ => false
  end.

(** A sample state and sample servers. *)
Definition sample_state : AppState :=
  mkApp (lit "https://youtu.be/dQw4w9WgXcQ") [] [] [] [] [].

Definition sample_answer : jsstring :=
  lit "0:02:00 - Second part" ++ newline :: lit "0:01:00 - First part".

Definition sample_server (r : request) : fetch_result :=
  match req_endpoint r with
  | ProcessYoutube => Json (mkResponse true (Some (lit "A video")) None None)
  | SmartQuestion => Json (mkResponse true None (Some sample_answer) None)
  end.

(** ** The language of a pattern

    [run r s caps s' caps']: the pattern [r] matches a prefix of [s],
    [s'] is what follows it, and the groups of [r] are recorded on top of
    [caps]. This is the declarative reading of a pattern, without
    priorities: the matcher finds one of these runs, or none if there is
    none. *)
Inductive run : regex -> jsstring -> captures -> jsstring -> captures -> Prop :=
| run_chr p c s caps :
    p c = true -> run (Chr p) (c :: s) caps s caps
| run_eps s caps :
    run Eps s caps s caps
| run_seq r1 r2 s caps s1 caps1 s2 caps2 :
    run r1 s caps s1 caps1 -> run r2 s1 caps1 s2 caps2 ->
    run (Seq r1 r2) s caps s2 caps2
| run_alt_l r1 r2 s caps s' caps' :
    run r1 s caps s' caps' -> run (Alt r1 r2) s caps s' caps'
| run_alt_r r1 r2 s caps s' caps' :
    run r2 s caps s' caps' -> run (Alt r1 r2) s caps s' caps'
| run_rep p lo hi m s caps :
    forallb p m = true -> lo <= length m ->
    match hi with Some h => length m <= h | None => True end ->
    run (Rep p lo hi) (m ++ s) caps s caps
| run_opt_some r s caps s' caps' :
    run r s caps s' caps' -> run (Opt r) s caps s' caps'
| run_opt_none r s caps :
    run (Opt r) s caps s caps
| run_grp i r s caps s' caps' :
    run r s caps s' caps' ->
    run (Grp i r) s caps s' (set_cap i (consumed s s') caps').

(** [s] contains a match of [r]. *)
Definition contains_match (r : regex) (s : jsstring) : Prop :=
  exists pre m s' caps, s = pre ++ m /\ run r m [] s' caps.

(** [s.replace(/\*\*/g, '')] read directly: pairs of stars are dropped
    from left to right. *)
Fixpoint remove_pairs (s : jsstring) : jsstring :=
  match s with
  | [] => []
  | a :: tl =>
      match tl with
      | b :: s' =>
          if ((a =? star) && (b =? star))%N then remove_pairs s'
          else a :: remove_pairs tl
      | [] => [a]
      end
  end.

(** Two stars in a row somewhere in [s]. *)
Fixpoint has_double_star (s : jsstring) : bool :=
  match s with
  | [] => false
  | a :: tl =>
      match tl with
      | b :: _ => ((a =? star) && (b =? star))%N || has_double_star tl
      | [] => false
      end
  end.

(** ** The chapter lines of the generative strategy, in words

    [s] starts with a chapter line: hours [h] of one or two digits, a
    colon, two digits [mm], a colon, two digits [ss], optional white
    space, a hyphen or an en dash, optional white space, and a title [t]
    of at least one character without line terminators; [rest] follows. *)
Definition chapter_line_at (s h mm ss t rest : jsstring) : Prop :=
  exists ws1 d ws2,
    s = h ++ colon :: mm ++ colon :: ss ++ ws1 ++ d :: ws2 ++ t ++ rest
    /\ forallb is_digit h = true /\ 1 <= length h <= 2
    /\ forallb is_digit mm = true /\ length mm = 2
    /\ forallb is_digit ss = true /\ length ss = 2
    /\ forallb is_space ws1 = true
    /\ (d = hyphen \/ d = en_dash)
    /\ forallb is_space ws2 = true
    /\ t <> []
    /\ forallb (fun c => negb (is_line_terminator c)) t = true.

(** [line] matches [H:MM:SS - Title] somewhere. *)
Definition matches_chapter_line (line : jsstring) : Prop :=
  exists pre s h mm ss t rest,
    line = pre ++ s /\ chapter_line_at s h mm ss t rest.

(** The groups of a chapter line, as the match array holds them. *)
Definition line_captures (h mm ss t : jsstring) : captures :=
  set_cap 4 t (set_cap 3 ss (set_cap 2 mm (set_cap 1 h []))).

(** [s] starts with a chapter line, for some reading of it. *)
Definition starts_chapter_line (s : jsstring) : Prop :=
  exists h mm ss t rest, chapter_line_at s h mm ss t rest.

(** The first chapter line of [line]: [pre] stands before it, [h], [mm]
    and [ss] are its time and [u] is what follows its dash. No chapter
    line starts earlier in [line], and [u] has a character other than a
    line terminator with nothing but white space before it, so that there
    is a title to read. *)
Definition first_chapter_line (line pre h mm ss u : jsstring) : Prop :=
  exists ws1 d,
    line = pre ++ h ++ colon :: mm ++ colon :: ss ++ ws1 ++ d :: u
    /\ forallb is_digit h = true /\ 1 <= length h <= 2
    /\ forallb is_digit mm = true /\ length mm = 2
    /\ forallb is_digit ss = true /\ length ss = 2
    /\ forallb is_space ws1 = true
    /\ (d = hyphen \/ d = en_dash)
    /\ (exists a c b,
          u = a ++ c :: b /\ forallb is_space a = true
          /\ is_line_terminator c = false)
    /\ forall pre1 s1,
         line = pre1 ++ s1 -> length pre1 < length pre ->
         ~ starts_chapter_line s1.

(** The hours as the chapter shows them: the zero that pads one digit to
    two is dropped. *)
Definition unpad (h : jsstring) : jsstring :=
  match h with
  | [z; b] => if (z =? 48)%N then [b] else h
  | _ => h
  end.

(** The title of the chapter whose line continues with [u] after the
    dash: the white space after the dash is skipped, the text up to the
    end of its line is trimmed, the double stars are taken out and the
    result is cut to 40 characters. *)
Definition spec_chapter_title (u : jsstring) : jsstring :=
  shorten 40
    (remove_pairs
       (trim (takeWhile (fun c => negb (is_line_terminator c))
                        (dropWhile is_space u)))).

(** ** Order of chapters *)

Definition num_leb (a b : jsnum) : bool :=
  match a, b with
  | Int x, Int y => (x <=? y)%Z
  | _, _ => false
  end.

(** Each element is at most the next one. *)
Fixpoint nondecreasing (l : list jsnum) : bool :=
  match l with
  | [] => true
  | a :: tl =>
      match tl with
      | b :: _ => num_leb a b && nondecreasing tl
      | [] => true
      end
  end.

(** The times of a segment, as [parseTimeToSeconds] reads its fields. *)
Definition start_time (sg : segment) : jsnum :=
  match start_formatted sg with
  | Some s => parseTimeToSeconds s
  | None => Other
  end.

Definition end_time (sg : segment) : jsnum :=
  match end_formatted sg with
  | Some s => parseTimeToSeconds s
  | None => Other
  end.

(** A start-ordered transcript: later segments do not start earlier. *)
Definition start_ordered (data : list segment) : Prop :=
  forall i j a b,
    i <= j -> nth_error data i = Some a -> nth_error data j = Some b ->
    num_leb (start_time a) (start_time b) = true.

Definition last_segment (data : list segment) : option segment :=
  nth_error data (length data - 1).

Definition forty_chars : jsstring :=
  Eval cbv in lit "A title of exactly forty characters here".

Definition is_int (n : jsnum) : bool :=
  match n with
  | Int _ => true
  | Other => false
  end.

(** The same, as a check on the list of start times. *)
Definition start_ordered_b (data : list segment) : bool :=
  forallb is_int (map start_time data)
  && nondecreasing (map start_time data).

(** ** The structural strategy, in the words of its description

    Buckets of [max(50, n/15)] consecutive segments; the first segment of
    each bucket gives a chapter: lead-ins stripped, the first three
    significant words kept; a bucket whose title has at most three
    characters is skipped; a Conclusion chapter stands at the end time of
    the last segment. *)

(** What is left of [s] after the phrase [l], compared without regard to
    the case of ASCII letters. *)
Fixpoint strip_prefix_ci (l s : jsstring) : option jsstring :=
  match l with
  | [] => Some s
  | a :: l' =>
      match s with
      | c :: s' => if (canon c =? canon a)%N then strip_prefix_ci l' s' else None
      | [] => None
      end
  end.

(** The first phrase of the list that [s] starts with is removed. *)
Fixpoint first_strip (phrases : list jsstring) (s : jsstring)
    : option jsstring :=
  match phrases with
  | [] => None
  | p :: ps =>
      match strip_prefix_ci p s with
      | Some r => Some r
      | None => first_strip ps s
      end
  end.

Definition lead_in_phrases : list jsstring :=
  Eval cbv in map lit ["welcome to"; "hello"; "hi there"; "today we";
                       "in this"]%string.

Definition numbered_words : list jsstring :=
  Eval cbv in map lit ["fact"; "number"; "tip"]%string.

(** A space and a number, when they come first, are removed. *)
Definition strip_number (s : jsstring) : jsstring :=
  match s with
  | sp :: d :: s' =>
      if (sp =? space)%N && is_digit d then dropWhile is_digit s' else s
  | _ => s
  end.

(** A colon, when it comes first, is removed. *)
Definition strip_colon (s : jsstring) : jsstring :=
  match s with
  | c :: s' => if (c =? colon)%N then s' else s
  | [] => []
  end.

Definition spec_strip (t : jsstring) : jsstring :=
  let t1 := trim t in
  let t2 := match first_strip lead_in_phrases t1 with
            | Some r => r
            | None => t1
            end in
  match first_strip numbered_words t2 with
  | Some r => strip_colon (strip_number r)
  | None => t2
  end.

(** The stop words. *)
Definition spec_stop_words : list jsstring :=
  Eval cbv in map lit ["the"; "and"; "but"; "for"; "are"; "will"; "can";
                       "you"; "your"]%string.

(** [c] is the small letter [b] or its capital. *)
Definition same_letter (c b : jschar) : bool :=
  (c =? b)%N || ((97 <=? b) && (b <=? 122) && (c =? b - 32))%N.

(** The word [w] is the word [sw] of small letters, in small or capital
    letters. *)
Fixpoint same_word (w sw : jsstring) : bool :=
  match w, sw with
  | [], [] => true
  | c :: w', b :: sw' => same_letter c b && same_word w' sw'
  | _, _ => false
  end.

(** A small letter other than [k]: the letters of the stop words. No
    character outside ASCII becomes such a letter in lower case (the
    Kelvin sign becomes [k]). *)
Definition plain_letter (b : jschar) : bool :=
  ((97 <=? b) && (b <=? 122) && negb (b =? 107))%N.

Definition is_stop_word (w : jsstring) : bool :=
  existsb (same_word w) spec_stop_words.

(** A significant word: at least three characters long and not a stop
    word, however it is capitalised. *)
Definition spec_significant (w : jsstring) : bool :=
  (3 <=? length w) && negb (is_stop_word w).

Definition spec_title (t : jsstring) : jsstring :=
  join space
    (firstn 3 (filter spec_significant (split_on space (spec_strip t)))).

(** The first segment of every bucket of [size] segments; [wait] counts
    the segments still to pass before the next bucket starts. *)
Fixpoint first_of_buckets (size wait : nat) (l : list segment)
    : list segment :=
  match l with
  | [] => []
  | sg :: l' =>
      match wait with
      | O => sg :: first_of_buckets size (size - 1) l'
      | S w => first_of_buckets size w l'
      end
  end.

Definition spec_chapter (sg : segment) : list chapter :=
  match truthy (text sg), truthy (start_formatted sg) with
  | Some t, Some start =>
      let ti := spec_title t in
      if length ti <=? 3 then []
      else [mkChapter start (shorten 30 ti) (parseTimeToSeconds start)]
  | _, _ => []
  end.

Definition spec_conclusion (data : list segment) : list chapter :=
  match rev data with
  | lastSegment :: _ =>
      match truthy (end_formatted lastSegment) with
      | Some e => [mkChapter e conclusion_title (parseTimeToSeconds e)]
      | None => []
      end
  | [] => []
  end.

Definition structural_spec (data : list segment) : list chapter :=
  flat_map spec_chapter
    (first_of_buckets (Nat.max 50 (length data / 15)) 0 data)
  ++ spec_conclusion data.

(** A continuation that succeeds everywhere and leaves [f s] of the
    input [s] it is run on. *)
Definition returns (f : jsstring -> jsstring)
    (k : jsstring -> captures -> option (captures * jsstring)) : Prop :=
  forall s c, option_map snd (k s c) = Some (f s).

(** ** Citations, in the words of their description

    A citation is an opening parenthesis, one or two digits, a colon, two
    digits, a colon, two digits and a closing parenthesis. The occurrences
    of such fixed-shape patterns in a text are found by looking at every
    position in turn. *)

(** A fixed-length pattern: one character class per position. *)
Definition template := list (jschar -> bool).

(** The prefix of [s] that fits the template, if there is one. *)
Fixpoint match_template (T : template) (s : jsstring) : option jsstring :=
  match T with
  | [] => Some []
  | p :: T' =>
      match s with
      | c :: s' =>
          if p c then option_map (cons c) (match_template T' s') else None
      | [] => None
      end
  end.

Fixpoint first_template (Ts : list template) (s : jsstring)
    : option jsstring :=
  match Ts with
  | [] => None
  | T :: Ts' =>
      match match_template T s with
      | Some m => Some m
      | None => first_template Ts' s
      end
  end.

Definition found (Ts : list template) (s : jsstring) : list jsstring :=
  match first_template Ts s with
  | Some m => [m]
  | None => []
  end.

(** All the occurrences in [s], from left to right. *)
Fixpoint occurrences (Ts : list template) (s : jsstring) : list jsstring :=
  match s with
  | [] => []
  | _ :: s' => found Ts s ++ occurrences Ts s'
  end.

Definition citation_templates : list template :=
  [ [N.eqb lparen; is_digit; is_digit; N.eqb colon; is_digit; is_digit;
     N.eqb colon; is_digit; is_digit; N.eqb rparen];
    [N.eqb lparen; is_digit; N.eqb colon; is_digit; is_digit;
     N.eqb colon; is_digit; is_digit; N.eqb rparen] ].

(** The citation [(h:mm:ss)] and the label [h:mm:ss] inside it. *)
Definition cite (h mm ss : jsstring) : jsstring :=
  lparen :: h ++ colon :: mm ++ colon :: ss ++ [rparen].

Definition label (h mm ss : jsstring) : jsstring :=
  h ++ colon :: mm ++ colon :: ss.

Definition time_shape (h mm ss : jsstring) : Prop :=
  forallb is_digit h = true /\ 1 <= length h <= 2
  /\ forallb is_digit mm = true /\ length mm = 2
  /\ forallb is_digit ss = true /\ length ss = 2.

(** What is between the parentheses of a citation. *)
Definition inner (m : jsstring) : jsstring := removelast (tl m).

(** The citations of a text as the description has them: every
    occurrence of [(H:MM:SS)], with the time it stands for. *)
Definition spec_citations (t : jsstring) : list (jsstring * jsnum) :=
  map (fun m => (inner m, parseTimeToSeconds (inner m)))
      (occurrences citation_templates t).

(** The opening tag of the placeholder markup, as a pattern. *)
Definition markup_templates : list template := [map N.eqb span_open].

(** The text does not contain [<span class="timestamp-placeholder">]. *)
Definition no_markup (t : jsstring) : bool :=
  match occurrences markup_templates t with
  | [] => true
  | _ => false
  end.

(** A string on which the template fails whatever follows it. *)
Fixpoint fails_within (T : template) (D : jsstring) : bool :=
  match T with
  | [] => false
  | p :: T' =>
      match D with
      | c :: D' => if p c then fails_within T' D' else true
      | [] => false
      end
  end.

Fixpoint all_fail (Ts : list template) (D : jsstring) : bool :=
  match D with
  | [] => true
  | _ :: D' => forallb (fun T => fails_within T D) Ts && all_fail Ts D'
  end.

Definition tail_rejects (Ts : list template) (d : jschar) : bool :=
  forallb (fun T : template => forallb (fun p => negb (p d)) (tl T)) Ts.

(** [D] separates the occurrences on its two sides: no occurrence starts
    in it, and none runs into it. *)
Definition is_break (Ts : list template) (D : jsstring) : bool :=
  match D with
  | [] => false
  | d :: _ => tail_rejects Ts d && all_fail Ts D
  end.

(** The captures of a [split]: the elements at odd indices. *)
Fixpoint odds (parts : list jsstring) : list jsstring :=
  match parts with
  | _ :: c :: rest => c :: odds rest
  | _ => []
  end.

(** The placeholder pass of [formatText]. *)
Definition placeholders (s : jsstring) : jsstring :=
  replace_all citation placeholder_html s.

(** The placeholder that stands for a citation. *)
Definition marker (h mm ss : jsstring) : jsstring :=
  span_open ++ label h mm ss ++ span_close.

Definition button (l : jsstring) : jsstring * jsnum :=
  (l, parseTimeToSeconds l).

(** ** The video cache of the backend

    Modelled from the spec: the backend ([api/cache.py] and the
    coordinator behind [process_video]) is not among the sources; this is
    the cache of sections 3, 4.2 and 5 of the specification. An entry is
    PENDING while its extraction is in flight, with the callers that wait
    for it, and becomes READY or FAILED when the extraction chain
    completes. Concurrency is the interleaving of two kinds of atomic
    steps: a call arrives, an extraction completes. A call that finds a
    FAILED entry starts a fresh extraction (the retry policy of section
    3). *)

Inductive method_used : Type := API | CAPTION_FILE | SPEECH_MODEL.

Record extraction_record : Type := mkRecord {
  record_title : jsstring;
  record_method : method_used
}.

(** What the extraction chain ends with, and what a caller observes. *)
Inductive outcome : Type :=
| Extracted (r : extraction_record)
| ExtractionFailure (reasons : jsstring).

Inductive cache_entry : Type :=
| PENDING (waiters : list nat)
| READY (r : extraction_record)
| FAILED (reasons : jsstring).

Record cache_state : Type := mkCache {
  entries : jsstring -> option cache_entry;
  executions : jsstring -> nat;
  observed : list (nat * jsstring * outcome)
}.

Inductive cache_event : Type :=
| Arrive (caller : nat) (identity : jsstring)
| Complete (identity : jsstring) (o : outcome).

Definition set_at {V} (f : jsstring -> V) (k : jsstring) (v : V)
    : jsstring -> V :=
  fun k' => if str_eqb k' k then v else f k'.

Definition commit (o : outcome) : cache_entry :=
  match o with
  | Extracted r => READY r
  | ExtractionFailure e => FAILED e
  end.

(** One atomic step of [get_or_create]. *)
Definition cache_step (st : cache_state) (e : cache_event) : cache_state :=
  match e with
  | Arrive c id =>
      match entries st id with
      | Some (READY r) =>
          mkCache (entries st) (executions st)
                  (observed st ++ [(c, id, Extracted r)])
      | Some (PENDING ws) =>
          mkCache (set_at (entries st) id (Some (PENDING (ws ++ [c]))))
                  (executions st) (observed st)
      | Some (FAILED _) | None =>
          mkCache (set_at (entries st) id (Some (PENDING [c])))
                  (set_at (executions st) id (S (executions st id)))
                  (observed st)
      end
  | Complete id o =>
      match entries st id with
      | Some (PENDING ws) =>
          mkCache (set_at (entries st) id (Some (commit o)))
                  (executions st)
                  (observed st ++ map (fun c => (c, id, o)) ws)
      | _ => st
      end
  end.

Definition cache_run (tr : list cache_event) (st : cache_state)
    : cache_state :=
  fold_left cache_step tr st.

Definition empty_cache : cache_state :=
  mkCache (fun _ => None) (fun _ => 0) [].

(** The callers of [id] in a trace, in order of arrival. *)
Definition arrivals (id : jsstring) (tr : list cache_event) : list nat :=
  flat_map (fun e => match e with
                     | Arrive c id' => if str_eqb id' id then [c] else []
                     | Complete _ _ => []
                     end) tr.

(** No extraction of [id] completes in the trace. *)
Definition in_flight (id : jsstring) (tr : list cache_event) : bool :=
  forallb (fun e => match e with
                    | Complete id' _ => negb (str_eqb id' id)
                    | Arrive _ _ => true
                    end) tr.

(** What the callers of [id] have observed, in order. *)
Definition observed_for (id : jsstring) (st : cache_state)
    : list (nat * outcome) :=
  flat_map (fun x => match x with
                     | (c, id', o) => if str_eqb id' id then [(c, o)] else []
                     end) (observed st).

(** What bounds the number of steps of [split_re_fuel]. *)
Definition split_measure (acc s : jsstring) : nat :=
  2 * length s + match acc with [] => 0 | _ => 1 end.

(** ** The player frame *)

(** The [src] the frame is rendered with:
    [`https://www.youtube.com/embed/${videoId}`]. *)
Definition player_base : jsstring :=
  Eval cbv in lit "https://www.youtube.com/embed/".

(** A character of a YouTube video id: a letter, a digit, [-] or [_]. *)
Definition plain_id_char (c : jschar) : bool :=
  (is_digit c || ((65 <=? c) && (c <=? 90)) || ((97 <=? c) && (c <=? 122))
   || (c =? 45) || (c =? 95))%N.

(** What [iframe.src] reads on the frame rendered for [videoId]: the URL
    of the attribute as the browser serialises it. A [videoId] of such
    characters is a path segment that the serialiser leaves as it is.
    [None] otherwise: for an empty [videoId] no frame is rendered, and the
    serialisation of other characters (escapes, dot segments) is not
    modelled. *)
Definition iframe_src (videoId : jsstring) : option jsstring :=
  match videoId with
  | [] => None
  | _ => if forallb plain_id_char videoId then Some (player_base ++ videoId)
         else None
  end.

(** ** The notification list

    [showNotification] and [removeNotification] on the [notifications]
    cell itself. A toast is named by the [Date.now()] of its creation,
    [now] below; the callback that [setTimeout] arms for a toast that is
    not persistent is [removeNotification] of that name. *)
Module Toasts.

Record notification : Type := mkNotification {
  n_id : Z;
  n_message : jsstring;
  n_type : kind;
  n_persistent : bool
}.

(** [prev.filter(n => n.id !== id)] *)
Definition removeNotification (id : Z) (prev : list notification)
    : list notification :=
  filter (fun n => negb (n_id n =? id)%Z) prev.

(** The id returned, the new list, and the id whose removal is armed for
    four seconds later, if any. *)
Definition showNotification (now : Z) (message : jsstring) (type : kind)
    (persistent : bool) (prev : list notification)
    : Z * list notification * option Z :=
  let id := now in
  (id, prev ++ [mkNotification id message type persistent],
   if persistent then None else Some id).

End Toasts.

(** ** [askQuestion] and [handleKeyPress] *)
Module Ask.

(** A chat message; [content] and [method] are [None] when the object
    lacks the field or holds [undefined]. *)
Record message : Type := mkMessage {
  m_type : message_type;
  content : option jsstring;
  method : option jsstring
}.

(** The cells [askQuestion] reads and sets, and [videoId], which the
    Ask button reads. *)
Record state : Type := mkState {
  videoUrl : jsstring;
  videoId : jsstring;
  question : jsstring;
  messages : list message;
  loading : bool;
  error : jsstring
}.

(** The JSON object of an answer, field by field. *)
Record data : Type := mkData {
  success : bool;
  answer : option jsstring;
  method_used : option jsstring;
  d_error : option jsstring
}.

Inductive result : Type :=
| Rejected (msg : jsstring)
| Json (d : data).

Definition setLoading (v : bool) (st : state) : state :=
  mkState (videoUrl st) (videoId st) (question st) (messages st) v (error st).
Definition setError (v : jsstring) (st : state) : state :=
  mkState (videoUrl st) (videoId st) (question st) (messages st) (loading st)
          v.
Definition setQuestion (v : jsstring) (st : state) : state :=
  mkState (videoUrl st) (videoId st) v (messages st) (loading st) (error st).
Definition setVideoUrl (v : jsstring) (st : state) : state :=
  mkState v (videoId st) (question st) (messages st) (loading st) (error st).
Definition setVideoId (v : jsstring) (st : state) : state :=
  mkState (videoUrl st) v (question st) (messages st) (loading st) (error st).
Definition setMessages (v : list message) (st : state) : state :=
  mkState (videoUrl st) (videoId st) (question st) v (loading st) (error st).
(** [setMessages(prev => [...prev, m])] *)
Definition addMessage (m : message) (st : state) : state :=
  mkState (videoUrl st) (videoId st) (question st) (messages st ++ [m])
          (loading st) (error st).

Definition timestamps_please : jsstring :=
  Eval cbv in lit " Please include specific timestamps in your response using format (0:02:30) without extra words like 'around' or 'at'.".

Definition blank (s : jsstring) : bool :=
  match trim s with
  | [] => true
  | _ => false
  end.

(** The handler up to its [await]: [rendered] is the state of the render
    the closure was created in, which is what [question] and [videoUrl]
    read; [st] is the state the setters act on. The request is the one
    the handler then waits for. *)
Definition before_await (rendered st : state) : state * option request :=
  if blank (question rendered)
  then (setError (lit "Please enter a question") st, None)
  else if blank (videoUrl rendered)
  then (setError (lit "Please load a video first") st, None)
  else
    let userMessage := mkMessage UserMsg (Some (question rendered)) None in
    (addMessage userMessage (setError [] (setLoading true st)),
     Some (mkRequest SmartQuestion (videoUrl rendered)
             (Some (question rendered ++ timestamps_please)))).

(** The handler from the [await] on, run on the state of that moment:
    the [try] block, its [catch] and its [finally]. *)
Definition after_await (r : result) (st : state) : state :=
  let st' :=
    match r with
    | Json d =>
        if success d
        then addMessage (mkMessage AiMsg (answer d) (method_used d)) st
        else setError (lit "Failed: " ++ print_field (d_error d)) st
    | Rejected msg => setError (lit "Connection error: " ++ msg) st
    end in
  setQuestion [] (setLoading false st').

(** [askQuestion] with nothing else running while it waits: the state it
    leaves and the requests it sent. *)
Definition askQuestion (server : request -> result) (rendered st : state)
    : state * list request :=
  match before_await rendered st with
  | (st', Some rq) => (after_await (server rq) st', [rq])
  | (st', None) => (st', [])
  end.

Definition key_enter : jsstring := Eval cbv in lit "Enter".

(** [handleKeyPress] for the key [key] of the event. *)
Definition handleKeyPress (key : jsstring) (server : request -> result)
    (rendered st : state) : state * list request :=
  if str_eqb key key_enter && negb (loading rendered)
  then askQuestion server rendered st
  else (st, []).

(** The [disabled] attribute of the Ask button. *)
Definition ask_disabled (st : state) : bool :=
  loading st || blank (question st)
  || match videoId st with [] => true | _ => false end.

(** *** The chat box over a sequence of events

    The state of the latest render and the requests that were sent and
    have not settled. Every event is handled by the closures of the latest
    render. A key press goes through [handleKeyPress], whose
    [askQuestion] runs up to its [await]; a click reaches [askQuestion]
    only when the button is not disabled; when a request settles,
    [askQuestion] resumes on the state of that moment. [SetMessages],
    [SetVideoId] and [SetError] are what [loadVideo] and the button of
    the error banner write to these cells. *)
Record session : Type := mkSession {
  ui : state;
  in_flight : list request
}.

Inductive ui_event : Type :=
| TypeQuestion (q : jsstring)
| TypeUrl (u : jsstring)
| SetMessages (l : list message)
| SetVideoId (v : jsstring)
| SetError (e : jsstring)
| KeyPress (key : jsstring)
| ClickAsk
| Settle (r : result).

Definition begin (s : session) : session :=
  match before_await (ui s) (ui s) with
  | (st', Some rq) => mkSession st' (in_flight s ++ [rq])
  | (st', None) => mkSession st' (in_flight s)
  end.

Definition step (s : session) (e : ui_event) : session :=
  match e with
  | TypeQuestion q => mkSession (setQuestion q (ui s)) (in_flight s)
  | TypeUrl u => mkSession (setVideoUrl u (ui s)) (in_flight s)
  | SetMessages l => mkSession (setMessages l (ui s)) (in_flight s)
  | SetVideoId v => mkSession (setVideoId v (ui s)) (in_flight s)
  | SetError e => mkSession (setError e (ui s)) (in_flight s)
  | KeyPress key =>
      if str_eqb key key_enter && negb (loading (ui s)) then begin s else s
  | ClickAsk => if ask_disabled (ui s) then s else begin s
  | Settle r =>
      match in_flight s with
      | _ :: rest => mkSession (after_await r (ui s)) rest
      | [] => s
      end
  end.

Definition play (events : list ui_event) (s : session) : session :=
  fold_left step events s.

Definition is_user (m : message) : bool :=
  match m_type m with UserMsg => true | _ => false end.

Definition is_ai (m : message) : bool :=
  match m_type m with AiMsg => true | _ => false end.

(** Every answer in the list stands right after a question;
    [after_user] tells whether a question stands right before the list. *)
Fixpoint answers_follow (after_user : bool) (l : list message) : bool :=
  match l with
  | [] => true
  | m :: l' => (negb (is_ai m) || after_user) && answers_follow (is_user m) l'
  end.

(** Whether the list ends with a question. *)
Definition ends_with_question (after_user : bool) (l : list message) : bool :=
  fold_left (fun _ m => is_user m) l after_user.

(** A sequence of events in which the messages are written by
    [askQuestion] only. *)
Definition no_reload (events : list ui_event) : bool :=
  forallb (fun e => match e with SetMessages _ => false | _ => true end)
          events.

End Ask.

(** What holds between two events: at most one request is in flight,
    and the loading flag is on exactly while one is. *)
Definition flight_invariant (s : Ask.session) : Prop :=
  length (Ask.in_flight s) <= 1
  /\ (Ask.loading (Ask.ui s) = true <-> Ask.in_flight s <> []).

(** And, as long as only [askQuestion] writes the messages: every answer
    follows a question, and the question in flight is the last message. *)
Definition chat_invariant (s : Ask.session) : Prop :=
  flight_invariant s
  /\ Ask.answers_follow false (Ask.messages (Ask.ui s)) = true
  /\ (Ask.in_flight s <> [] ->
      Ask.ends_with_question false (Ask.messages (Ask.ui s)) = true).

(** * Properties *)

Example formatTime_150 : formatTime 150 = lit "0:02:30".
Proof. reflexivity. Qed.

Example formatTime_3725 : formatTime 3725 = lit "1:02:05".
Proof. reflexivity. Qed.

Example parseTime_hms : parseTimeToSeconds (lit "1:02:05") = Int 3725.
Proof. reflexivity. Qed.

Example parseTime_ms : parseTimeToSeconds (lit "2:30") = Int 150.
Proof. reflexivity. Qed.

Example parseTime_one_part : parseTimeToSeconds (lit "42") = Int 0.
Proof. reflexivity. Qed.

Example getVideoId_watch :
  getVideoId (lit "https://www.youtube.com/watch?v=dQw4w9WgXcQ&t=10s")
  = Some (lit "dQw4w9WgXcQ").
Proof. reflexivity. Qed.

Example getVideoId_none : getVideoId (lit "https://example.com/") = None.
Proof. reflexivity. Qed.

Example newTimestamps_two :
  map seconds (newTimestamps (lit "0:02:00 - **B**" ++ newline :: lit "junk" ++ newline :: lit "0:01:00 - A"))
  = [Int 120; Int 60].
Proof. reflexivity. Qed.

(** ** Decimal numerals *)

Lemma is_digit_not_space c : is_digit c = true -> is_space c = false.
Proof.
  unfold is_digit, is_space, is_line_terminator. intros H.
  apply andb_true_iff in H as [H1 H2].
  apply N.leb_le in H1. apply N.leb_le in H2.
  repeat rewrite orb_false_iff.
  repeat split; try (apply N.eqb_neq; lia).
  apply andb_false_iff. left. apply N.leb_gt. lia.
Qed.

Lemma is_digit_not_colon c : is_digit c = true -> (c =? colon)%N = false.
Proof.
  unfold is_digit, colon. intros H.
  apply andb_true_iff in H as [_ H2]. apply N.leb_le in H2.
  apply N.eqb_neq. lia.
Qed.

Lemma dropWhile_head_false p c s : p c = false -> dropWhile p (c :: s) = c :: s.
Proof. intros H. simpl. now rewrite H. Qed.

Lemma dropWhile_digits s :
  forallb is_digit s = true -> dropWhile is_space s = s.
Proof.
  destruct s as [|c s]; [reflexivity|]. simpl. intros H.
  apply andb_true_iff in H as [H _].
  now rewrite (is_digit_not_space _ H).
Qed.

Lemma forallb_rev (p : jschar -> bool) s : forallb p (rev s) = forallb p s.
Proof.
  induction s as [|c s IH]; [reflexivity|].
  simpl. rewrite forallb_app, IH. simpl. rewrite andb_true_r. apply andb_comm.
Qed.

Lemma trim_digits s : forallb is_digit s = true -> trim s = s.
Proof.
  intros H. unfold trim. rewrite (dropWhile_digits _ H).
  rewrite dropWhile_digits by now rewrite forallb_rev.
  apply rev_involutive.
Qed.

Lemma digits_of_value fuel : forall n acc,
  (n < 2 ^ N.of_nat fuel)%N ->
  fold_left dec_step (digits_of fuel n acc) 0%N = fold_left dec_step acc n.
Proof.
  induction fuel as [|f IH]; intros n acc Hn.
  - simpl in *. assert (n = 0%N) by lia. now subst.
  - cbn [digits_of]. destruct (n <? 10)%N eqn:E.
    + apply N.ltb_lt in E. cbn [fold_left]. f_equal.
      unfold dec_step, digit_val. rewrite N.mod_small by lia.
      lia.
    + apply N.ltb_ge in E. rewrite IH.
      * cbn [fold_left]. f_equal. unfold dec_step, digit_val.
        pose proof (N.div_mod n 10 ltac:(lia)) as H.
        revert H. generalize (n / 10)%N (n mod 10)%N. intros q r H. lia.
      * rewrite Nat2N.inj_succ, N.pow_succ_r' in Hn.
        apply N.Div0.div_lt_upper_bound. lia.
Qed.

Lemma digits_of_digits fuel : forall n acc,
  forallb is_digit acc = true -> forallb is_digit (digits_of fuel n acc) = true.
Proof.
  induction fuel as [|f IH]; intros n acc Hacc; [assumption|].
  cbn [digits_of].
  assert (Hd : is_digit (48 + n mod 10)%N = true).
  { unfold is_digit. pose proof (N.mod_upper_bound n 10 ltac:(lia)) as H.
    revert H. generalize (n mod 10)%N. intros r H.
    apply andb_true_iff. split; apply N.leb_le; lia. }
  destruct (n <? 10)%N.
  - cbn [forallb]. now rewrite Hd.
  - apply IH. cbn [forallb]. now rewrite Hd.
Qed.

Lemma digits_of_cons fuel : forall n acc,
  acc <> [] -> digits_of fuel n acc <> [].
Proof.
  induction fuel as [|f IH]; intros n acc Hacc; [assumption|].
  cbn [digits_of]. destruct (n <? 10)%N; [discriminate|].
  apply IH. discriminate.
Qed.

Lemma nat_digits_digits n : forallb is_digit (nat_digits n) = true.
Proof. apply digits_of_digits. reflexivity. Qed.

Lemma nat_digits_nonempty n : nat_digits n <> [].
Proof.
  unfold nat_digits. cbn [digits_of].
  destruct (n <? 10)%N; [discriminate|]. apply digits_of_cons. discriminate.
Qed.

Lemma nat_digits_value n : digits_value (nat_digits n) = n.
Proof.
  unfold digits_value, nat_digits.
  change (fun acc c => (10 * acc + digit_val c)%N) with dec_step.
  rewrite digits_of_value; [reflexivity|].
  rewrite Nat2N.inj_succ, N2Nat.id.
  destruct n as [|p]; [reflexivity|].
  apply N.log2_spec. lia.
Qed.

Lemma digits_value_zeros k s :
  digits_value (repeat 48%N k ++ s) = digits_value s.
Proof.
  unfold digits_value. rewrite fold_left_app. f_equal.
  induction k as [|k IH]; [reflexivity|]. simpl. exact IH.
Qed.

(** ** Rounding to a double *)

Lemma MAX_SAFE_INTEGER_eq : MAX_SAFE_INTEGER = 9007199254740991%Z.
Proof. reflexivity. Qed.

(** Safe integers are doubles. *)
Lemma round53_small z : (Z.abs z <= MAX_SAFE_INTEGER)%Z -> round53 z = z.
Proof.
  intros H. rewrite MAX_SAFE_INTEGER_eq in H. unfold round53.
  assert (Hl : (Z.log2 (Z.abs z) < 53)%Z).
  { destruct (Z.eq_dec (Z.abs z) 0) as [E|E]; [rewrite E; cbn; lia|].
    apply Z.log2_lt_pow2; [lia|].
    change (2 ^ 53)%Z with 9007199254740992%Z. lia. }
  destruct (Z.leb_spec (Z.log2 (Z.abs z) - 52) 0); [reflexivity | lia].
Qed.

Lemma to_double_small z :
  (Z.abs z <= MAX_SAFE_INTEGER)%Z -> to_double z = Int z.
Proof.
  intros H. unfold to_double. rewrite round53_small by exact H.
  rewrite MAX_SAFE_INTEGER_eq in H.
  change (10 ^ 21)%Z with 1000000000000000000000%Z.
  destruct (Z.ltb_spec (Z.abs z) 1000000000000000000000); [reflexivity | lia].
Qed.

Lemma decimal_small t :
  (Z.of_N (digits_value t) <= MAX_SAFE_INTEGER)%Z ->
  decimal t = Int (Z.of_N (digits_value t)).
Proof.
  intros H. unfold decimal. cbv zeta.
  rewrite to_double_small by lia. rewrite MAX_SAFE_INTEGER_eq in H.
  change (10 ^ 20)%Z with 100000000000000000000%Z.
  destruct (Z.ltb_spec (Z.of_N (digits_value t)) 100000000000000000000);
    [reflexivity | lia].
Qed.

(** One or two digits stand for a number below 100. *)
Lemma digits_value_two s :
  forallb is_digit s = true -> length s <= 2 -> (digits_value s < 100)%N.
Proof.
  intros Hd Hl. destruct s as [|a [|b [|c s]]]; cbn [length] in Hl; try lia;
    cbn [forallb] in Hd; unfold digits_value, digit_val; cbn [fold_left].
  - lia.
  - rewrite andb_true_r in Hd. unfold is_digit in Hd.
    apply andb_prop in Hd as [H1 H2].
    apply N.leb_le in H1, H2. lia.
  - rewrite andb_true_r in Hd. apply andb_prop in Hd as [Ha Hb].
    unfold is_digit in Ha, Hb.
    apply andb_prop in Ha as [H1 H2]. apply andb_prop in Hb as [H3 H4].
    apply N.leb_le in H1, H2, H3, H4. lia.
Qed.

(** Sums and products of small hours, minutes and seconds are exact. *)
Lemma hms_exact h m s :
  (0 <= h)%Z -> (0 <= m)%Z -> (0 <= s)%Z ->
  (h * 3600 + m * 60 + s <= MAX_SAFE_INTEGER)%Z ->
  num_add (num_add (num_mul (Int h) (Int 3600)) (num_mul (Int m) (Int 60)))
          (Int s)
  = Int (h * 3600 + m * 60 + s).
Proof.
  intros Hh Hm Hs H. cbn [num_mul].
  rewrite !to_double_small by lia. cbn [num_add].
  rewrite to_double_small by lia. cbn [num_add].
  now rewrite to_double_small by lia.
Qed.

Lemma ms_exact m s :
  (0 <= m)%Z -> (0 <= s)%Z -> (m * 60 + s <= MAX_SAFE_INTEGER)%Z ->
  num_add (num_mul (Int m) (Int 60)) (Int s) = Int (m * 60 + s).
Proof.
  intros Hm Hs H. cbn [num_mul].
  rewrite to_double_small by lia. cbn [num_add].
  now rewrite to_double_small by lia.
Qed.

(** Below 2^53 the rounding of the quotient never reaches the next
    integer, so [Math.floor(a / b)] is the integer quotient. *)
Lemma round_half_even_floor a b k :
  (0 <= a)%Z -> (0 < b)%Z -> (0 <= k)%Z -> (b < 2 ^ (k + 1))%Z ->
  (round_half_even (a * 2 ^ k) b / 2 ^ k = a / b)%Z.
Proof.
  intros Ha Hb Hk Hbk.
  assert (HP : (0 < 2 ^ k)%Z) by (apply Z.pow_pos_nonneg; lia).
  rewrite Z.pow_add_r, Z.pow_1_r in Hbk by lia.
  set (P := (2 ^ k)%Z) in *.
  pose proof (Z.div_mod a b ltac:(lia)) as Ea.
  pose proof (Z.mod_pos_bound a b Hb) as Ht.
  pose proof (Z.div_mod (a * P) b ltac:(lia)) as Ex.
  pose proof (Z.mod_pos_bound (a * P) b Hb) as Hr.
  unfold round_half_even.
  set (q := (a / b)%Z) in *. set (t := (a mod b)%Z) in *.
  set (m := (a * P / b)%Z) in *. set (r := ((a * P) mod b)%Z) in *.
  assert (Hlow : (q * P <= m)%Z) by nia.
  assert (Hup : (m < (q + 1) * P)%Z) by nia.
  assert (Hup2 : (b <= 2 * r -> m + 1 < (q + 1) * P)%Z) by nia.
  symmetry.
  destruct (Z.ltb_spec (2 * r) b); [|destruct (Z.ltb_spec b (2 * r));
    [|destruct (Z.even m)]].
  - apply Z.div_unique with (r := (m - q * P)%Z); lia.
  - apply Z.div_unique with (r := (m + 1 - q * P)%Z); lia.
  - apply Z.div_unique with (r := (m - q * P)%Z); lia.
  - apply Z.div_unique with (r := (m + 1 - q * P)%Z); lia.
Qed.

Lemma floor_quotient_exact a b :
  (0 <= a <= MAX_SAFE_INTEGER)%Z -> (0 < b <= MAX_SAFE_INTEGER)%Z ->
  floor_quotient a b = (a / b)%Z.
Proof.
  intros [Ha Ha'] [Hb Hb']. rewrite MAX_SAFE_INTEGER_eq in *.
  unfold floor_quotient. rewrite (Z.abs_eq a) by exact Ha.
  destruct (Z.eq_dec a 0) as [->|Hne]; [reflexivity|].
  rewrite (Z.sgn_pos a), Z.mul_1_l by lia.
  pose proof (Z.div_mod a b ltac:(lia)) as Ea.
  pose proof (Z.mod_pos_bound a b Hb) as Ht.
  assert (Hq : (0 <= a / b)%Z) by (apply Z.div_pos; lia).
  destruct (Z.eqb_spec (a / b) 0) as [E|E].
  - cbn [Z.leb]. apply round_half_even_floor; lia.
  - pose proof (Z.log2_spec (a / b) ltac:(lia)) as [Hl1 Hl2].
    pose proof (Z.log2_nonneg (a / b)) as Hl0.
    assert (Hl : (Z.log2 (a / b) < 53)%Z).
    { apply Z.log2_lt_pow2; [lia|].
      change (2 ^ 53)%Z with 9007199254740992%Z. nia. }
    destruct (Z.leb_spec 0 (52 - Z.log2 (a / b))); [|lia].
    apply round_half_even_floor; try lia.
    replace (52 - Z.log2 (a / b) + 1)%Z with (53 - Z.log2 (a / b))%Z by lia.
    assert (Hpow : (2 ^ Z.log2 (a / b) * 2 ^ (53 - Z.log2 (a / b))
                    = 9007199254740992)%Z).
    { rewrite <- Z.pow_add_r by lia.
      replace (Z.log2 (a / b) + (53 - Z.log2 (a / b)))%Z with 53%Z by lia.
      reflexivity. }
    assert (Hp1 : (0 < 2 ^ Z.log2 (a / b))%Z)
      by (apply Z.pow_pos_nonneg; lia).
    assert (Hp2 : (0 < 2 ^ (53 - Z.log2 (a / b)))%Z)
      by (apply Z.pow_pos_nonneg; lia).
    nia.
Qed.

Lemma Number_digits s :
  s <> [] -> forallb is_digit s = true ->
  (Z.of_N (digits_value s) <= MAX_SAFE_INTEGER)%Z ->
  Number s = Int (Z.of_N (digits_value s)).
Proof.
  intros Hne Hd Hv. unfold Number. rewrite (trim_digits _ Hd).
  destruct s; [contradiction|]. rewrite Hd. now apply decimal_small.
Qed.

Lemma padStart0_digits k s :
  forallb is_digit s = true -> forallb is_digit (padStart0 k s) = true.
Proof.
  intros H. unfold padStart0. rewrite forallb_app.
  apply andb_true_iff. split; [|exact H].
  induction (k - length s) as [|m IH]; [reflexivity|]. exact IH.
Qed.

Lemma digits_value_padded k n :
  digits_value (padStart0 k (nat_digits n)) = n.
Proof.
  unfold padStart0. rewrite digits_value_zeros. apply nat_digits_value.
Qed.

Lemma Number_padded k n :
  (Z.of_N n <= MAX_SAFE_INTEGER)%Z ->
  Number (padStart0 k (nat_digits n)) = Int (Z.of_N n).
Proof.
  intros Hn. rewrite Number_digits.
  - now rewrite digits_value_padded.
  - unfold padStart0. intros H. apply app_eq_nil in H as [_ H].
    now apply nat_digits_nonempty in H.
  - apply padStart0_digits, nat_digits_digits.
  - now rewrite digits_value_padded.
Qed.

Lemma Number_nat_digits n :
  (Z.of_N n <= MAX_SAFE_INTEGER)%Z -> Number (nat_digits n) = Int (Z.of_N n).
Proof.
  intros Hn. rewrite Number_digits.
  - now rewrite nat_digits_value.
  - apply nat_digits_nonempty.
  - apply nat_digits_digits.
  - now rewrite nat_digits_value.
Qed.

(** ** Splitting on a separator *)

Lemma split_on_nonempty sep s : split_on sep s <> [].
Proof.
  destruct s as [|c s]; simpl; [discriminate|].
  destruct (c =? sep)%N; [discriminate|].
  destruct (split_on sep s); discriminate.
Qed.

Lemma split_on_free sep s :
  forallb (fun c => negb (c =? sep)%N) s = true -> split_on sep s = [s].
Proof.
  induction s as [|c s IH]; [reflexivity|]. simpl. intros H.
  apply andb_true_iff in H as [H1 H2].
  apply negb_true_iff in H1. rewrite H1, (IH H2). reflexivity.
Qed.

Lemma split_on_app sep a b :
  forallb (fun c => negb (c =? sep)%N) a = true ->
  split_on sep (a ++ sep :: b) = a :: split_on sep b.
Proof.
  induction a as [|c a IH]; simpl; intros H.
  - now rewrite N.eqb_refl.
  - apply andb_true_iff in H as [H1 H2].
    apply negb_true_iff in H1. rewrite H1, (IH H2). reflexivity.
Qed.

Lemma digits_colon_free s :
  forallb is_digit s = true ->
  forallb (fun c => negb (c =? colon)%N) s = true.
Proof.
  intros H. rewrite forallb_forall in *. intros c Hc.
  now rewrite (is_digit_not_colon _ (H c Hc)).
Qed.

(** Three runs of digits separated by colons parse as hours, minutes and
    seconds. *)
Lemma parseTime_hms_digits h m s :
  h <> [] -> m <> [] -> s <> [] ->
  forallb is_digit h = true -> forallb is_digit m = true ->
  forallb is_digit s = true ->
  (Z.of_N (digits_value h) * 3600 + Z.of_N (digits_value m) * 60
   + Z.of_N (digits_value s) <= MAX_SAFE_INTEGER)%Z ->
  parseTimeToSeconds (h ++ colon :: m ++ colon :: s)
  = Int (Z.of_N (digits_value h) * 3600 + Z.of_N (digits_value m) * 60
         + Z.of_N (digits_value s)).
Proof.
  intros Hh Hm Hs Dh Dm Ds Hv. unfold parseTimeToSeconds.
  rewrite split_on_app by now apply digits_colon_free.
  rewrite split_on_app by now apply digits_colon_free.
  rewrite split_on_free by now apply digits_colon_free.
  simpl map. rewrite !Number_digits by (assumption || lia).
  apply hms_exact; lia.
Qed.

Lemma hms_recompose s :
  (0 <= s)%Z ->
  (s / 3600 * 3600 + s mod 3600 / 60 * 60 + s mod 60)%Z = s.
Proof.
  intros Hs.
  pose proof (Z.div_mod s 3600 ltac:(lia)) as H0.
  pose proof (Z.div_mod (s mod 3600) 60 ltac:(lia)) as H1.
  pose proof (Z.div_mod s 60 ltac:(lia)) as H2.
  pose proof (Z.mod_pos_bound s 60 ltac:(lia)) as H3.
  pose proof (Z.mod_pos_bound (s mod 3600) 60 ltac:(lia)) as H4.
  revert H0 H1 H2 H3 H4.
  generalize (s / 3600)%Z ((s mod 3600) / 60)%Z ((s mod 3600) mod 60)%Z
    (s mod 60)%Z (s / 60)%Z (s mod 3600)%Z.
  intros. lia.
Qed.

(** ** What [formatTime] prints *)

Lemma nat_digits_lt10 n : (n < 10)%N -> nat_digits n = [(48 + n)%N].
Proof.
  intros H. unfold nat_digits. cbn [digits_of].
  apply N.ltb_lt in H as Hb. rewrite Hb.
  rewrite N.mod_small by exact H. reflexivity.
Qed.

Lemma nat_digits_lt100 n :
  (10 <= n < 100)%N -> nat_digits n = [(48 + n / 10)%N; (48 + n mod 10)%N].
Proof.
  intros [Hlo Hhi]. unfold nat_digits.
  assert (Hlog : (3 <= N.log2 n)%N).
  { change 3%N with (N.log2 8). apply N.log2_le_mono. lia. }
  destruct (N.to_nat (N.log2 n)) as [|f] eqn:E; [lia|].
  cbn [digits_of].
  assert (Hb : (n <? 10)%N = false) by (apply N.ltb_ge; exact Hlo).
  rewrite Hb.
  assert (Hq : (n / 10 < 10)%N) by (apply N.Div0.div_lt_upper_bound; lia).
  apply N.ltb_lt in Hq as Hqb. rewrite Hqb.
  rewrite (N.mod_small (n / 10) 10) by exact Hq. reflexivity.
Qed.

Lemma nat_digits_length n :
  (n < 100)%N -> 1 <= length (nat_digits n) <= 2.
Proof.
  intros H. destruct (N.ltb_spec n 10) as [Hs|Hs].
  - rewrite nat_digits_lt10 by exact Hs. cbn. lia.
  - rewrite nat_digits_lt100 by lia. cbn. lia.
Qed.

Lemma two_digits n :
  (n < 100)%N -> length (padStart0 2 (nat_digits n)) = 2.
Proof.
  intros H. unfold padStart0. destruct (N.ltb_spec n 10) as [Hs|Hs].
  - rewrite nat_digits_lt10 by exact Hs. reflexivity.
  - rewrite nat_digits_lt100 by lia. reflexivity.
Qed.

(** The first digit of a number other than 0 is not a zero. *)
Lemma digits_of_leading fuel : forall n acc,
  (1 <= n < 2 ^ N.of_nat fuel)%N ->
  exists c u, digits_of fuel n acc = c :: u /\ c <> 48%N.
Proof.
  induction fuel as [|f IH]; intros n acc [Hlo Hhi].
  - cbn in Hhi. lia.
  - cbn [digits_of]. destruct (N.ltb_spec n 10) as [Hs|Hs].
    + exists (48 + n mod 10)%N, acc. split; [reflexivity|].
      rewrite N.mod_small by exact Hs. lia.
    + apply IH. rewrite Nat2N.inj_succ, N.pow_succ_r' in Hhi.
      pose proof (N.Div0.div_lt_upper_bound n 10 (2 ^ N.of_nat f)) as Hd.
      pose proof (N.div_le_lower_bound n 10 1 ltac:(lia)) as Hl.
      split; [apply Hl; lia | apply Hd; lia].
Qed.

Lemma nat_digits_leading n :
  nat_digits n = [48%N]
  \/ exists c u, nat_digits n = c :: u /\ c <> 48%N.
Proof.
  destruct (N.eq_dec n 0) as [->|Hne]; [now left|]. right.
  unfold nat_digits. apply digits_of_leading. split; [lia|].
  rewrite Nat2N.inj_succ, N2Nat.id.
  apply N.log2_spec. lia.
Qed.

Lemma toString_nonneg z : (0 <= z)%Z -> toString z = nat_digits (Z.to_N z).
Proof.
  intros H. unfold toString.
  destruct (Z.ltb_spec z 0) as [Hn|Hn]; [lia | reflexivity].
Qed.

Lemma minutes_bound s : (0 <= s)%Z -> (0 <= s mod 3600 / 60 < 60)%Z.
Proof.
  intros H. pose proof (Z.mod_pos_bound s 3600 ltac:(lia)) as Hm.
  split; [apply Z.div_pos; lia | apply Z.div_lt_upper_bound; lia].
Qed.

(** The three fields [formatTime] prints for a safe integer. *)
Lemma formatTime_fields s :
  (0 <= s <= MAX_SAFE_INTEGER)%Z ->
  formatTime s
  = label (nat_digits (Z.to_N (s / 3600)))
          (padStart0 2 (nat_digits (Z.to_N (s mod 3600 / 60))))
          (padStart0 2 (nat_digits (Z.to_N (s mod 60)))).
Proof.
  intros [H H']. unfold formatTime, label.
  rewrite !Z.rem_mod_nonneg by lia.
  pose proof (Z.mod_pos_bound s 3600 ltac:(lia)) as Hb.
  rewrite (floor_quotient_exact s 3600)
    by (rewrite MAX_SAFE_INTEGER_eq in *; lia).
  rewrite (floor_quotient_exact (s mod 3600) 60)
    by (rewrite MAX_SAFE_INTEGER_eq in *; lia).
  assert (H1 : (0 <= s / 3600)%Z) by (apply Z.div_pos; lia).
  assert (H2 : (0 <= s mod 3600 / 60)%Z) by (apply Z.div_pos; lia).
  assert (H3 : (0 <= s mod 60)%Z) by (apply Z.mod_pos_bound; lia).
  rewrite !toString_nonneg by assumption. reflexivity.
Qed.

Lemma formatTime_time_shape s :
  (0 <= s < 360000)%Z ->
  time_shape (nat_digits (Z.to_N (s / 3600)))
             (padStart0 2 (nat_digits (Z.to_N (s mod 3600 / 60))))
             (padStart0 2 (nat_digits (Z.to_N (s mod 60)))).
Proof.
  intros [H0 H1].
  assert (Hh : (0 <= s / 3600 < 100)%Z).
  { split; [apply Z.div_pos; lia | apply Z.div_lt_upper_bound; lia]. }
  pose proof (minutes_bound s H0) as Hm.
  pose proof (Z.mod_pos_bound s 60 ltac:(lia)) as Hs.
  unfold time_shape. split; [apply nat_digits_digits|].
  split; [apply nat_digits_length; lia|].
  split; [apply padStart0_digits, nat_digits_digits|].
  split; [apply two_digits; lia|].
  split; [apply padStart0_digits, nat_digits_digits|].
  apply two_digits; lia.
Qed.

Lemma formatTime_value s :
  (0 <= s)%Z ->
  (Z.of_N (Z.to_N (s / 3600)) * 3600
   + Z.of_N (Z.to_N (s mod 3600 / 60)) * 60
   + Z.of_N (Z.to_N (s mod 60)))%Z = s.
Proof.
  intros H.
  pose proof (minutes_bound s H) as Hm.
  pose proof (Z.mod_pos_bound s 60 ltac:(lia)) as Hs.
  assert (Hh : (0 <= s / 3600)%Z) by (apply Z.div_pos; lia).
  rewrite !Z2N.id by lia. apply hms_recompose. exact H.
Qed.

(** C9 as stated fails above the safe integers: the double
    38652920899387528 is printed exactly, but reading it back adds
    300 and then 28 to 38652920899387200, and both sums are rounded, to
    the even neighbour each time. *)
Lemma roundtrip_counterexample :
  let s := 38652920899387528%Z in
  (0 <= s)%Z /\ round53 s = s
  /\ formatTime s = lit "10736922472052:05:28"
  /\ parseTimeToSeconds (formatTime s) = Int 38652920899387536
  /\ parseTimeToSeconds (formatTime s) <> Int s.
Proof.
  cbv zeta. split; [lia|]. split; [reflexivity|].
  split; [vm_compute; reflexivity|].
  assert (E : parseTimeToSeconds (formatTime 38652920899387528)
              = Int 38652920899387536) by (vm_compute; reflexivity).
  split; [exact E|]. rewrite E. discriminate.
Qed.

(** C9, amended. For every integer from 0 to 2^53 - 1, [formatTime] prints
    [H:MM:SS], the hours without padding and the minutes and seconds as
    two digits each, and [parseTimeToSeconds] reads the number back from
    it. *)
Theorem parse_format_roundtrip (s : Z) :
  (0 <= s <= MAX_SAFE_INTEGER)%Z ->
  (exists h mm ss,
     formatTime s = h ++ colon :: mm ++ colon :: ss
     /\ forallb is_digit h = true /\ forallb is_digit mm = true
     /\ forallb is_digit ss = true
     /\ (h = [48%N] \/ exists c u, h = c :: u /\ c <> 48%N)
     /\ length mm = 2 /\ length ss = 2
     /\ Z.of_N (digits_value h) = (s / 3600)%Z
     /\ Z.of_N (digits_value mm) = (s mod 3600 / 60)%Z
     /\ Z.of_N (digits_value ss) = (s mod 60)%Z)
  /\ parseTimeToSeconds (formatTime s) = Int s.
Proof.
  intros Hs. pose proof Hs as [Hs0 Hs1].
  pose proof (minutes_bound s Hs0) as Hm.
  pose proof (Z.mod_pos_bound s 60 ltac:(lia)) as Hc.
  assert (Hh : (0 <= s / 3600)%Z) by (apply Z.div_pos; lia).
  rewrite formatTime_fields by exact Hs. unfold label. split.
  - exists (nat_digits (Z.to_N (s / 3600))),
           (padStart0 2 (nat_digits (Z.to_N (s mod 3600 / 60)))),
           (padStart0 2 (nat_digits (Z.to_N (s mod 60)))).
    split; [reflexivity|].
    split; [apply nat_digits_digits|].
    split; [apply padStart0_digits, nat_digits_digits|].
    split; [apply padStart0_digits, nat_digits_digits|].
    split; [apply nat_digits_leading|].
    split; [apply two_digits; lia|]. split; [apply two_digits; lia|].
    rewrite nat_digits_value, !digits_value_padded, !Z2N.id by lia.
    repeat split.
  - pose proof (formatTime_value s Hs0) as Hv.
    rewrite parseTime_hms_digits.
    + rewrite nat_digits_value, !digits_value_padded. now rewrite Hv.
    + apply nat_digits_nonempty.
    + unfold padStart0. intros H. apply app_eq_nil in H as [_ H].
      now apply nat_digits_nonempty in H.
    + unfold padStart0. intros H. apply app_eq_nil in H as [_ H].
      now apply nat_digits_nonempty in H.
    + apply nat_digits_digits.
    + apply padStart0_digits, nat_digits_digits.
    + apply padStart0_digits, nat_digits_digits.
    + rewrite nat_digits_value, !digits_value_padded, Hv. exact Hs1.
Qed.

Lemma parse_format_roundtrip_witness :
  (exists h mm ss,
     formatTime 3725 = h ++ colon :: mm ++ colon :: ss
     /\ forallb is_digit h = true /\ forallb is_digit mm = true
     /\ forallb is_digit ss = true
     /\ (h = [48%N] \/ exists c u, h = c :: u /\ c <> 48%N)
     /\ length mm = 2 /\ length ss = 2
     /\ Z.of_N (digits_value h) = (3725 / 3600)%Z
     /\ Z.of_N (digits_value mm) = (3725 mod 3600 / 60)%Z
     /\ Z.of_N (digits_value ss) = (3725 mod 60)%Z)
  /\ parseTimeToSeconds (formatTime 3725) = Int 3725.
Proof.
  apply (parse_format_roundtrip 3725). unfold MAX_SAFE_INTEGER. lia.
Defined.

(** ** The matcher on literals and on greedy runs *)

Lemma exec_rlit {A} l : forall s caps (k : jsstring -> captures -> option A),
  exec (rlit l) s caps k
  = match strip_prefix l s with
    | Some s' => k s' caps
    | None => None
    end.
Proof.
  induction l as [|a l IH]; intros s caps k; [reflexivity|].
  cbn [rlit exec strip_prefix]. destruct s as [|c s]; [reflexivity|].
  destruct (a =? c)%N; [apply IH|reflexivity].
Qed.

(** A greedy unbounded run followed by a pattern that cannot fail stops
    where the class stops. *)
Lemma rep_total {A} p (f : jsstring -> A) : forall s lo,
  rep p lo None s (fun s' => Some (f s'))
  = if lo <=? length (takeWhile p s) then Some (f (dropWhile p s)) else None.
Proof.
  induction s as [|c s IH]; intros lo.
  - cbn. destruct lo; reflexivity.
  - cbn [rep takeWhile dropWhile option_map]. destruct (p c) eqn:Hp.
    + rewrite IH. cbn [length].
      destruct lo as [|lo]; cbn [pred]; [reflexivity|].
      destruct lo as [|lo].
      * reflexivity.
      * change (S (S lo) <=? S (length (takeWhile p s)))
          with (S lo <=? length (takeWhile p s)).
        destruct (S lo <=? length (takeWhile p s)); reflexivity.
    + destruct lo; reflexivity.
Qed.

Lemma take_drop_while p s : takeWhile p s ++ dropWhile p s = s.
Proof.
  induction s as [|c s IH]; [reflexivity|].
  simpl. destruct (p c); [simpl; now rewrite IH|reflexivity].
Qed.

Lemma consumed_app a b : consumed (a ++ b) b = a.
Proof.
  unfold consumed. rewrite length_app, Nat.add_sub.
  rewrite firstn_app, Nat.sub_diag, firstn_all. simpl. apply app_nil_r.
Qed.

Lemma consumed_dropWhile p s : consumed s (dropWhile p s) = takeWhile p s.
Proof.
  rewrite <- (take_drop_while p s) at 1. apply consumed_app.
Qed.

Lemma takeWhile_all p s : forallb p s = true -> takeWhile p s = s.
Proof.
  induction s as [|c s IH]; [reflexivity|]. simpl. intros H.
  apply andb_true_iff in H as [H1 H2]. now rewrite H1, IH.
Qed.

(** ** [getVideoId] *)

Lemma match_at_id_pattern prefix s :
  option_map (fun m => get_cap 1 (fst m)) (match_at (id_pattern prefix) s)
  = id_at prefix s.
Proof.
  unfold match_at, id_pattern, id_at. cbn [exec]. rewrite exec_rlit.
  destruct (strip_prefix prefix s) as [s'|]; [|reflexivity].
  rewrite (rep_total not_delim
             (fun s'0 => (set_cap 0 (consumed s s'0)
                            (set_cap 1 (consumed s' s'0) []), s'0))).
  rewrite <- (consumed_dropWhile not_delim s').
  destruct (takeWhile not_delim s') as [|c t] eqn:E.
  - rewrite consumed_dropWhile, E. reflexivity.
  - rewrite consumed_dropWhile, E. reflexivity.
Qed.

Lemma search_id_pattern prefix : forall s,
  option_map (fun m => get_cap 1 (snd (fst m))) (search (id_pattern prefix) s)
  = find_id prefix s.
Proof.
  induction s as [|c s IH].
  - cbn [search find_id]. rewrite <- match_at_id_pattern.
    destruct (match_at (id_pattern prefix) []) as [[caps rest]|]; reflexivity.
  - cbn [search find_id]. rewrite <- match_at_id_pattern.
    destruct (match_at (id_pattern prefix) (c :: s)) as [[caps rest]|];
      [reflexivity|].
    cbn [option_map]. rewrite <- IH.
    destruct (search (id_pattern prefix) s) as [[[pre caps] rest]|]; reflexivity.
Qed.

Lemma str_match_id_pattern prefix s :
  option_map (get_cap 1) (str_match (id_pattern prefix) s) = find_id prefix s.
Proof.
  unfold str_match. rewrite <- search_id_pattern.
  destruct (search (id_pattern prefix) s) as [[[pre caps] rest]|]; reflexivity.
Qed.

(** [getVideoId] tries the three prefixes in order. *)
Lemma getVideoId_find url :
  getVideoId url
  = match find_id watch_prefix url with
    | Some v => Some v
    | None =>
        match find_id short_prefix url with
        | Some v => Some v
        | None => find_id embed_prefix url
        end
    end.
Proof.
  unfold getVideoId, patterns. cbn [first_capture].
  rewrite <- !str_match_id_pattern.
  destruct (str_match (id_pattern watch_prefix) url); [reflexivity|].
  destruct (str_match (id_pattern short_prefix) url); [reflexivity|].
  destruct (str_match (id_pattern embed_prefix) url); reflexivity.
Qed.

Lemma strip_prefix_app l s : strip_prefix l (l ++ s) = Some s.
Proof.
  induction l as [|a l IH]; [reflexivity|].
  simpl. now rewrite N.eqb_refl.
Qed.

Lemma strip_prefix_inv l : forall s s',
  strip_prefix l s = Some s' -> s = l ++ s'.
Proof.
  induction l as [|a l IH]; intros s s' H.
  - simpl in H. now injection H as ->.
  - destruct s as [|c s]; [discriminate|]. simpl in H.
    destruct (N.eqb_spec a c) as [->|]; [|discriminate].
    simpl. f_equal. now apply IH.
Qed.

Lemma lacks_app x a b : lacks x (a ++ b) = lacks x a && lacks x b.
Proof. apply forallb_app. Qed.

Lemma lacks_not_In x s : lacks x s = true -> ~ In x s.
Proof.
  unfold lacks. rewrite forallb_forall. intros H Hin.
  specialize (H x Hin). now rewrite N.eqb_refl in H.
Qed.

Lemma find_id_cons prefix c s :
  find_id prefix (c :: s)
  = match id_at prefix (c :: s) with
    | Some t => Some t
    | None => find_id prefix s
    end.
Proof. reflexivity. Qed.

(** A prefix with a character that [s] lacks is found nowhere in [s]. *)
Lemma find_id_lacks prefix x : In x prefix -> forall s,
  lacks x s = true -> find_id prefix s = None.
Proof.
  intros Hx. induction s as [|c s IH]; intros Hs.
  - cbn [find_id]. unfold id_at.
    destruct (strip_prefix prefix []) as [s'|] eqn:E; [|reflexivity].
    apply strip_prefix_inv in E. symmetry in E.
    apply app_eq_nil in E as [-> _]. contradiction.
  - cbn [find_id]. unfold id_at.
    destruct (strip_prefix prefix (c :: s)) as [s'|] eqn:E.
    + apply strip_prefix_inv in E. exfalso.
      apply (lacks_not_In _ _ Hs). rewrite E. apply in_or_app. now left.
    + apply IH. simpl in Hs. now apply andb_true_iff in Hs as [_ Hs].
Qed.

(** Characters other than the first one of the prefix are skipped. *)
Lemma find_id_skip a l s : forall pre,
  lacks a pre = true -> find_id (a :: l) (pre ++ s) = find_id (a :: l) s.
Proof.
  induction pre as [|c pre IH]; intros H; [reflexivity|].
  simpl in H. apply andb_true_iff in H as [H1 H2].
  apply negb_true_iff in H1.
  change ((c :: pre) ++ s) with (c :: pre ++ s). rewrite find_id_cons.
  unfold id_at. cbn [strip_prefix].
  rewrite N.eqb_sym, H1. now apply IH.
Qed.

Lemma id_char_not_delim v :
  forallb id_char v = true -> forallb not_delim v = true.
Proof.
  intros H. rewrite forallb_forall in *. intros c Hc.
  specialize (H c Hc). unfold id_char in H.
  now apply andb_true_iff in H as [H _].
Qed.

Lemma id_char_lacks x v :
  id_char x = false -> forallb id_char v = true -> lacks x v = true.
Proof.
  intros Hx H. unfold lacks. rewrite forallb_forall in *. intros c Hc.
  specialize (H c Hc). apply negb_true_iff.
  destruct (N.eqb_spec c x) as [->|]; [congruence|reflexivity].
Qed.

Lemma video_id_chars v : video_id v = true -> v <> [] /\ forallb id_char v = true.
Proof. destruct v; [discriminate|]. intros H. split; [discriminate|exact H]. Qed.

Lemma find_id_here prefix v :
  video_id v = true -> find_id prefix (prefix ++ v) = Some v.
Proof.
  intros H. apply video_id_chars in H as [Hne Hv].
  assert (E : id_at prefix (prefix ++ v) = Some v).
  { unfold id_at. rewrite strip_prefix_app.
    rewrite (takeWhile_all _ _ (id_char_not_delim _ Hv)).
    destruct v; [contradiction|reflexivity]. }
  destruct (prefix ++ v); cbn [find_id]; now rewrite E.
Qed.

Lemma origin_lacks pre :
  origin pre = true -> lacks 121%N pre = true /\ lacks 63%N pre = true.
Proof.
  unfold origin, lacks. rewrite !forallb_forall. intros H.
  split; intros c Hc; specialize (H c Hc);
    apply andb_true_iff in H as [H1 H2]; assumption.
Qed.

Lemma find_id_occurs prefix : forall s,
  occurs prefix s = false -> find_id prefix s = None.
Proof.
  assert (Hat : forall s,
    match strip_prefix prefix s with
    | Some (c :: _) => not_delim c
    | _ => false
    end = false -> id_at prefix s = None).
  { intros s H. unfold id_at.
    destruct (strip_prefix prefix s) as [[|c s']|]; try reflexivity.
    simpl. now rewrite H. }
  induction s as [|c s IH]; intros H; cbn [occurs] in H;
    apply orb_false_iff in H as [H1 H2]; cbn [find_id];
    rewrite (Hat _ H1); [reflexivity|now apply IH].
Qed.

(** The boolean scan decides the presence of a form. *)
Lemma occurs_has_form prefix : forall s,
  occurs prefix s = true <-> has_form prefix s.
Proof.
  induction s as [|c s IH]; cbn [occurs].
  - split.
    + rewrite orb_false_r.
      destruct (strip_prefix prefix []) as [[|c s']|] eqn:E; try discriminate.
      intros Hc. exists [], c, s'. split; [|exact Hc].
      now apply strip_prefix_inv in E.
    + intros (pre & x & post & E & _). exfalso.
      symmetry in E. apply app_eq_nil in E as [_ E].
      apply app_eq_nil in E as [_ E]. discriminate.
  - rewrite orb_true_iff, IH. split.
    + intros [H|(pre & x & post & E & Hx)].
      * destruct (strip_prefix prefix (c :: s)) as [[|x s']|] eqn:E;
          try discriminate.
        exists [], x, s'. split; [|exact H]. now apply strip_prefix_inv in E.
      * exists (c :: pre), x, post. split; [|exact Hx]. simpl. now rewrite E.
    + intros (pre & x & post & E & Hx). destruct pre as [|c' pre].
      * left. simpl in E. rewrite E, strip_prefix_app. exact Hx.
      * right. injection E as _ E. now exists pre, x, post.
Qed.

(** C4. A watch, short or embed URL of the video id [v] normalises to [v],
    and a URL in none of the three forms gives no id ([null]). *)
Theorem getVideoId_forms (pre v url : jsstring) :
  origin pre = true -> video_id v = true -> no_form url = true ->
  getVideoId (pre ++ watch_prefix ++ v) = Some v
  /\ getVideoId (pre ++ short_prefix ++ v) = Some v
  /\ getVideoId (pre ++ embed_prefix ++ v) = Some v
  /\ getVideoId url = None.
Proof.
  intros Hpre Hv Hurl.
  destruct (origin_lacks _ Hpre) as [Hy Hq].
  destruct (video_id_chars _ Hv) as [_ Hc].
  assert (Hvq : lacks 63%N v = true) by (now apply id_char_lacks).
  assert (Hvs : lacks 47%N v = true) by (now apply id_char_lacks).
  assert (Hw : forall l, lacks 63%N l = true ->
            find_id watch_prefix (pre ++ l ++ v) = None).
  { intros l Hl. apply (find_id_lacks watch_prefix 63%N).
    - unfold watch_prefix. simpl. tauto.
    - now rewrite !lacks_app, Hq, Hl, Hvq. }
  rewrite !getVideoId_find. repeat split.
  - unfold watch_prefix at 1. rewrite find_id_skip by exact Hy.
    fold watch_prefix. now rewrite find_id_here.
  - rewrite Hw by reflexivity.
    unfold short_prefix at 1. rewrite find_id_skip by exact Hy.
    fold short_prefix. now rewrite find_id_here.
  - rewrite Hw by reflexivity.
    assert (Hs : find_id short_prefix (pre ++ embed_prefix ++ v) = None).
    { unfold short_prefix at 1. rewrite find_id_skip by exact Hy.
      unfold embed_prefix, short_prefix. simpl.
      apply (find_id_lacks _ 47%N); [simpl; tauto|exact Hvs]. }
    rewrite Hs. unfold embed_prefix at 1. rewrite find_id_skip by exact Hy.
    fold embed_prefix. now rewrite find_id_here.
  - unfold no_form in Hurl.
    apply andb_true_iff in Hurl as [Hurl H3].
    apply andb_true_iff in Hurl as [H1 H2].
    apply negb_true_iff in H1, H2, H3.
    now rewrite !find_id_occurs.
Qed.

Lemma getVideoId_forms_witness :
  let pre := lit "https://www." in
  let v := lit "dQw4w9WgXcQ" in
  let url := lit "https://example.com/watch?v=" in
  getVideoId (pre ++ watch_prefix ++ v) = Some v
  /\ getVideoId (pre ++ short_prefix ++ v) = Some v
  /\ getVideoId (pre ++ embed_prefix ++ v) = Some v
  /\ getVideoId url = None.
Proof.
  apply (getVideoId_forms (lit "https://www.") (lit "dQw4w9WgXcQ")
           (lit "https://example.com/watch?v=")); reflexivity.
Defined.

(** ** [loadVideo] *)

Lemma structural_started_spec e :
  event_eqb_started e = true <-> e = structural_started.
Proof.
  unfold structural_started. split.
  - destruct e as [r|m k p|m]; try discriminate.
    destruct k; try discriminate. destruct p; try discriminate.
    simpl. unfold str_eqb.
    destruct (list_eq_dec N.eq_dec m msg_creating) as [->|]; [reflexivity|discriminate].
  - intros ->. reflexivity.
Qed.

Lemma not_started_in l :
  existsb event_eqb_started l = false -> ~ In structural_started l.
Proof.
  intros H Hin. apply Bool.not_true_iff_false in H. apply H.
  apply existsb_exists. exists structural_started. split; [exact Hin|reflexivity].
Qed.

(** What [generateAITimestamps] adds to the log starts with its toast and
    its request, and never contains the toast of the structural builder. *)
Lemma generateAITimestamps_log server t url w :
  exists rest,
    log (snd (generateAITimestamps server t url w))
    = log w ++ Shown msg_generating Loading true
        :: Fetched (mkRequest SmartQuestion url (Some chapters_prompt)) :: rest
    /\ existsb event_eqb_started rest = false.
Proof.
  cbv beta iota zeta delta [generateAITimestamps bind showNotification fetch
    emit removeNotification ret setVideoTitle setTimestamps update snd fst log
    app_state].
  destruct (server _) as [msg|data]; [|destruct (success data)];
    [| destruct (truthy (video_title data)) as [ti|], t as [|c t];
       destruct (answer data) as [a|] |];
    eexists; rewrite <- !app_assoc; (split; [reflexivity|reflexivity]).
Qed.

(** C1 as stated fails: on a successful load the generative request is
    sent although the structural builder has not run. *)
Lemma structural_first_counterexample :
  getVideoId (videoUrl sample_state) = Some (lit "dQw4w9WgXcQ")
  /\ ~ structural_first
         (log (run_handler (loadVideo sample_server (lit "10:00:00") sample_state)
                   sample_state)).
Proof.
  split; [reflexivity|]. intros H.
  refine (_ (H [Shown msg_loading Loading true;
                Fetched (mkRequest ProcessYoutube (videoUrl sample_state) None);
                Removed msg_loading;
                Shown (lit "Video transcript extracted successfully!") Success false;
                Shown msg_generating Loading true]
               (Fetched (mkRequest SmartQuestion (videoUrl sample_state)
                           (Some chapters_prompt)))
               [Removed msg_generating;
                Shown (lit "Timestamps generated!") Success false] _ _)).
  - intros Hin. revert Hin. apply not_started_in. reflexivity.
  - vm_compute. reflexivity.
  - reflexivity.
Qed.

(** C1, amended. On every successful load, [loadVideo] sends the
    generative request right after the transcript request succeeds,
    whatever the transcript is, and the structural builder does not run. *)
Theorem loadVideo_generative_only server now a id data :
  getVideoId (videoUrl a) = Some id ->
  server (mkRequest ProcessYoutube (videoUrl a) None) = Json data ->
  success data = true ->
  let l := log (run_handler (loadVideo server now a) a) in
  (exists rest,
     l = [Shown msg_loading Loading true;
          Fetched (mkRequest ProcessYoutube (videoUrl a) None);
          Removed msg_loading;
          Shown (lit "Video transcript extracted successfully!") Success false;
          Shown msg_generating Loading true;
          Fetched (mkRequest SmartQuestion (videoUrl a) (Some chapters_prompt))]
         ++ rest)
  /\ ~ In structural_started l.
Proof.
  intros Hid Hres Hok l. subst l. unfold run_handler, loadVideo. rewrite Hid.
  cbv beta iota zeta delta [bind setVideoId setMessages setTimestamps setError
    setVideoTitle update showNotification removeNotification fetch emit ret
    fst snd log app_state].
  rewrite Hres, Hok. cbv beta iota zeta delta [negb].
  match goal with
  | |- context [generateAITimestamps ?s ?t ?u ?w] =>
      destruct (generateAITimestamps_log s t u w) as (rest & E & Hrest);
      destruct (generateAITimestamps s t u w) as [u0 w0]
  end.
  cbv beta iota zeta delta [snd log] in E |- *. rewrite E.
  cbv beta iota zeta delta [log].
  rewrite <- !app_assoc. cbn [List.app]. split.
  - exists rest. reflexivity.
  - apply not_started_in. cbn [existsb event_eqb_started].
    rewrite Hrest. reflexivity.
Qed.

Lemma loadVideo_generative_only_witness :
  let l := log (run_handler (loadVideo sample_server (lit "10:00:00") sample_state)
                    sample_state) in
  (exists rest,
     l = [Shown msg_loading Loading true;
          Fetched (mkRequest ProcessYoutube (videoUrl sample_state) None);
          Removed msg_loading;
          Shown (lit "Video transcript extracted successfully!") Success false;
          Shown msg_generating Loading true;
          Fetched (mkRequest SmartQuestion (videoUrl sample_state)
                     (Some chapters_prompt))]
         ++ rest)
  /\ ~ In structural_started l.
Proof.
  apply (loadVideo_generative_only sample_server (lit "10:00:00") sample_state
           (lit "dQw4w9WgXcQ")
           (mkResponse true (Some (lit "A video")) None None));
    reflexivity.
Defined.

(** C10. When the URL does not normalise to a video id, [loadVideo] sets
    the error message and does nothing else: no request is sent, and the
    messages, chapters, video id and video title are left as they were. *)
Theorem loadVideo_invalid_url server now a :
  getVideoId (videoUrl a) = None ->
  let w := run_handler (loadVideo server now a) a in
  error (app_state w) = lit "Please enter a valid YouTube URL"
  /\ log w = []
  /\ messages (app_state w) = messages a
  /\ timestamps (app_state w) = timestamps a
  /\ videoId (app_state w) = videoId a
  /\ videoTitle (app_state w) = videoTitle a
  /\ videoUrl (app_state w) = videoUrl a.
Proof.
  intros H w. subst w. unfold run_handler, loadVideo. rewrite H.
  repeat split.
Qed.

Lemma loadVideo_invalid_url_witness :
  let a := mkApp (lit "https://example.com/") [] (lit "old") (lit "Old title")
             [mkChapter (lit "0:00:05") (lit "Intro") (Int 5)] [] in
  let w := run_handler (loadVideo sample_server (lit "10:00:00") a) a in
  error (app_state w) = lit "Please enter a valid YouTube URL"
  /\ log w = []
  /\ messages (app_state w) = messages a
  /\ timestamps (app_state w) = timestamps a
  /\ videoId (app_state w) = videoId a
  /\ videoTitle (app_state w) = videoTitle a
  /\ videoUrl (app_state w) = videoUrl a.
Proof.
  apply (loadVideo_invalid_url sample_server (lit "10:00:00")
           (mkApp (lit "https://example.com/") [] (lit "old") (lit "Old title")
              [mkChapter (lit "0:00:05") (lit "Intro") (Int 5)] [])).
  reflexivity.
Defined.

(** ** The matcher and the language of a pattern *)

Lemma rep_sound {A} p (k : jsstring -> option A) x : forall s lo hi,
  rep p lo hi s k = Some x ->
  exists m s',
    s = m ++ s' /\ forallb p m = true /\ lo <= length m
    /\ match hi with Some h => length m <= h | None => True end
    /\ k s' = Some x.
Proof.
  assert (Hstop : forall s lo hi,
    match lo with O => k s | S _ => None end = Some x ->
    exists m s',
      s = m ++ s' /\ forallb p m = true /\ lo <= length m
      /\ match hi with Some h => length m <= h | None => True end
      /\ k s' = Some x).
  { intros s lo hi H. destruct lo; [|discriminate].
    exists [], s. repeat split; auto. destruct hi; simpl; lia. }
  induction s as [|c s IH]; intros lo hi H.
  - apply Hstop. destruct hi as [[|h]|]; exact H.
  - cbn [rep] in H.
    assert (Hrec :
      (if p c
       then match rep p (pred lo) (option_map pred hi) s k with
            | Some x0 => Some x0
            | None => match lo with O => k (c :: s) | S _ => None end
            end
       else match lo with O => k (c :: s) | S _ => None end) = Some x ->
      hi <> Some 0 ->
      exists m s',
        c :: s = m ++ s' /\ forallb p m = true /\ lo <= length m
        /\ match hi with Some h => length m <= h | None => True end
        /\ k s' = Some x).
    { intros H' Hhi. destruct (p c) eqn:Hp; [|now apply Hstop].
      destruct (rep p (pred lo) (option_map pred hi) s k) as [y|] eqn:E;
        [|now apply Hstop].
      injection H' as ->.
      destruct (IH _ _ E) as (m & s' & -> & Hm & Hlo & Hh & Hk).
      exists (c :: m), s'. cbn [forallb length app]. rewrite Hp, Hm.
      repeat split; auto; [lia|].
      destruct hi as [[|h]|]; cbn in *; [congruence|lia|exact I]. }
    assert (Hd : hi = Some 0 \/ hi <> Some 0)
      by (destruct hi as [[|?]|]; auto; right; discriminate).
    destruct Hd as [->|Hne]; [apply (Hstop _ _ (Some 0)); exact H|].
    apply Hrec; [|exact Hne].
    destruct hi as [[|h]|]; [congruence|exact H|exact H].
Qed.

Lemma rep_complete {A} p (k : jsstring -> option A) s' :
  k s' <> None -> forall m lo hi,
  forallb p m = true -> lo <= length m ->
  match hi with Some h => length m <= h | None => True end ->
  rep p lo hi (m ++ s') k <> None.
Proof.
  intros Hk. induction m as [|c m IH]; intros lo hi Hm Hlo Hhi.
  - cbn [app length] in *. assert (lo = 0) by lia. subst lo.
    destruct s' as [|c s']; cbn [rep].
    + destruct hi as [[|h]|]; exact Hk.
    + destruct hi as [[|h]|]; [exact Hk| |];
        (destruct (p c); [|exact Hk];
         destruct (rep p (pred 0) _ s' k); [discriminate|exact Hk]).
  - cbn [forallb] in Hm. apply andb_true_iff in Hm as [Hc Hm].
    cbn [app rep length] in *. rewrite Hc.
    assert (Hin : rep p (pred lo) (option_map pred hi) (m ++ s') k <> None).
    { apply IH; [exact Hm|lia|]. destruct hi as [[|h]|]; cbn; [lia|lia|exact I]. }
    destruct hi as [[|h]|]; [lia| |];
      (destruct (rep p (pred lo) _ (m ++ s') k); [discriminate|contradiction]).
Qed.

Lemma exec_sound {A} r : forall s caps (k : jsstring -> captures -> option A) x,
  exec r s caps k = Some x ->
  exists s' caps', run r s caps s' caps' /\ k s' caps' = Some x.
Proof.
  induction r as [p| |r1 IH1 r2 IH2|r1 IH1 r2 IH2|p lo hi|r IH|i r IH];
    intros s caps k x H; cbn [exec] in H.
  - destruct s as [|c s]; [discriminate|]. destruct (p c) eqn:Hp; [|discriminate].
    exists s, caps. split; [now constructor|exact H].
  - exists s, caps. split; [constructor|exact H].
  - apply IH1 in H as (s1 & caps1 & H1 & H).
    apply IH2 in H as (s2 & caps2 & H2 & H).
    exists s2, caps2. split; [econstructor; eassumption|exact H].
  - destruct (exec r1 s caps k) as [y|] eqn:E.
    + injection H as ->. apply IH1 in E as (s' & caps' & H1 & H).
      exists s', caps'. split; [now apply run_alt_l|exact H].
    + apply IH2 in H as (s' & caps' & H2 & H).
      exists s', caps'. split; [now apply run_alt_r|exact H].
  - apply rep_sound in H as (m & s' & -> & Hm & Hlo & Hhi & H).
    exists s', caps. split; [now constructor|exact H].
  - destruct (exec r s caps k) as [y|] eqn:E.
    + injection H as ->. apply IH in E as (s' & caps' & H1 & H).
      exists s', caps'. split; [now apply run_opt_some|exact H].
    + exists s, caps. split; [apply run_opt_none|exact H].
  - apply IH in H as (s' & caps' & H1 & H).
    exists s', (set_cap i (consumed s s') caps'). split; [now constructor|exact H].
Qed.

Lemma exec_complete r s caps s' caps' :
  run r s caps s' caps' ->
  forall A (k : jsstring -> captures -> option A),
  k s' caps' <> None -> exec r s caps k <> None.
Proof.
  induction 1 as [p c s caps Hp|s caps|r1 r2 s caps s1 caps1 s2 caps2 _ IH1 _ IH2
                 |r1 r2 s caps s' caps' _ IH|r1 r2 s caps s' caps' _ IH
                 |p lo hi m s caps Hm Hlo Hhi|r s caps s' caps' _ IH|r s caps
                 |i r s caps s' caps' _ IH];
    intros A k Hk; cbn [exec].
  - now rewrite Hp.
  - exact Hk.
  - apply IH1. now apply IH2.
  - specialize (IH A k Hk). destruct (exec r1 s caps k); [discriminate|contradiction].
  - destruct (exec r1 s caps k); [discriminate|]. now apply IH.
  - now apply rep_complete.
  - specialize (IH A k Hk). destruct (exec r s caps k); [discriminate|contradiction].
  - destruct (exec r s caps k); [discriminate|exact Hk].
  - now apply IH.
Qed.

Lemma match_at_sound r s caps rest :
  match_at r s = Some (caps, rest) ->
  exists caps', run r s [] rest caps' /\ caps = set_cap 0 (consumed s rest) caps'.
Proof.
  unfold match_at. intros H. apply exec_sound in H as (s' & caps' & Hr & H).
  injection H as <- <-. now exists caps'.
Qed.

Lemma match_at_complete r s rest caps :
  run r s [] rest caps -> match_at r s <> None.
Proof.
  intros H. unfold match_at.
  eapply exec_complete; [exact H|discriminate].
Qed.

(** What [search] returns is the leftmost position with a match. *)
Lemma search_sound r : forall s pre caps rest,
  search r s = Some (pre, caps, rest) ->
  exists m, s = pre ++ m /\ match_at r m = Some (caps, rest).
Proof.
  induction s as [|c s IH]; intros pre caps rest H; cbn [search] in H.
  - destruct (match_at r []) as [[caps0 rest0]|] eqn:E; [|discriminate].
    injection H as <- <- <-. now exists [].
  - destruct (match_at r (c :: s)) as [[caps0 rest0]|] eqn:E.
    + injection H as <- <- <-. now exists (c :: s).
    + destruct (search r s) as [[[pre0 caps0] rest0]|] eqn:E'; [|discriminate].
      injection H as <- <- <-.
      destruct (IH _ _ _ eq_refl) as (m & -> & Hm). now exists m.
Qed.

Lemma search_none r : forall s,
  search r s = None -> forall pre m, s = pre ++ m -> match_at r m = None.
Proof.
  induction s as [|c s IH]; intros H pre m E; cbn [search] in H.
  - symmetry in E. apply app_eq_nil in E as [_ ->].
    destruct (match_at r []) as [[? ?]|]; [discriminate|reflexivity].
  - destruct (match_at r (c :: s)) as [[caps0 rest0]|] eqn:E0; [discriminate|].
    destruct (search r s) as [[[pre0 caps0] rest0]|] eqn:E'; [discriminate|].
    destruct pre as [|c' pre].
    + simpl in E. now subst m.
    + injection E as _ E. now apply (IH eq_refl pre).
Qed.

(** The matcher finds a match exactly when the string contains one. *)
Lemma search_contains r s : search r s <> None <-> contains_match r s.
Proof.
  split.
  - destruct (search r s) as [[[pre caps] rest]|] eqn:E; [|contradiction].
    intros _. apply search_sound in E as (m & -> & Hm).
    apply match_at_sound in Hm as (caps' & Hr & _).
    now exists pre, m, rest, caps'.
  - intros (pre & m & s' & caps & -> & Hr) Hn.
    apply (match_at_complete _ _ _ _ Hr). now apply (search_none _ _ Hn pre).
Qed.

(** ** Global replacement, step by step *)

Lemma run_suffix r s caps s' caps' :
  run r s caps s' caps' -> exists x, s = x ++ s'.
Proof.
  induction 1 as [p c s caps Hp|s caps|r1 r2 s caps s1 caps1 s2 caps2 _ IH1 _ IH2
                 |r1 r2 s caps s' caps' _ IH|r1 r2 s caps s' caps' _ IH
                 |p lo hi m s caps Hm Hlo Hhi|r s caps s' caps' _ IH|r s caps
                 |i r s caps s' caps' _ IH]; try assumption.
  - now exists [c].
  - now exists [].
  - destruct IH1 as (x & ->), IH2 as (y & ->). exists (x ++ y). apply app_assoc.
  - now exists m.
  - now exists [].
Qed.

Lemma get_set_cap_same i v : forall caps, get_cap i (set_cap i v caps) = v.
Proof.
  unfold get_cap. induction i as [|i IH]; intros [|c caps]; cbn; auto.
Qed.

Lemma nth_set_cap_other v : forall i j caps,
  i <> j -> nth i (set_cap j v caps) None = nth i caps None.
Proof.
  induction i as [|i IH]; intros [|j] [|c caps] Hne; cbn;
    try congruence; try reflexivity.
  - destruct i; reflexivity.
  - rewrite IH by congruence. destruct i; reflexivity.
  - apply IH. congruence.
Qed.

Lemma get_set_cap_other i j v caps :
  i <> j -> get_cap i (set_cap j v caps) = get_cap i caps.
Proof. intros H. unfold get_cap. now rewrite nth_set_cap_other. Qed.

Lemma match_at_split r m caps rest :
  match_at r m = Some (caps, rest) -> m = get_cap 0 caps ++ rest.
Proof.
  intros H. apply match_at_sound in H as (caps' & Hr & ->).
  apply run_suffix in Hr as (x & ->).
  now rewrite get_set_cap_same, consumed_app.
Qed.

Lemma search_split r s pre caps rest :
  search r s = Some (pre, caps, rest) -> s = pre ++ get_cap 0 caps ++ rest.
Proof.
  intros H. apply search_sound in H as (m & -> & Hm).
  now rewrite (match_at_split _ _ _ _ Hm) at 1.
Qed.

Lemma replace_all_fuel_enough r repl : forall fuel s,
  length s < fuel ->
  replace_all_fuel fuel r repl s = replace_all r repl s.
Proof.
  assert (H : forall n fuel1 fuel2 s,
    length s < n -> length s < fuel1 -> length s < fuel2 ->
    replace_all_fuel fuel1 r repl s = replace_all_fuel fuel2 r repl s).
  { induction n as [|n IH]; intros fuel1 fuel2 s Hn H1 H2; [lia|].
    destruct fuel1 as [|f1]; [lia|]. destruct fuel2 as [|f2]; [lia|].
    cbn [replace_all_fuel].
    destruct (search r s) as [[[pre caps] rest]|] eqn:E; [|reflexivity].
    apply search_split in E.
    assert (Hlen : length s = length pre + length (get_cap 0 caps) + length rest)
      by (rewrite E at 1; rewrite !length_app; lia).
    destruct (get_cap 0 caps) as [|c0 m0] eqn:Em.
    - destruct rest as [|c rest']; [reflexivity|].
      do 2 f_equal. cbn [length] in Hlen. f_equal. apply IH; lia.
    - do 2 f_equal. cbn [length] in Hlen. apply IH; lia. }
  intros fuel s Hlt. unfold replace_all. apply (H (S (length s))); lia.
Qed.

Lemma replace_all_unfold r repl s :
  replace_all r repl s
  = match search r s with
    | None => s
    | Some (pre, caps, rest) =>
        match get_cap 0 caps, rest with
        | [], [] => pre ++ repl caps
        | [], c :: rest' => pre ++ repl caps ++ c :: replace_all r repl rest'
        | _ :: _, _ => pre ++ repl caps ++ replace_all r repl rest
        end
    end.
Proof.
  unfold replace_all at 1. cbn [replace_all_fuel].
  destruct (search r s) as [[[pre caps] rest]|] eqn:E; [|reflexivity].
  apply search_split in E.
  assert (Hlen : length s = length pre + length (get_cap 0 caps) + length rest)
    by (rewrite E at 1; rewrite !length_app; lia).
  destruct (get_cap 0 caps) as [|c0 m0] eqn:Em.
  - destruct rest as [|c rest']; [reflexivity|].
    cbn [length] in Hlen. rewrite replace_all_fuel_enough by lia. reflexivity.
  - cbn [length] in Hlen. rewrite replace_all_fuel_enough by lia. reflexivity.
Qed.

(** No match at the first character: it is copied. *)
Lemma replace_all_skip r repl c s :
  match_at r (c :: s) = None ->
  replace_all r repl (c :: s) = c :: replace_all r repl s.
Proof.
  intros H. rewrite (replace_all_unfold r repl (c :: s)), (replace_all_unfold r repl s).
  cbn [search]. rewrite H.
  destruct (search r s) as [[[pre caps] rest]|]; [|reflexivity].
  destruct (get_cap 0 caps), rest; reflexivity.
Qed.

(** A non-empty match at the start: it is replaced and the search resumes
    after it. *)
Lemma replace_all_here r repl s caps rest :
  match_at r s = Some (caps, rest) -> get_cap 0 caps <> [] ->
  replace_all r repl s = repl caps ++ replace_all r repl rest.
Proof.
  intros H Hne. rewrite (replace_all_unfold r repl s).
  destruct s as [|c s]; cbn [search]; rewrite H;
    destruct (get_cap 0 caps); try contradiction; reflexivity.
Qed.

Lemma replace_all_nil r repl :
  match_at r [] = None -> replace_all r repl [] = [].
Proof.
  intros H. rewrite replace_all_unfold. cbn [search]. now rewrite H.
Qed.

(** ** Removing the double stars *)

Lemma match_at_rlit l s :
  match_at (rlit l) s
  = match strip_prefix l s with
    | Some s' => Some (set_cap 0 (consumed s s') [], s')
    | None => None
    end.
Proof. unfold match_at. apply exec_rlit. Qed.

Lemma list_length_ind {A} (P : list A -> Prop) :
  (forall s, (forall t, length t < length s -> P t) -> P s) ->
  forall s, P s.
Proof.
  intros H s. remember (length s) as n eqn:E. revert s E.
  induction n as [n IH] using lt_wf_ind. intros s ->.
  apply H. intros t Ht. now apply (IH (length t)).
Qed.

Lemma remove_pairs_cons2 a b s :
  remove_pairs (a :: b :: s)
  = if ((a =? star) && (b =? star))%N then remove_pairs s
    else a :: remove_pairs (b :: s).
Proof. reflexivity. Qed.

Lemma replace_double_star s :
  replace_all double_star (fun _ => []) s = remove_pairs s.
Proof.
  induction s as [s IH] using list_length_ind.
  destruct s as [|a [|b s]].
  - apply replace_all_nil. reflexivity.
  - rewrite replace_all_skip.
    + rewrite replace_all_nil; reflexivity.
    + unfold double_star. rewrite match_at_rlit. cbn [strip_prefix].
      destruct (star =? a)%N; reflexivity.
  - rewrite remove_pairs_cons2.
    destruct ((a =? star) && (b =? star))%N eqn:E.
    + apply andb_true_iff in E as [Ha Hb].
      apply N.eqb_eq in Ha, Hb. subst a b.
      rewrite (replace_all_here double_star (fun _ => []) (star :: star :: s)
                 (set_cap 0 [star; star] []) s).
      * cbn [app]. apply IH. cbn. lia.
      * unfold double_star. rewrite match_at_rlit. cbn [strip_prefix].
        rewrite !N.eqb_refl. do 3 f_equal.
        apply (consumed_app [star; star] s).
      * discriminate.
    + rewrite replace_all_skip.
      * f_equal. apply IH. cbn. lia.
      * unfold double_star. rewrite match_at_rlit. cbn [strip_prefix].
        rewrite (N.eqb_sym star a), (N.eqb_sym star b).
        destruct (a =? star)%N; [|reflexivity].
        destruct (b =? star)%N; [discriminate|reflexivity].
Qed.

Lemma remove_pairs_head b s :
  (b =? star)%N = false -> exists t, remove_pairs (b :: s) = b :: t.
Proof.
  intros Hb. destruct s as [|b' s]; [now exists []|].
  rewrite remove_pairs_cons2, Hb. cbn [andb]. now eexists.
Qed.

(** After the removal no two stars are adjacent. *)
Lemma remove_pairs_clean s : has_double_star (remove_pairs s) = false.
Proof.
  induction s as [s IH] using list_length_ind.
  destruct s as [|a [|b s]]; [reflexivity|reflexivity|].
  rewrite remove_pairs_cons2.
  destruct ((a =? star) && (b =? star))%N eqn:E.
  - apply IH. cbn. lia.
  - assert (Hb : has_double_star (remove_pairs (b :: s)) = false)
      by (apply IH; cbn; lia).
    destruct (a =? star)%N eqn:Ea.
    + cbn [andb] in E. destruct (remove_pairs_head b s E) as (t & Et).
      rewrite Et in Hb |- *.
      change (has_double_star (a :: b :: t))
        with (((a =? star) && (b =? star))%N || has_double_star (b :: t)).
      now rewrite Ea, E, Hb.
    + destruct (remove_pairs (b :: s)) as [|x t]; [reflexivity|].
      change (has_double_star (a :: x :: t))
        with (((a =? star) && (x =? star))%N || has_double_star (x :: t)).
      now rewrite Ea, Hb.
Qed.

Lemma has_double_star_cons2 a b t :
  has_double_star (a :: b :: t)
  = ((a =? star) && (b =? star))%N || has_double_star (b :: t).
Proof. reflexivity. Qed.

Lemma star_free_clean b :
  forallb not_star b = true -> has_double_star b = false.
Proof.
  induction b as [|y b IH]; [reflexivity|]. intros H.
  cbn [forallb] in H. apply andb_true_iff in H as [Hy H].
  unfold not_star in Hy. apply negb_true_iff in Hy.
  destruct b as [|z b]; [reflexivity|].
  rewrite has_double_star_cons2, Hy. cbn [andb orb]. now apply IH.
Qed.

Lemma has_double_star_app_clean a b :
  has_double_star a = false -> forallb not_star b = true ->
  has_double_star (a ++ b) = false.
Proof.
  intros Ha Hb. induction a as [|x a IH].
  - now apply star_free_clean.
  - destruct a as [|y a].
    + destruct b as [|y b]; [reflexivity|].
      change ([x] ++ y :: b) with (x :: y :: b).
      rewrite has_double_star_cons2, (star_free_clean _ Hb).
      cbn [forallb] in Hb. apply andb_true_iff in Hb as [Hy _].
      unfold not_star in Hy. apply negb_true_iff in Hy.
      now rewrite Hy, andb_false_r.
    + change ((x :: y :: a) ++ b) with (x :: y :: (a ++ b)).
      rewrite has_double_star_cons2 in Ha |- *.
      apply orb_false_iff in Ha as [H1 H2]. rewrite H1. cbn [orb].
      now apply IH.
Qed.

Lemma has_double_star_firstn n : forall s,
  has_double_star s = false -> has_double_star (firstn n s) = false.
Proof.
  induction n as [|n IH]; intros s H; [reflexivity|].
  destruct s as [|a [|b s]]; [reflexivity|destruct n; reflexivity|].
  rewrite has_double_star_cons2 in H. apply orb_false_iff in H as [H1 H2].
  specialize (IH _ H2). destruct n as [|n]; [reflexivity|].
  change (firstn (S (S n)) (a :: b :: s)) with (a :: firstn (S n) (b :: s)).
  change (firstn (S n) (b :: s)) with (b :: firstn n s) in IH |- *.
  now rewrite has_double_star_cons2, H1, IH.
Qed.

Lemma shorten_clean n s :
  has_double_star s = false -> has_double_star (shorten n s) = false.
Proof.
  intros H. unfold shorten. destruct (n <? length s); [|exact H].
  apply has_double_star_app_clean; [|reflexivity].
  now apply has_double_star_firstn.
Qed.

(** ** Inversion of runs *)

Lemma run_seq_inv r1 r2 s caps s2 caps2 :
  run (Seq r1 r2) s caps s2 caps2 ->
  exists s1 caps1, run r1 s caps s1 caps1 /\ run r2 s1 caps1 s2 caps2.
Proof. inversion 1; subst. eauto. Qed.

Lemma run_chr_inv p s caps s' caps' :
  run (Chr p) s caps s' caps' ->
  exists c, s = c :: s' /\ p c = true /\ caps' = caps.
Proof. inversion 1; subst. eauto. Qed.

Lemma run_eps_inv s caps s' caps' :
  run Eps s caps s' caps' -> s' = s /\ caps' = caps.
Proof. inversion 1; subst. auto. Qed.

Lemma run_rep_inv p lo hi s caps s' caps' :
  run (Rep p lo hi) s caps s' caps' ->
  exists m, s = m ++ s' /\ forallb p m = true /\ lo <= length m
            /\ match hi with Some h => length m <= h | None => True end
            /\ caps' = caps.
Proof. inversion 1; subst. eexists. repeat split; eauto. Qed.

Lemma run_grp_inv i r s caps s' caps' :
  run (Grp i r) s caps s' caps' ->
  exists caps1, run r s caps s' caps1
                /\ caps' = set_cap i (consumed s s') caps1.
Proof. inversion 1; subst. eauto. Qed.

Lemma run_alt_inv r1 r2 s caps s' caps' :
  run (Alt r1 r2) s caps s' caps' ->
  run r1 s caps s' caps' \/ run r2 s caps s' caps'.
Proof. inversion 1; subst; auto. Qed.

Lemma run_opt_inv r s caps s' caps' :
  run (Opt r) s caps s' caps' ->
  run r s caps s' caps' \/ (s' = s /\ caps' = caps).
Proof. inversion 1; subst; auto. Qed.

Lemma run_grp_rep_inv i p lo hi s caps s' caps' :
  run (Grp i (Rep p lo hi)) s caps s' caps' ->
  exists m, s = m ++ s' /\ forallb p m = true /\ lo <= length m
            /\ match hi with Some h => length m <= h | None => True end
            /\ caps' = set_cap i m caps.
Proof.
  intros H. apply run_grp_inv in H as (caps1 & H & ->).
  apply run_rep_inv in H as (m & -> & Hm & Hlo & Hhi & ->).
  exists m. rewrite consumed_app. auto.
Qed.

Lemma run_grp_rep i p lo hi m s caps :
  forallb p m = true -> lo <= length m ->
  match hi with Some h => length m <= h | None => True end ->
  run (Grp i (Rep p lo hi)) (m ++ s) caps s (set_cap i m caps).
Proof.
  intros Hm Hlo Hhi. rewrite <- (consumed_app m s) at 2.
  constructor. now constructor.
Qed.

(** ** The chapter-line pattern *)

Lemma run_chapter_line s rest caps :
  run chapter_line s [] rest caps ->
  exists h mm ss t,
    chapter_line_at s h mm ss t rest /\ caps = line_captures h mm ss t.
Proof.
  unfold chapter_line. intros H.
  apply run_seq_inv in H as (s1 & c1 & H1 & H).
  apply run_grp_rep_inv in H1 as (h & -> & Hh & Hh1 & Hh2 & ->).
  apply run_seq_inv in H as (s2 & c2 & H2 & H).
  apply run_chr_inv in H2 as (x & -> & Hx & ->). apply N.eqb_eq in Hx. subst x.
  apply run_seq_inv in H as (s3 & c3 & H3 & H).
  apply run_grp_rep_inv in H3 as (mm & -> & Hm & Hm1 & Hm2 & ->).
  apply run_seq_inv in H as (s4 & c4 & H4 & H).
  apply run_chr_inv in H4 as (x & -> & Hx & ->). apply N.eqb_eq in Hx. subst x.
  apply run_seq_inv in H as (s5 & c5 & H5 & H).
  apply run_grp_rep_inv in H5 as (ss & -> & Hs & Hs1 & Hs2 & ->).
  apply run_seq_inv in H as (s6 & c6 & H6 & H).
  apply run_rep_inv in H6 as (ws1 & -> & Hw1 & _ & _ & ->).
  apply run_seq_inv in H as (s7 & c7 & H7 & H).
  apply run_chr_inv in H7 as (d & -> & Hd & ->).
  apply run_seq_inv in H as (s8 & c8 & H8 & H).
  apply run_rep_inv in H8 as (ws2 & -> & Hw2 & _ & _ & ->).
  apply run_grp_rep_inv in H as (t & -> & Ht & Ht1 & _ & ->).
  exists h, mm, ss, t. split; [|reflexivity].
  exists ws1, d, ws2. repeat split; auto; try lia.
  - apply orb_true_iff in Hd as [Hd|Hd]; apply N.eqb_eq in Hd; auto.
  - intros ->. simpl in Ht1. lia.
Qed.

Lemma chapter_line_run s h mm ss t rest :
  chapter_line_at s h mm ss t rest ->
  run chapter_line s [] rest (line_captures h mm ss t).
Proof.
  intros (ws1 & d & ws2 & -> & Hh & Hh1 & Hm & Hm1 & Hs & Hs1 & Hw1 & Hd & Hw2
          & Ht & Ht1).
  unfold chapter_line, line_captures.
  eapply run_seq; [apply run_grp_rep; [exact Hh|lia|simpl; lia]|].
  eapply run_seq; [apply run_chr, N.eqb_refl|].
  eapply run_seq; [apply run_grp_rep; [exact Hm|lia|simpl; lia]|].
  eapply run_seq; [apply run_chr, N.eqb_refl|].
  eapply run_seq; [apply run_grp_rep; [exact Hs|lia|simpl; lia]|].
  eapply run_seq; [apply run_rep; [exact Hw1|lia|exact I]|].
  eapply run_seq.
  { apply run_chr. destruct Hd as [->| ->]; reflexivity. }
  eapply run_seq; [apply run_rep; [exact Hw2|lia|exact I]|].
  apply run_grp_rep; [exact Ht1| |exact I].
  destruct t; [contradiction|simpl; lia].
Qed.

Lemma contains_chapter_line line :
  contains_match chapter_line line <-> matches_chapter_line line.
Proof.
  split.
  - intros (pre & m & s' & caps & -> & H).
    apply run_chapter_line in H as (h & mm & ss & t & H & _).
    now exists pre, m, h, mm, ss, t, s'.
  - intros (pre & s & h & mm & ss & t & rest & -> & H).
    exists pre, s, rest, (line_captures h mm ss t). split; [reflexivity|].
    now apply chapter_line_run.
Qed.

Lemma parseInt_digits s :
  s <> [] -> forallb is_digit s = true ->
  (Z.of_N (digits_value s) <= MAX_SAFE_INTEGER)%Z ->
  parseInt s = Int (Z.of_N (digits_value s)).
Proof.
  intros Hne Hd Hv. unfold parseInt. rewrite (dropWhile_digits _ Hd).
  destruct s as [|c s]; [contradiction|].
  pose proof Hd as Hd'. cbn [forallb] in Hd'.
  apply andb_true_iff in Hd' as [Hc Hs].
  assert (H45 : (c =? 45)%N = false /\ (c =? 43)%N = false).
  { unfold is_digit in Hc. apply andb_true_iff in Hc as [Hc _].
    apply N.leb_le in Hc. split; apply N.eqb_neq; lia. }
  destruct H45 as [-> ->].
  assert (Hx : match c :: s with
               | z :: x :: _ => (z =? 48)%N && ((x =? 120) || (x =? 88))%N
               | _ => false
               end = false).
  { destruct s as [|x s]; [reflexivity|]. cbn [forallb] in Hs.
    apply andb_true_iff in Hs as [Hx _]. unfold is_digit in Hx.
    apply andb_true_iff in Hx as [_ Hx]. apply N.leb_le in Hx.
    replace (x =? 120)%N with false by (symmetry; apply N.eqb_neq; lia).
    replace (x =? 88)%N with false by (symmetry; apply N.eqb_neq; lia).
    apply andb_false_r. }
  rewrite Hx, (takeWhile_all _ _ Hd), (decimal_small _ Hv). reflexivity.
Qed.

Lemma parseInt_two s :
  s <> [] -> forallb is_digit s = true -> length s <= 2 ->
  parseInt s = Int (Z.of_N (digits_value s)).
Proof.
  intros Hne Hd Hl. apply parseInt_digits; [exact Hne | exact Hd |].
  pose proof (digits_value_two s Hd Hl). rewrite MAX_SAFE_INTEGER_eq. lia.
Qed.

Lemma nonempty_of_length (s : jsstring) n : n <= length s -> 1 <= n -> s <> [].
Proof. intros H1 H2 ->. simpl in H1. lia. Qed.

(** ** Greedy matching, when the longest choice succeeds *)

Lemma rep_take {A} p (k : jsstring -> option A) x s :
  k s = Some x ->
  forall m lo hi,
    forallb p m = true -> lo <= length m ->
    (hi = Some (length m)
     \/ (match s with c :: _ => p c = false | [] => True end
         /\ match hi with Some h => length m <= h | None => True end)) ->
    rep p lo hi (m ++ s) k = Some x.
Proof.
  intros Hk. induction m as [|a m IH]; intros lo hi Hp Hlo Hfull.
  - cbn [app length] in *. assert (lo = 0) as -> by lia.
    destruct s as [|c s'].
    + destruct hi as [[|h]|]; cbn; exact Hk.
    + destruct Hfull as [->|[Hc _]]; [cbn; exact Hk|].
      destruct hi as [[|h]|]; cbn; rewrite ?Hc; exact Hk.
  - cbn [forallb] in Hp. apply andb_prop in Hp as [Ha Hp].
    cbn [length] in *.
    assert (Hrec : rep p (pred lo) (option_map pred hi) (m ++ s) k = Some x).
    { apply IH; [exact Hp | lia |].
      destruct Hfull as [->|[Hs Hh]]; [left; reflexivity|].
      right. split; [exact Hs|]. destruct hi as [h|]; cbn; [lia | exact I]. }
    destruct hi as [[|h]|].
    + exfalso. destruct Hfull as [Hf|[_ Hf]]; [discriminate | lia].
    + cbn [app rep]. rewrite Ha. cbn [option_map pred] in Hrec |- *.
      now rewrite Hrec.
    + cbn [app rep]. rewrite Ha. cbn [option_map pred] in Hrec |- *.
      now rewrite Hrec.
Qed.

Lemma exec_seq {A} r1 r2 s caps (k : jsstring -> captures -> option A) :
  exec (Seq r1 r2) s caps k = exec r1 s caps (fun s' caps' => exec r2 s' caps' k).
Proof. reflexivity. Qed.

Lemma exec_chr_take {A} (p : jschar -> bool) c s caps
    (k : jsstring -> captures -> option A) :
  p c = true -> exec (Chr p) (c :: s) caps k = k s caps.
Proof. intros H. cbn [exec]. now rewrite H. Qed.

Lemma exec_rep_take {A} p lo hi m s caps
    (k : jsstring -> captures -> option A) x :
  k s caps = Some x ->
  forallb p m = true -> lo <= length m ->
  (hi = Some (length m)
   \/ (match s with c :: _ => p c = false | [] => True end
       /\ match hi with Some h => length m <= h | None => True end)) ->
  exec (Rep p lo hi) (m ++ s) caps k = Some x.
Proof.
  intros Hk Hp Hlo Hfull. cbn [exec].
  now apply (rep_take p (fun s' => k s' caps) x s Hk m lo hi).
Qed.

Lemma exec_grp_rep_take {A} i p lo hi m s caps
    (k : jsstring -> captures -> option A) x :
  k s (set_cap i m caps) = Some x ->
  forallb p m = true -> lo <= length m ->
  (hi = Some (length m)
   \/ (match s with c :: _ => p c = false | [] => True end
       /\ match hi with Some h => length m <= h | None => True end)) ->
  exec (Grp i (Rep p lo hi)) (m ++ s) caps k = Some x.
Proof.
  intros Hk Hp Hlo Hfull. cbn [exec].
  apply (rep_take p
           (fun s' => k s' (set_cap i (consumed (m ++ s) s') caps)) x s);
    [|exact Hp|exact Hlo|exact Hfull].
  now rewrite consumed_app.
Qed.

Lemma search_here r s caps rest :
  match_at r s = Some (caps, rest) -> search r s = Some ([], caps, rest).
Proof. intros H. destruct s; cbn [search]; now rewrite H. Qed.

Lemma dropWhile_stops p s :
  match dropWhile p s with c :: _ => p c = false | [] => True end.
Proof.
  induction s as [|c s IH]; cbn [dropWhile]; [exact I|].
  destruct (p c) eqn:E; [exact IH | exact E].
Qed.

Lemma takeWhile_forallb p s : forallb p (takeWhile p s) = true.
Proof.
  induction s as [|c s IH]; cbn [takeWhile]; [reflexivity|].
  destruct (p c) eqn:E; [cbn [forallb]; now rewrite E | reflexivity].
Qed.

Lemma not_space_not_terminator c :
  is_space c = false -> is_line_terminator c = false.
Proof.
  unfold is_space. destruct (is_line_terminator c); [intros H; discriminate H|].
  reflexivity.
Qed.

(** The match of the chapter-line pattern at the start of a line that
    consists of a time, [ - ] and a title. *)
Lemma match_at_chapter_line h mm ss c t :
  time_shape h mm ss -> is_space c = false ->
  let ti := takeWhile (fun c => negb (is_line_terminator c)) (c :: t) in
  let rest := dropWhile (fun c => negb (is_line_terminator c)) (c :: t) in
  exists whole,
    match_at chapter_line
      (h ++ colon :: mm ++ colon :: ss ++ space :: hyphen :: space :: c :: t)
    = Some (set_cap 0 whole (line_captures h mm ss ti), rest).
Proof.
  intros (Hh & Hh1 & Hm & Hm1 & Hs & Hs1) Hc ti rest.
  eexists. unfold match_at, chapter_line.
  rewrite exec_seq. eapply exec_grp_rep_take;
    [|exact Hh|lia|right; split; [reflexivity | lia]].
  rewrite exec_seq, exec_chr_take by apply N.eqb_refl.
  rewrite exec_seq. eapply exec_grp_rep_take;
    [|exact Hm|lia|left; now rewrite Hm1].
  rewrite exec_seq, exec_chr_take by apply N.eqb_refl.
  rewrite exec_seq. eapply exec_grp_rep_take;
    [|exact Hs|lia|left; now rewrite Hs1].
  rewrite exec_seq.
  change (space :: hyphen :: space :: c :: t)
    with ([space] ++ hyphen :: space :: c :: t).
  eapply exec_rep_take; [|reflexivity|cbn; lia|right; split; [reflexivity|exact I]].
  rewrite exec_seq, exec_chr_take by reflexivity.
  rewrite exec_seq.
  change (space :: c :: t) with ([space] ++ c :: t).
  eapply exec_rep_take; [|reflexivity|cbn; lia|right; split; [exact Hc|exact I]].
  rewrite <- (take_drop_while (fun c => negb (is_line_terminator c)) (c :: t)).
  eapply exec_grp_rep_take;
    [|apply takeWhile_forallb| |right; split; [apply dropWhile_stops|exact I]].
  - rewrite take_drop_while. unfold line_captures. reflexivity.
  - cbn [takeWhile]. rewrite (not_space_not_terminator c Hc). cbn. lia.
Qed.
Lemma match_at_chapter_line_greedy h mm ss ws1 d u c v :
  forallb is_digit h = true -> 1 <= length h <= 2 ->
  forallb is_digit mm = true -> length mm = 2 ->
  forallb is_digit ss = true -> length ss = 2 ->
  forallb is_space ws1 = true -> d = hyphen \/ d = en_dash ->
  dropWhile is_space u = c :: v ->
  exists whole,
    match_at chapter_line
      (h ++ colon :: mm ++ colon :: ss ++ ws1 ++ d :: u)
    = Some (set_cap 0 whole
              (line_captures h mm ss
                 (takeWhile (fun c => negb (is_line_terminator c)) (c :: v))),
            dropWhile (fun c => negb (is_line_terminator c)) (c :: v)).
Proof.
  intros Hh Hh1 Hm Hm1 Hs Hs1 Hw Hd Hu.
  assert (Hc : is_space c = false).
  { pose proof (dropWhile_stops is_space u) as H. now rewrite Hu in H. }
  assert (Hsp : forallb is_space (takeWhile is_space u) = true)
    by apply takeWhile_forallb.
  assert (Eu : u = takeWhile is_space u ++ c :: v)
    by (rewrite <- Hu; symmetry; apply take_drop_while).
  remember (takeWhile is_space u) as sp eqn:Esp. clear Esp. subst u.
  eexists. unfold match_at, chapter_line.
  rewrite exec_seq. eapply exec_grp_rep_take;
    [|exact Hh|lia|right; split; [reflexivity | lia]].
  rewrite exec_seq, exec_chr_take by apply N.eqb_refl.
  rewrite exec_seq. eapply exec_grp_rep_take;
    [|exact Hm|lia|left; now rewrite Hm1].
  rewrite exec_seq, exec_chr_take by apply N.eqb_refl.
  rewrite exec_seq. eapply exec_grp_rep_take;
    [|exact Hs|lia|left; now rewrite Hs1].
  rewrite exec_seq.
  eapply exec_rep_take;
    [|exact Hw|lia|right; split; [destruct Hd as [->| ->]; reflexivity|exact I]].
  rewrite exec_seq, exec_chr_take
    by (destruct Hd as [->| ->]; reflexivity).
  rewrite exec_seq.
  eapply exec_rep_take;
    [|exact Hsp|lia|right; split; [exact Hc|exact I]].
  rewrite <- (take_drop_while (fun c => negb (is_line_terminator c)) (c :: v)).
  eapply exec_grp_rep_take;
    [|apply takeWhile_forallb| |right; split; [apply dropWhile_stops|exact I]].
  - rewrite take_drop_while. unfold line_captures. reflexivity.
  - cbn [takeWhile]. rewrite (not_space_not_terminator c Hc). cbn. lia.
Qed.

(** ** The first chapter line of a line *)

Lemma search_at r : forall pre m caps rest,
  (forall pre1 s1, pre ++ m = pre1 ++ s1 -> length pre1 < length pre ->
                   match_at r s1 = None) ->
  match_at r m = Some (caps, rest) ->
  search r (pre ++ m) = Some (pre, caps, rest).
Proof.
  induction pre as [|c pre IH]; intros m caps rest Hleft Hm.
  - now apply search_here.
  - cbn [app search].
    rewrite (Hleft [] (c :: pre ++ m) eq_refl) by (cbn; lia).
    rewrite (IH m caps rest); [reflexivity| |exact Hm].
    intros pre1 s1 E Hl.
    apply (Hleft (c :: pre1)); [cbn [app]; now rewrite E | cbn; lia].
Qed.

Lemma search_leftmost r : forall s pre caps rest,
  search r s = Some (pre, caps, rest) ->
  forall pre1 s1, s = pre1 ++ s1 -> length pre1 < length pre ->
                  match_at r s1 = None.
Proof.
  induction s as [|c s IH]; intros pre caps rest H pre1 s1 E Hl;
    cbn [search] in H.
  - destruct (match_at r []) as [[? ?]|]; [|discriminate].
    injection H as <- _ _. cbn in Hl. lia.
  - destruct (match_at r (c :: s)) as [[caps0 rest0]|] eqn:E0.
    + injection H as <- _ _. cbn in Hl. lia.
    + destruct (search r s) as [[[pre' caps'] rest']|] eqn:Es; [|discriminate].
      injection H as <- <- <-.
      destruct pre1 as [|c1 pre1]; cbn [app] in E.
      * now rewrite <- E.
      * injection E as _ E. apply (IH _ _ _ eq_refl pre1 s1 E).
        cbn in Hl. lia.
Qed.

Lemma starts_chapter_line_match s :
  starts_chapter_line s <-> match_at chapter_line s <> None.
Proof.
  split.
  - intros (h & mm & ss & t & rest & H).
    eapply match_at_complete. apply chapter_line_run. exact H.
  - intros H. destruct (match_at chapter_line s) as [[caps rest]|] eqn:E;
      [|contradiction].
    apply match_at_sound in E as (caps' & Hr & _).
    apply run_chapter_line in Hr as (h & mm & ss & t & Hat & _).
    now exists h, mm, ss, t, rest.
Qed.

(** A run of characters of a class is determined by the first character
    outside the class. *)
Lemma run_unique (p : jschar -> bool) : forall a a' d d' x x',
  forallb p a = true -> forallb p a' = true ->
  p d = false -> p d' = false ->
  a ++ d :: x = a' ++ d' :: x' -> a = a' /\ d = d' /\ x = x'.
Proof.
  induction a as [|c a IH]; intros [|c' a'] d d' x x' Ha Ha' Hd Hd' E;
    cbn [app forallb] in *.
  - injection E as -> ->. auto.
  - injection E as -> _. apply andb_true_iff in Ha' as [Hc _]. congruence.
  - injection E as -> _. apply andb_true_iff in Ha as [Hc _]. congruence.
  - injection E as <- E. apply andb_true_iff in Ha as [_ Ha].
    apply andb_true_iff in Ha' as [_ Ha'].
    destruct (IH _ _ _ _ _ Ha Ha' Hd Hd' E) as (-> & -> & ->). auto.
Qed.

Lemma app_same_length {A} (a a' x x' : list A) :
  length a = length a' -> a ++ x = a' ++ x' -> a = a' /\ x = x'.
Proof.
  revert a'. induction a as [|c a IH]; intros [|c' a'] Hl E;
    cbn [length app] in *; try discriminate.
  - auto.
  - injection E as <- E. destruct (IH a' ltac:(lia) E) as [-> ->]. auto.
Qed.

Lemma dash_not_space d : d = hyphen \/ d = en_dash -> is_space d = false.
Proof. intros [->| ->]; reflexivity. Qed.

(** Two readings of a chapter line at the same place agree on the time
    and on what follows the dash. *)
Lemma chapter_line_time_unique h mm ss ws1 d u h' mm' ss' ws1' d' u' :
  forallb is_digit h = true -> forallb is_digit mm = true -> length mm = 2 ->
  length ss = 2 -> forallb is_space ws1 = true ->
  d = hyphen \/ d = en_dash ->
  forallb is_digit h' = true -> forallb is_digit mm' = true ->
  length mm' = 2 -> length ss' = 2 -> forallb is_space ws1' = true ->
  d' = hyphen \/ d' = en_dash ->
  h ++ colon :: mm ++ colon :: ss ++ ws1 ++ d :: u
  = h' ++ colon :: mm' ++ colon :: ss' ++ ws1' ++ d' :: u' ->
  h = h' /\ mm = mm' /\ ss = ss' /\ u = u'.
Proof.
  intros Hh Hm Hm1 Hs1 Hw Hd Hh' Hm' Hm1' Hs1' Hw' Hd' E.
  apply (run_unique is_digit) in E as (-> & _ & E);
    [|assumption|assumption|reflexivity|reflexivity].
  apply (run_unique is_digit) in E as (-> & _ & E);
    [|assumption|assumption|reflexivity|reflexivity].
  apply app_same_length in E as [-> E]; [|congruence].
  apply (run_unique is_space) in E as (_ & _ & ->);
    auto using dash_not_space.
Qed.

Lemma digit_range a : is_digit a = true -> (48 <= a <= 57)%N.
Proof.
  unfold is_digit. intros H. apply andb_prop in H as [H1 H2].
  apply N.leb_le in H1, H2. lia.
Qed.

Lemma two_digit_value a b :
  is_digit a = true -> is_digit b = true ->
  digits_value [a; b] = (10 * (a - 48) + (b - 48))%N.
Proof. intros _ _. unfold digits_value, digit_val. cbn [fold_left]. lia. Qed.

(** Printing the number of two digits and padding it gives the two
    digits back. *)
Lemma repad_two mm :
  forallb is_digit mm = true -> length mm = 2 ->
  padStart0 2 (nat_digits (digits_value mm)) = mm.
Proof.
  intros Hd Hl. destruct mm as [|a [|b [|c mm]]]; try discriminate.
  cbn [forallb] in Hd. apply andb_prop in Hd as [Ha Hb].
  rewrite andb_true_r in Hb. rewrite (two_digit_value a b Ha Hb).
  apply digit_range in Ha, Hb.
  destruct (N.eq_dec a 48) as [->|Hne].
  - rewrite nat_digits_lt10 by lia.
    change (padStart0 2 [(48 + (10 * (48 - 48) + (b - 48)))%N])
      with [48%N; (48 + (10 * (48 - 48) + (b - 48)))%N].
    f_equal. f_equal. lia.
  - rewrite nat_digits_lt100 by lia.
    rewrite <- (N.div_unique (10 * (a - 48) + (b - 48)) 10 (a - 48) (b - 48))
      by lia.
    rewrite <- (N.mod_unique (10 * (a - 48) + (b - 48)) 10 (a - 48) (b - 48))
      by lia.
    change (padStart0 2 [(48 + (a - 48))%N; (48 + (b - 48))%N])
      with [(48 + (a - 48))%N; (48 + (b - 48))%N].
    f_equal; [lia|]. f_equal. lia.
Qed.

Lemma nat_digits_unpad h :
  forallb is_digit h = true -> 1 <= length h <= 2 ->
  nat_digits (digits_value h) = unpad h.
Proof.
  intros Hd Hl. destruct h as [|a [|b [|c h]]]; cbn [length] in Hl; try lia.
  - cbn [forallb] in Hd. rewrite andb_true_r in Hd. apply digit_range in Hd.
    unfold digits_value, digit_val. cbn [fold_left unpad].
    rewrite nat_digits_lt10 by lia. f_equal. lia.
  - cbn [forallb] in Hd. apply andb_prop in Hd as [Ha Hb].
    rewrite andb_true_r in Hb. rewrite (two_digit_value a b Ha Hb).
    apply digit_range in Ha, Hb. cbn [unpad].
    destruct (N.eqb_spec a 48) as [->|Hne].
    + rewrite nat_digits_lt10 by lia. f_equal. lia.
    + rewrite nat_digits_lt100 by lia.
      rewrite <- (N.div_unique (10 * (a - 48) + (b - 48)) 10 (a - 48) (b - 48))
        by lia.
      rewrite <- (N.mod_unique (10 * (a - 48) + (b - 48)) 10 (a - 48) (b - 48))
        by lia.
      f_equal; [lia|]. f_equal. lia.
Qed.

Lemma num_string_nat n : num_string (Int (Z.of_N n)) = nat_digits n.
Proof.
  cbn [num_string]. rewrite toString_nonneg by lia. now rewrite N2Z.id.
Qed.

Lemma dropWhile_nil_iff (p : jschar -> bool) s :
  dropWhile p s = [] <-> forallb p s = true.
Proof.
  induction s as [|c s IH]; cbn [dropWhile forallb]; [tauto|].
  destruct (p c); cbn [andb]; [exact IH|]. split; discriminate.
Qed.

Lemma trim_spaces s : forallb is_space s = true -> trim s = [].
Proof.
  intros H. unfold trim. apply dropWhile_nil_iff in H. now rewrite H.
Qed.

(** What the pattern captures at the first chapter line. *)
Lemma match_at_first_chapter_line h mm ss ws1 d u :
  forallb is_digit h = true -> 1 <= length h <= 2 ->
  forallb is_digit mm = true -> length mm = 2 ->
  forallb is_digit ss = true -> length ss = 2 ->
  forallb is_space ws1 = true -> d = hyphen \/ d = en_dash ->
  (exists a c b,
     u = a ++ c :: b /\ forallb is_space a = true
     /\ is_line_terminator c = false) ->
  exists caps rest,
    match_at chapter_line (h ++ colon :: mm ++ colon :: ss ++ ws1 ++ d :: u)
    = Some (caps, rest)
    /\ get_cap 1 caps = h /\ get_cap 2 caps = mm /\ get_cap 3 caps = ss
    /\ trim (get_cap 4 caps)
       = trim (takeWhile (fun c => negb (is_line_terminator c))
                         (dropWhile is_space u)).
Proof.
  intros Hh Hh1 Hm Hm1 Hs Hs1 Hw Hd (a & c & b & Eu & Ha & Hc).
  destruct (dropWhile is_space u) as [|c0 v] eqn:Edrop.
  - (* nothing but white space after the dash *)
    set (s := h ++ colon :: mm ++ colon :: ss ++ ws1 ++ d :: u).
    assert (Hat : chapter_line_at s h mm ss [c] b).
    { exists ws1, d, a. subst s. rewrite Eu. cbn [app].
      repeat split; auto; try lia; try discriminate.
      cbn [forallb]. now rewrite Hc. }
    pose proof (match_at_complete _ _ _ _ (chapter_line_run _ _ _ _ _ _ Hat))
      as Hsome.
    destruct (match_at chapter_line s) as [[caps rest]|] eqn:E;
      [|contradiction].
    exists caps, rest. split; [reflexivity|].
    apply match_at_sound in E as (caps' & Hr & ->).
    apply run_chapter_line in Hr as (h' & mm' & ss' & t' & Hat' & ->).
    destruct Hat' as (ws1' & d' & ws2' & E' & Hh' & _ & Hm' & Hm1' & _ & Hs1'
                      & Hw' & Hd' & _ & _ & _).
    subst s.
    destruct (chapter_line_time_unique h mm ss ws1 d u h' mm' ss' ws1' d'
                (ws2' ++ t' ++ rest)) as (<- & <- & <- & Eu');
      try assumption.
    unfold line_captures.
    repeat (rewrite get_set_cap_other by discriminate).
    rewrite !get_set_cap_same.
    repeat (rewrite get_set_cap_other by discriminate).
    rewrite !get_set_cap_same.
    repeat (rewrite get_set_cap_other by discriminate).
    rewrite !get_set_cap_same.
    repeat (rewrite get_set_cap_other by discriminate).
    rewrite ?get_set_cap_same.
    repeat split. cbn [takeWhile]. apply dropWhile_nil_iff in Edrop.
    rewrite Eu', !forallb_app in Edrop.
    apply andb_prop in Edrop as [_ Edrop].
    apply andb_prop in Edrop as [Ht _].
    now rewrite (trim_spaces _ Ht).
  - destruct (match_at_chapter_line_greedy h mm ss ws1 d u c0 v)
      as (whole & E); try assumption.
    eexists. eexists. split; [exact E|]. unfold line_captures.
    repeat (rewrite get_set_cap_other by discriminate).
    rewrite !get_set_cap_same.
    repeat (rewrite get_set_cap_other by discriminate).
    rewrite !get_set_cap_same.
    repeat (rewrite get_set_cap_other by discriminate).
    rewrite !get_set_cap_same.
    repeat (rewrite get_set_cap_other by discriminate).
    rewrite ?get_set_cap_same.
    repeat split.
Qed.

(** C6. The generative parser accepts exactly the lines that contain
    [H:MM:SS], a hyphen or an en dash, and a title. An accepted line
    gives one chapter, read at the first place where such a chapter line
    starts: it shows the time with the hours unpadded, its seconds are
    [H * 3600 + MM * 60 + SS], and its title is the text after the dash up
    to the end of its line, trimmed, with every double star taken out, cut
    to 40 characters. Other lines give no chapter. *)
Theorem parse_line_spec (line : jsstring) :
  (parse_line line <> [] <-> matches_chapter_line line)
  /\ (~ matches_chapter_line line -> parse_line line = [])
  /\ (matches_chapter_line line ->
      exists pre h mm ss u, first_chapter_line line pre h mm ss u)
  /\ (forall pre h mm ss u,
        first_chapter_line line pre h mm ss u ->
        parse_line line
        = [mkChapter (unpad h ++ colon :: mm ++ colon :: ss)
             (spec_chapter_title u)
             (Int (Z.of_N (digits_value h) * 3600
                   + Z.of_N (digits_value mm) * 60
                   + Z.of_N (digits_value ss)))]
        /\ has_double_star (spec_chapter_title u) = false).
Proof.
  assert (Hiff : parse_line line <> [] <-> matches_chapter_line line).
  { rewrite <- contains_chapter_line, <- search_contains.
    unfold parse_line, str_match.
    destruct (search chapter_line line) as [[[pre m] rest]|].
    - split; intros _; discriminate.
    - split; intros H; exfalso; apply H; reflexivity. }
  split; [exact Hiff|]. split.
  { intros Hn. destruct (parse_line line) as [|c l] eqn:E; [reflexivity|].
    exfalso. apply Hn, Hiff. discriminate. }
  split.
  - intros Hm. apply contains_chapter_line, search_contains in Hm.
    destruct (search chapter_line line) as [[[pre caps] rest]|] eqn:E;
      [|contradiction].
    pose proof (search_leftmost _ _ _ _ _ E) as Hleft.
    apply search_sound in E as (m & -> & Hat).
    apply match_at_sound in Hat as (caps' & Hr & _).
    apply run_chapter_line in Hr as (h & mm & ss & t & Hat & _).
    destruct Hat as (ws1 & d & ws2 & -> & Hh & Hh1 & Hm2 & Hm1 & Hs & Hs1
                     & Hw & Hd & Hw2 & Hne & Ht).
    exists pre, h, mm, ss, (ws2 ++ t ++ rest), ws1, d.
    split; [reflexivity|]. repeat (split; [assumption|]).
    split.
    + destruct t as [|c t]; [contradiction|].
      exists ws2, c, (t ++ rest). split; [reflexivity|]. split; [exact Hw2|].
      cbn [forallb] in Ht. apply andb_prop in Ht as [Hc _].
      now apply negb_true_iff in Hc.
    + intros pre1 s1 E1 Hl Hst. apply starts_chapter_line_match in Hst.
      apply Hst. now apply (Hleft pre1 s1).
  - intros pre h mm ss u (ws1 & d & -> & Hh & Hh1 & Hm & Hm1 & Hs & Hs1
                          & Hw & Hd & Hu & Hleft).
    destruct (match_at_first_chapter_line h mm ss ws1 d u)
      as (caps & rest & E & E1 & E2 & E3 & E4); try assumption.
    split.
    + unfold parse_line, str_match. rewrite (search_at _ _ _ caps rest).
      * rewrite E1, E2, E3.
        rewrite !parseInt_two by
          (first [assumption | lia
                 | eapply nonempty_of_length; [|reflexivity]; lia]).
        pose proof (digits_value_two h Hh ltac:(lia)).
        pose proof (digits_value_two mm Hm ltac:(lia)).
        pose proof (digits_value_two ss Hs ltac:(lia)).
        rewrite hms_exact by (rewrite ?MAX_SAFE_INTEGER_eq; lia).
        rewrite !num_string_nat, replace_double_star, E4.
        rewrite (nat_digits_unpad h Hh Hh1), (repad_two mm Hm Hm1),
          (repad_two ss Hs Hs1).
        reflexivity.
      * intros pre1 s1 E' Hl.
        destruct (match_at chapter_line s1) eqn:En; [|reflexivity].
        exfalso. apply (Hleft pre1 s1 E' Hl).
        apply starts_chapter_line_match. congruence.
      * exact E.
    + apply shorten_clean, remove_pairs_clean.
Qed.

Lemma parse_line_spec_witness :
  parse_line (lit "12:34:56 - **Main** Topic")
  = [mkChapter (unpad (lit "12") ++ colon :: lit "34" ++ colon :: lit "56")
       (spec_chapter_title (lit " **Main** Topic"))
       (Int (Z.of_N (digits_value (lit "12")) * 3600
             + Z.of_N (digits_value (lit "34")) * 60
             + Z.of_N (digits_value (lit "56"))))]
  /\ has_double_star (spec_chapter_title (lit " **Main** Topic")) = false.
Proof.
  apply (proj2 (proj2 (proj2 (parse_line_spec
           (lit "12:34:56 - **Main** Topic")))) [] (lit "12") (lit "34")
           (lit "56") (lit " **Main** Topic")).
  exists [space], hyphen. split; [reflexivity|].
  split; [reflexivity|]. split; [cbn; lia|].
  split; [reflexivity|]. split; [reflexivity|].
  split; [reflexivity|]. split; [reflexivity|].
  split; [reflexivity|]. split; [now left|].
  split.
  - exists [space], 42%N, (lit "*Main** Topic").
    split; [reflexivity|]. split; reflexivity.
  - intros pre1 s1 _ Hl. cbn in Hl. lia.
Defined.

(** ** Bounded titles *)

Lemma shorten_length n t : 3 <= n -> length (shorten n t) <= n.
Proof.
  intros Hn. unfold shorten, substring0.
  destruct (Nat.ltb_spec n (length t)) as [H|H]; [|exact H].
  rewrite length_app, length_firstn. cbn. lia.
Qed.

Lemma shorten_long n t :
  n < length t -> shorten n t = firstn (n - 3) t ++ ellipsis.
Proof.
  intros H. unfold shorten, substring0.
  destruct (Nat.ltb_spec n (length t)); [reflexivity|lia].
Qed.

Lemma chapter_loop_in fuel data stride : forall i acc c,
  In c (chapter_loop fuel data stride i acc) ->
  In c acc \/ exists j sg, nth_error data j = Some sg /\ In c (visit (Some sg)).
Proof.
  induction fuel as [|f IH]; intros i acc c H; cbn [chapter_loop] in H;
    [now left|].
  destruct (i <? length data); [|now left].
  apply IH in H as [H|H]; [|now right].
  apply in_app_or in H as [H|H]; [now left|]. right.
  destruct (nth_error data i) as [sg|] eqn:E; [|contradiction].
  now exists i, sg.
Qed.

Lemma visit_title sg c :
  In c (visit (Some sg)) ->
  exists t, truthy (text sg) = Some t /\ title c = shorten 30 (chapterTitle t).
Proof.
  cbn [visit]. destruct (truthy (text sg)) as [t|]; [|contradiction].
  destruct (truthy (start_formatted sg)) as [st|]; [|contradiction].
  destruct (3 <? length (chapterTitle t)); [|contradiction].
  intros [<-|[]]. now exists t.
Qed.

Lemma conclusion_in data c :
  In c (conclusion data) -> title c = conclusion_title.
Proof.
  unfold conclusion. destruct data as [|sg0 data]; [contradiction|].
  destruct (nth_error _ _) as [lastSegment|]; [|contradiction].
  destruct (truthy (end_formatted lastSegment)); [|contradiction].
  now intros [<-|[]].
Qed.

Lemma parse_line_title line c :
  In c (parse_line line) ->
  exists m, str_match chapter_line line = Some m
            /\ title c = shorten 40 (remove_pairs (trim (get_cap 4 m))).
Proof.
  unfold parse_line. destruct (str_match chapter_line line) as [m|];
    [|contradiction].
  intros [<-|[]]. exists m. split; [reflexivity|].
  cbn [title]. now rewrite replace_double_star.
Qed.

(** C5 as stated fails: a generative chapter keeps a title of forty
    characters, which is more than thirty, without an ellipsis. *)
Lemma title_bound_counterexample :
  newTimestamps (lit "0:00:00 - " ++ forty_chars)
  = [mkChapter (lit "0:00:00") forty_chars (Int 0)]
  /\ length forty_chars = 40
  /\ ~ (forall c, In c (newTimestamps (lit "0:00:00 - " ++ forty_chars)) ->
                  length (title c) <= 30).
Proof.
  assert (E : newTimestamps (lit "0:00:00 - " ++ forty_chars)
              = [mkChapter (lit "0:00:00") forty_chars (Int 0)])
    by (vm_compute; reflexivity).
  split; [exact E|]. split; [reflexivity|].
  rewrite E. intros H. specialize (H _ (or_introl eq_refl)).
  cbn in H. lia.
Qed.

(** C5, amended. A structural chapter has a title of at most 30
    characters: the chapter title cut to 27 characters and an ellipsis when
    it is longer than 30, or the word Conclusion. A generative chapter has
    a title of at most 40 characters: the cleaned title cut to 37
    characters and an ellipsis when it is longer than 40. *)
Theorem title_bounds :
  (forall data c, In c (chapters data) ->
     exists raw,
       ((exists sg t, In sg data /\ truthy (text sg) = Some t
                      /\ raw = chapterTitle t)
        \/ raw = conclusion_title)
       /\ title c = shorten 30 raw
       /\ length (title c) <= 30
       /\ (30 < length raw -> title c = firstn 27 raw ++ ellipsis))
  /\ (forall answer c, In c (newTimestamps answer) ->
        exists line m raw,
          In line (split_on newline answer)
          /\ str_match chapter_line line = Some m
          /\ raw = remove_pairs (trim (get_cap 4 m))
          /\ title c = shorten 40 raw
          /\ length (title c) <= 40
          /\ (40 < length raw -> title c = firstn 37 raw ++ ellipsis)).
Proof.
  split.
  - intros data c H. unfold chapters in H. apply in_app_or in H as [H|H].
    + apply chapter_loop_in in H as [[]|(j & sg & Hj & H)].
      apply visit_title in H as (t & Ht & E).
      exists (chapterTitle t). split; [|split; [exact E|split]].
      * left. exists sg, t. split; [|auto]. eapply nth_error_In; eassumption.
      * rewrite E. apply shorten_length. lia.
      * intros Hl. rewrite E. now apply shorten_long.
    + apply conclusion_in in H. exists conclusion_title.
      split; [now right|]. rewrite H. split; [reflexivity|].
      split; [cbn; lia|]. cbn. lia.
  - intros answer c H. unfold newTimestamps in H.
    apply in_flat_map in H as (line & Hline & H).
    apply parse_line_title in H as (m & Hm & E).
    exists line, m, (remove_pairs (trim (get_cap 4 m))).
    repeat split; auto.
    + rewrite E. apply shorten_length. lia.
    + intros Hl. rewrite E. now apply shorten_long.
Qed.

Lemma title_bounds_witness :
  exists line m raw,
    In line (split_on newline (lit "0:00:00 - " ++ forty_chars))
    /\ str_match chapter_line line = Some m
    /\ raw = remove_pairs (trim (get_cap 4 m))
    /\ title (mkChapter (lit "0:00:00") forty_chars (Int 0)) = shorten 40 raw
    /\ length (title (mkChapter (lit "0:00:00") forty_chars (Int 0))) <= 40
    /\ (40 < length raw ->
        title (mkChapter (lit "0:00:00") forty_chars (Int 0))
        = firstn 37 raw ++ ellipsis).
Proof.
  apply (proj2 title_bounds (lit "0:00:00 - " ++ forty_chars)).
  vm_compute. left. reflexivity.
Defined.

(** ** Order of the structural chapters *)

Lemma num_leb_trans a b c :
  num_leb a b = true -> num_leb b c = true -> num_leb a c = true.
Proof.
  destruct a, b, c; cbn; try discriminate. intros H1 H2.
  apply Z.leb_le in H1, H2. apply Z.leb_le. lia.
Qed.

Lemma nondecreasing_cons2 a b l :
  nondecreasing (a :: b :: l) = num_leb a b && nondecreasing (b :: l).
Proof. reflexivity. Qed.

Lemma nondecreasing_snoc l x :
  nondecreasing l = true -> (forall y, In y l -> num_leb y x = true) ->
  nondecreasing (l ++ [x]) = true.
Proof.
  induction l as [|a l IH]; intros Hs Hle; [reflexivity|].
  destruct l as [|b l].
  - cbn. rewrite (Hle a (or_introl eq_refl)). reflexivity.
  - rewrite nondecreasing_cons2 in Hs. apply andb_true_iff in Hs as [H1 H2].
    change ((a :: b :: l) ++ [x]) with (a :: b :: (l ++ [x])).
    rewrite nondecreasing_cons2, H1. cbn [andb].
    apply IH; [exact H2|]. intros y Hy. apply Hle. now right.
Qed.

Lemma visit_seconds sg c :
  In c (visit (Some sg)) -> seconds c = start_time sg.
Proof.
  cbn [visit]. destruct (truthy (text sg)) as [t|]; [|contradiction].
  unfold start_time.
  destruct (start_formatted sg) as [[|x st]|]; cbn [truthy]; try contradiction.
  destruct (3 <? length (chapterTitle t)); [|contradiction].
  now intros [<-|[]].
Qed.

(** The chapters of the loop are in order, and each one carries the start
    of a segment before the current index. *)
Lemma chapter_loop_ordered data stride :
  start_ordered data -> 0 < stride ->
  forall fuel i acc,
    nondecreasing (map seconds acc) = true ->
    (forall c, In c acc ->
       exists j sg, j < i /\ nth_error data j = Some sg
                    /\ seconds c = start_time sg) ->
    let out := chapter_loop fuel data stride i acc in
    nondecreasing (map seconds out) = true
    /\ forall c, In c out ->
         exists j sg, nth_error data j = Some sg /\ seconds c = start_time sg.
Proof.
  intros Hord Hstride. induction fuel as [|f IH]; intros i acc Hs Hacc;
    cbn [chapter_loop].
  - split; [exact Hs|]. intros c Hc.
    destruct (Hacc c Hc) as (j & sg & _ & Hj & E). now exists j, sg.
  - destruct (Nat.ltb_spec i (length data)) as [Hi|Hi].
    2:{ split; [exact Hs|]. intros c Hc.
        destruct (Hacc c Hc) as (j & sg & _ & Hj & E). now exists j, sg. }
    destruct (nth_error data i) as [sg|] eqn:Ei;
      [|apply nth_error_None in Ei; lia].
    apply IH.
    + destruct (visit (Some sg)) as [|c0 [|c1 l]] eqn:Ev.
      * now rewrite app_nil_r.
      * rewrite map_app. cbn [map]. apply nondecreasing_snoc; [exact Hs|].
        intros y Hy. apply in_map_iff in Hy as (c & <- & Hc).
        destruct (Hacc c Hc) as (j & sgj & Hj & Ej & ->).
        rewrite (visit_seconds sg c0) by (rewrite Ev; now left).
        apply (Hord j i); [lia|exact Ej|exact Ei].
      * exfalso. cbn [visit] in Ev.
        destruct (truthy (text sg)); [|discriminate].
        destruct (truthy (start_formatted sg)); [|discriminate].
        destruct (3 <? length _); discriminate.
    + intros c Hc. apply in_app_or in Hc as [Hc|Hc].
      * destruct (Hacc c Hc) as (j & sgj & Hj & Ej & E).
        exists j, sgj. split; [lia|auto].
      * exists i, sg. split; [lia|]. split; [exact Ei|].
        now apply visit_seconds.
Qed.

Lemma last_segment_some data sg :
  last_segment data = Some sg -> data <> [] /\ exists init, data = init ++ [sg].
Proof.
  unfold last_segment. intros H.
  destruct data as [|s0 data] using rev_ind; [discriminate|].
  split; [now destruct data|].
  exists data. rewrite length_app in H. cbn [length] in H.
  rewrite nth_error_app2 in H by lia.
  replace (length data + 1 - 1 - length data) with 0 in H by lia.
  cbn in H. now injection H as ->.
Qed.

(** C2 as stated fails: the generative strategy keeps the order of the
    lines of the answer, whatever their times. *)
Lemma generative_order_counterexample :
  map seconds (newTimestamps sample_answer) = [Int 120; Int 60]
  /\ nondecreasing (map seconds (newTimestamps sample_answer)) = false.
Proof. split; vm_compute; reflexivity. Qed.

Lemma split_on_concat sep a b :
  split_on sep (a ++ sep :: b) = split_on sep a ++ split_on sep b.
Proof.
  induction a as [|c a IH]; cbn [app split_on].
  - now rewrite N.eqb_refl.
  - destruct (c =? sep)%N; [now rewrite IH|].
    rewrite IH. destruct (split_on sep a) as [|p ps] eqn:E; [|reflexivity].
    now apply split_on_nonempty in E.
Qed.

Lemma nondecreasing_pairwise l :
  forallb is_int l = true -> nondecreasing l = true ->
  forall i j a b,
    i <= j -> nth_error l i = Some a -> nth_error l j = Some b ->
    num_leb a b = true.
Proof.
  induction l as [|x l IH]; intros Hint Hs i j a b Hij Ha Hb.
  - destruct i; discriminate.
  - cbn [forallb] in Hint. apply andb_true_iff in Hint as [Hx Hint].
    assert (Hs' : nondecreasing l = true).
    { destruct l as [|y l]; [reflexivity|].
      rewrite nondecreasing_cons2 in Hs. now apply andb_true_iff in Hs. }
    destruct i as [|i], j as [|j]; try lia; cbn [nth_error] in Ha, Hb.
    + injection Ha as <-. injection Hb as <-.
      destruct x; [cbn; apply Z.leb_refl|discriminate].
    + injection Ha as <-. destruct l as [|y l]; [destruct j; discriminate|].
      rewrite nondecreasing_cons2 in Hs. apply andb_true_iff in Hs as [Hxy _].
      apply num_leb_trans with y; [exact Hxy|].
      apply (IH Hint Hs' 0 j); [lia|reflexivity|exact Hb].
    + apply (IH Hint Hs' i j); [lia|exact Ha|exact Hb].
Qed.

Lemma start_ordered_b_spec data :
  start_ordered_b data = true -> start_ordered data.
Proof.
  unfold start_ordered_b. intros H. apply andb_true_iff in H as [Hint Hs].
  intros i j a b Hij Ha Hb.
  apply (nondecreasing_pairwise _ Hint Hs i j); [exact Hij| |];
    rewrite nth_error_map; [now rewrite Ha|now rewrite Hb].
Qed.

(** The order of the structural chapters rests on the data model: a
    segment that ends before it starts puts the Conclusion before the
    chapter of that segment. *)
Example structural_order_data_model :
  let sg := mkSegment (Some (lit "plants need water"))
              (Some (lit "0:00:10")) (Some (lit "0:00:05")) in
  map seconds (chapters [sg]) = [Int 10; Int 5]
  /\ nondecreasing (map seconds (chapters [sg])) = false.
Proof. split; vm_compute; reflexivity. Qed.

(** The conclusion chapter, when the last segment has an end label. *)
Lemma conclusion_last data lastSegment e :
  last_segment data = Some lastSegment ->
  truthy (end_formatted lastSegment) = Some e ->
  conclusion data = [mkChapter e conclusion_title (end_time lastSegment)].
Proof.
  intros Hlast He.
  assert (Hend : end_time lastSegment = parseTimeToSeconds e).
  { unfold end_time. destruct (end_formatted lastSegment) as [[|x s]|];
      try discriminate. cbn in He. now injection He as <-. }
  unfold conclusion. fold (last_segment data). rewrite Hlast, He, Hend.
  destruct data; [discriminate Hlast | reflexivity].
Qed.

(** The conclusion is that chapter or nothing. *)
Lemma conclusion_cases data :
  conclusion data = []
  \/ exists lastSegment e,
       last_segment data = Some lastSegment
       /\ truthy (end_formatted lastSegment) = Some e
       /\ conclusion data
          = [mkChapter e conclusion_title (end_time lastSegment)].
Proof.
  destruct (last_segment data) as [sg|] eqn:Hlast.
  - destruct (truthy (end_formatted sg)) as [e|] eqn:He.
    + right. exists sg, e. split; [reflexivity|]. split; [exact He|].
      now apply conclusion_last.
    + left. unfold conclusion. fold (last_segment data).
      rewrite Hlast, He. now destruct data.
  - left. unfold conclusion. fold (last_segment data). rewrite Hlast.
    now destruct data.
Qed.

(** C2, amended. The final chapter of the structural strategy stands at the
    end time of the last segment whenever that segment has an end label.
    The structural chapters of a start-ordered transcript whose last
    segment does not end before it starts are in non-decreasing order of
    seconds. The generative chapters come in the order of the lines of the
    answer: nothing sorts them. *)
Theorem chapter_order :
  (forall data lastSegment e,
     last_segment data = Some lastSegment ->
     truthy (end_formatted lastSegment) = Some e ->
     exists init,
       chapters data
       = init ++ [mkChapter e conclusion_title (end_time lastSegment)])
  /\ (forall data,
        start_ordered_b data = true ->
        (forall lastSegment e,
           last_segment data = Some lastSegment ->
           truthy (end_formatted lastSegment) = Some e ->
           num_leb (start_time lastSegment) (end_time lastSegment) = true) ->
        nondecreasing (map seconds (chapters data)) = true)
  /\ (forall a b,
        newTimestamps (a ++ newline :: b) = newTimestamps a ++ newTimestamps b).
Proof.
  split; [|split].
  - intros data lastSegment e Hlast He.
    unfold chapters. rewrite (conclusion_last _ _ _ Hlast He).
    eexists; reflexivity.
  - intros data Hordb Hle.
    pose proof (start_ordered_b_spec _ Hordb) as Hord.
    destruct (chapter_loop_ordered data (Nat.max 50 (length data / 15)) Hord
                ltac:(lia) (length data) 0 [] eq_refl
                ltac:(intros c []))
      as [Hs Hin].
    unfold chapters.
    destruct (conclusion_cases data) as [->|(sg & e & Hlast & He & ->)];
      [now rewrite app_nil_r|].
    rewrite map_app. cbn [map seconds]. apply nondecreasing_snoc; [exact Hs|].
    intros y Hy. apply in_map_iff in Hy as (c & <- & Hcin).
    destruct (Hin c Hcin) as (j & sgj & Hj & ->).
    apply num_leb_trans with (start_time sg); [|exact (Hle sg e Hlast He)].
    apply (Hord j (length data - 1)); [|exact Hj|exact Hlast].
    assert (j < length data) by (apply nth_error_Some; congruence). lia.
  - intros a b. unfold newTimestamps.
    now rewrite split_on_concat, flat_map_app.
Qed.

Lemma chapter_order_witness :
  let sg1 := mkSegment (Some (lit "Tip 1: plants need water"))
               (Some (lit "0:00:00")) (Some (lit "0:00:04")) in
  let sg2 := mkSegment (Some (lit "and they need sunlight too"))
               (Some (lit "0:00:04")) (Some (lit "0:00:09")) in
  (exists init,
     chapters [sg1; sg2]
     = init ++ [mkChapter (lit "0:00:09") conclusion_title (end_time sg2)])
  /\ nondecreasing (map seconds (chapters [sg1; sg2])) = true.
Proof.
  split.
  - apply (proj1 chapter_order
             [mkSegment (Some (lit "Tip 1: plants need water"))
                (Some (lit "0:00:00")) (Some (lit "0:00:04"));
              mkSegment (Some (lit "and they need sunlight too"))
                (Some (lit "0:00:04")) (Some (lit "0:00:09"))]
             (mkSegment (Some (lit "and they need sunlight too"))
                (Some (lit "0:00:04")) (Some (lit "0:00:09")))
             (lit "0:00:09")); reflexivity.
  - apply (proj1 (proj2 chapter_order)
             [mkSegment (Some (lit "Tip 1: plants need water"))
                (Some (lit "0:00:00")) (Some (lit "0:00:04"));
              mkSegment (Some (lit "and they need sunlight too"))
                (Some (lit "0:00:04")) (Some (lit "0:00:09"))]).
    + reflexivity.
    + intros lastSegment e Hlast _. injection Hlast as <-. reflexivity.
Defined.

(** ** The lead-in patterns *)

Lemma exec_rlit_i {A} l : forall s caps (k : jsstring -> captures -> option A),
  exec (rlit_i l) s caps k
  = match strip_prefix_ci l s with
    | Some s' => k s' caps
    | None => None
    end.
Proof.
  induction l as [|a l IH]; intros s caps k; [reflexivity|].
  cbn [rlit_i exec strip_prefix_ci]. destruct s as [|c s]; [reflexivity|].
  destruct (canon c =? canon a)%N; [apply IH|reflexivity].
Qed.

Lemma returns_some f k s c : returns f k -> k s c <> None.
Proof. intros H E. specialize (H s c). rewrite E in H. discriminate. Qed.

Lemma exec_alts_returns f k : returns f k -> forall ps s c,
  option_map snd (exec (alts (map rlit_i ps)) s c k)
  = option_map f (first_strip ps s).
Proof.
  intros Hk. induction ps as [|p ps IH]; intros s c;
    [destruct s; reflexivity|].
  destruct ps as [|q ps].
  - cbn [map alts first_strip]. rewrite exec_rlit_i.
    destruct (strip_prefix_ci p s) as [r|]; [apply Hk|reflexivity].
  - change (alts (map rlit_i (p :: q :: ps)))
      with (Alt (rlit_i p) (alts (map rlit_i (q :: ps)))).
    cbn [exec first_strip]. rewrite exec_rlit_i.
    destruct (strip_prefix_ci p s) as [r|].
    + pose proof (returns_some f k r c Hk) as Hr.
      destruct (k r c) as [x|] eqn:E; [|contradiction].
      rewrite <- E. apply Hk.
    + apply IH.
Qed.

Lemma rep_greedy {A} p (k : jsstring -> option A) :
  (forall s', k s' <> None) -> forall s lo,
  rep p lo None s k
  = if lo <=? length (takeWhile p s) then k (dropWhile p s) else None.
Proof.
  intros Hk. induction s as [|c s IH]; intros lo.
  - cbn. destruct lo; reflexivity.
  - cbn [rep takeWhile dropWhile option_map]. destruct (p c) eqn:Hp.
    + rewrite IH. cbn [length].
      destruct lo as [|lo]; cbn [pred].
      * cbn [Nat.leb]. specialize (Hk (dropWhile p s)).
        destruct (k (dropWhile p s)); [reflexivity|contradiction].
      * change (S lo <=? S (length (takeWhile p s)))
          with (lo <=? length (takeWhile p s)).
        destruct (lo <=? length (takeWhile p s)); [|reflexivity].
        specialize (Hk (dropWhile p s)).
        destruct (k (dropWhile p s)); [reflexivity|contradiction].
    + destruct lo; reflexivity.
Qed.

Lemma returns_opt_colon f k :
  returns f k ->
  returns (fun s => f (strip_colon s))
          (fun s c => exec (Opt (Chr (N.eqb colon))) s c k).
Proof.
  intros Hk s c. cbn [exec]. unfold strip_colon.
  destruct s as [|x s]; [apply Hk|].
  rewrite (N.eqb_sym x colon). destruct (colon =? x)%N; [|apply Hk].
  pose proof (returns_some f k s c Hk) as Hr.
  destruct (k s c) as [y|] eqn:E; [|contradiction].
  rewrite <- E. apply Hk.
Qed.

Lemma strip_number_other x s :
  (x =? space)%N = false -> strip_number (x :: s) = x :: s.
Proof. intros H. destruct s; cbn [strip_number]; now rewrite ?H. Qed.

Lemma strip_number_digit d s :
  is_digit d = true ->
  strip_number (space :: d :: s) = dropWhile is_digit s.
Proof. intros H. cbn [strip_number]. now rewrite N.eqb_refl, H. Qed.

Lemma strip_number_no_digit d s :
  is_digit d = false -> strip_number (space :: d :: s) = space :: d :: s.
Proof. intros H. cbn [strip_number]. now rewrite H, andb_false_r. Qed.

Lemma returns_opt_number f k :
  returns f k ->
  returns (fun s => f (strip_number s))
          (fun s c =>
             exec (Opt (Grp 2 (Seq (Chr (N.eqb space)) (Rep is_digit 1 None))))
                  s c k).
Proof.
  intros Hk s c. cbn [exec].
  destruct s as [|x s]; [apply Hk|].
  destruct (N.eqb_spec space x) as [<-|Hx].
  - rewrite rep_greedy by (intros s'; apply (returns_some f k), Hk).
    destruct s as [|d s]; [apply Hk|].
    cbn [takeWhile dropWhile]. destruct (is_digit d) eqn:Hd.
    + rewrite strip_number_digit by exact Hd. cbn [length Nat.leb].
      match goal with
      | |- option_map snd match ?e with _ => _ end = _ =>
          destruct e as [y|] eqn:E
      end.
      * rewrite <- E. apply Hk.
      * exfalso. revert E. apply (returns_some f k), Hk.
    + rewrite strip_number_no_digit by exact Hd. apply Hk.
  - rewrite strip_number_other; [apply Hk|].
    apply N.eqb_neq. congruence.
Qed.

Lemma returns_final s0 :
  returns (fun s => s)
          (fun s' caps => Some (set_cap 0 (consumed s0 s') caps, s')).
Proof. intros s c. reflexivity. Qed.

Lemma replace_anchored_rest r s :
  replace_anchored r (fun _ => []) s
  = match option_map snd (match_at r s) with
    | Some rest => rest
    | None => s
    end.
Proof.
  unfold replace_anchored. destruct (match_at r s) as [[caps rest]|]; reflexivity.
Qed.

Lemma lead_in_strip s :
  option_map snd (match_at lead_in s) = first_strip lead_in_phrases s.
Proof.
  unfold match_at, lead_in. cbn [exec].
  change (alts _) with (alts (map rlit_i lead_in_phrases)).
  rewrite (exec_alts_returns (fun s => s)).
  - now destruct (first_strip lead_in_phrases s).
  - intros s' c. reflexivity.
Qed.

Lemma numbered_lead_in_strip s :
  option_map snd (match_at numbered_lead_in s)
  = option_map (fun r => strip_colon (strip_number r))
               (first_strip numbered_words s).
Proof.
  unfold match_at, numbered_lead_in. cbn [exec].
  change (alts _) with (alts (map rlit_i numbered_words)).
  rewrite (exec_alts_returns (fun r => strip_colon (strip_number r))).
  - reflexivity.
  - intros s' c.
    apply (returns_opt_number (fun s => strip_colon s)
             (fun s1 c1 => exec (Opt (Chr (N.eqb colon))) s1 c1
                (fun s2 caps => Some (set_cap 0 (consumed s s2) caps, s2)))).
    apply (returns_opt_colon (fun s => s)). apply returns_final.
Qed.

Lemma strip_lead_ins_spec t : strip_lead_ins t = spec_strip t.
Proof.
  unfold strip_lead_ins, spec_strip.
  rewrite !replace_anchored_rest, lead_in_strip, numbered_lead_in_strip.
  destruct (first_strip lead_in_phrases (trim t)) as [r|];
    destruct (first_strip numbered_words _); reflexivity.
Qed.

(** ** The loop over the buckets *)

Lemma first_of_buckets_wait size : forall wait l,
  first_of_buckets size wait l = first_of_buckets size 0 (skipn wait l).
Proof.
  induction wait as [|w IH]; intros l; [reflexivity|].
  destruct l as [|sg l]; [reflexivity|]. cbn [first_of_buckets skipn]. apply IH.
Qed.

Lemma skipn_nth_error (data : list segment) : forall i sg,
  nth_error data i = Some sg -> skipn i data = sg :: skipn (S i) data.
Proof.
  induction data as [|x data IH]; intros [|i] sg H; try discriminate.
  - now injection H as ->.
  - cbn [nth_error] in H. cbn [skipn]. rewrite (IH _ _ H). reflexivity.
Qed.

(** With enough fuel the loop visits the first segment of every bucket,
    whatever the fuel is. *)
Lemma chapter_loop_buckets data stride :
  0 < stride -> forall fuel i acc,
  length data <= i + fuel ->
  chapter_loop fuel data stride i acc
  = acc ++ flat_map (fun sg => visit (Some sg))
             (first_of_buckets stride 0 (skipn i data)).
Proof.
  intros Hs. induction fuel as [|f IH]; intros i acc Hf; cbn [chapter_loop].
  - rewrite skipn_all2 by lia. now rewrite app_nil_r.
  - destruct (Nat.ltb_spec i (length data)) as [Hi|Hi].
    + destruct (nth_error data i) as [sg|] eqn:E;
        [|apply nth_error_None in E; lia].
      rewrite IH by lia. rewrite (skipn_nth_error _ _ _ E).
      cbn [first_of_buckets flat_map].
      rewrite (first_of_buckets_wait stride (stride - 1)), skipn_skipn.
      replace (stride - 1 + S i) with (i + stride) by lia.
      now rewrite <- app_assoc.
    + rewrite skipn_all2 by lia. now rewrite app_nil_r.
Qed.

(** ** Stop words *)

Lemma plain_letter_range b :
  plain_letter b = true -> (97 <= b <= 122)%N /\ b <> 107%N.
Proof.
  unfold plain_letter. intros H. apply andb_prop in H as [H H3].
  apply andb_prop in H as [H1 H2]. apply N.leb_le in H1, H2.
  apply negb_true_iff, N.eqb_neq in H3. auto.
Qed.

Lemma same_letter_spec c b :
  plain_letter b = true ->
  same_letter c b = true <-> (c = b \/ (c + 32 = b)%N /\ (65 <= c <= 90)%N).
Proof.
  intros Hb. apply plain_letter_range in Hb as [[H1 H2] _].
  unfold same_letter.
  pose proof (proj2 (N.leb_le _ _) H1) as E1.
  pose proof (proj2 (N.leb_le _ _) H2) as E2.
  rewrite E1, E2. cbn [andb]. rewrite orb_true_iff, !N.eqb_eq. split.
  - intros [-> | ->]; [now left | right; lia].
  - intros [-> | [<- _]]; [now left | right; lia].
Qed.

Lemma lower_unit_spec c b l :
  plain_letter b = true ->
  match l with x :: _ => plain_letter x = true | [] => True end ->
  forall L, lower_unit c ++ L = b :: l <-> same_letter c b = true /\ L = l.
Proof.
  intros Hb Hl L. rewrite (same_letter_spec c b Hb).
  apply plain_letter_range in Hb as [[H1 H2] H3].
  unfold lower_unit.
  destruct (N.leb_spec 65 c) as [Ha|Ha];
    [destruct (N.leb_spec c 90) as [Hz|Hz]|]; cbn [andb].
  - cbn [app]. split.
    + intros [= E ->]. split; [right; split; [exact E | lia] | reflexivity].
    + intros [[-> | [E _]] ->]; [lia | now rewrite E].
  - destruct (N.eqb_spec c 8490) as [->|H8]; [|destruct (N.eqb_spec c 304)
      as [->|H304]]; cbn [app].
    + split; [intros [= E _]; congruence | intros [[E | [E _]] _]; lia].
    + split; [|intros [[E | [E _]] _]; lia].
      intros [= E E']. destruct l as [|x l]; [discriminate E'|].
      injection E' as <- _. discriminate Hl.
    + split.
      * intros [= -> ->]. split; [now left | reflexivity].
      * intros [[-> | [_ E]] ->]; [reflexivity | lia].
  - destruct (N.eqb_spec c 8490) as [->|H8]; [lia|].
    destruct (N.eqb_spec c 304) as [->|H304]; [lia|]. cbn [app]. split.
    + intros [= -> ->]. split; [now left | reflexivity].
    + intros [[-> | [_ E]] ->]; [reflexivity | lia].
Qed.

(** Lower-casing a word gives a stop word exactly when the word is that
    stop word in small or capital letters. *)
Lemma toLowerCase_same_word : forall sw w,
  forallb plain_letter sw = true ->
  toLowerCase w = sw <-> same_word w sw = true.
Proof.
  intros sw w. revert sw. induction w as [|c w IH]; intros sw Hsw.
  - destruct sw; cbn; split; congruence.
  - unfold toLowerCase in *. cbn [flat_map same_word].
    destruct sw as [|b sw].
    + split; [|discriminate]. unfold lower_unit.
      destruct ((65 <=? c)%N && (c <=? 90)%N); [discriminate|].
      destruct (c =? 8490)%N; [discriminate|].
      destruct (c =? 304)%N; discriminate.
    + cbn [forallb] in Hsw. apply andb_prop in Hsw as [Hb Hsw].
      rewrite (lower_unit_spec c b sw Hb).
      * rewrite andb_true_iff, (IH sw Hsw). reflexivity.
      * destruct sw as [|x sw]; [exact I|]. cbn [forallb] in Hsw.
        now apply andb_prop in Hsw.
Qed.

Lemma includes_stop_words w :
  includes stop_words (toLowerCase w) = is_stop_word w.
Proof.
  unfold includes, is_stop_word.
  change spec_stop_words with stop_words.
  assert (Hall : forallb (forallb plain_letter) stop_words = true)
    by reflexivity.
  induction stop_words as [|sw l IH]; [reflexivity|].
  cbn [forallb] in Hall. apply andb_prop in Hall as [Hsw Hl].
  cbn [existsb]. rewrite (IH Hl). f_equal.
  pose proof (toLowerCase_same_word sw w Hsw) as H.
  unfold str_eqb. destruct (list_eq_dec N.eq_dec (toLowerCase w) sw) as [E|E].
  - symmetry. now apply H.
  - destruct (same_word w sw); [|reflexivity]. exfalso. now apply E, H.
Qed.

(** The filter of the source keeps the significant words. *)
Lemma significant_spec w : significant w = spec_significant w.
Proof.
  unfold significant, spec_significant. now rewrite includes_stop_words.
Qed.

Lemma filter_significant l :
  filter significant l = filter spec_significant l.
Proof. apply filter_ext. intros w. apply significant_spec. Qed.

Lemma visit_spec sg : visit (Some sg) = spec_chapter sg.
Proof.
  unfold visit, spec_chapter, chapterTitle, spec_title.
  destruct (truthy (text sg)) as [t|]; [|reflexivity].
  destruct (truthy (start_formatted sg)) as [st|]; [|reflexivity].
  rewrite strip_lead_ins_spec, filter_significant.
  set (ti := join space _). rewrite Nat.leb_antisym.
  now destruct (3 <? length ti).
Qed.

Lemma conclusion_spec data : conclusion data = spec_conclusion data.
Proof.
  unfold conclusion, spec_conclusion.
  destruct data as [|sg data] using rev_ind; [reflexivity|].
  rewrite rev_app_distr. cbn [rev app].
  rewrite length_app. cbn [length].
  rewrite nth_error_app2 by lia.
  replace (length data + 1 - 1 - length data) with 0 by lia. cbn [nth_error].
  now destruct data.
Qed.

(** C7. The chapters that the structural strategy builds are those of its
    description: the first segment of every bucket of [max(50, n/15)]
    segments, titled by its first three significant words after the
    lead-ins are stripped, skipped when that title has at most three
    characters, and a final Conclusion chapter at the end time of the last
    segment. (The title is stored cut to 30 characters.) *)
Theorem structural_refines (data : list segment) :
  chapters data = structural_spec data.
Proof.
  unfold chapters, structural_spec.
  rewrite chapter_loop_buckets by lia.
  cbn [skipn app]. rewrite conclusion_spec. f_equal.
  apply flat_map_ext. intros sg. apply visit_spec.
Qed.

(** ** Fixed-shape patterns *)

Lemma match_template_inv T : forall s m,
  match_template T s = Some m ->
  exists rest, s = m ++ rest /\ Forall2 (fun p c => p c = true) T m.
Proof.
  induction T as [|p T IH]; intros s m H; cbn [match_template] in H.
  - injection H as <-. exists s. split; [reflexivity|constructor].
  - destruct s as [|c s]; [discriminate|]. destruct (p c) eqn:Hp; [|discriminate].
    destruct (match_template T s) as [m'|] eqn:E; [|discriminate].
    injection H as <-. destruct (IH _ _ E) as (rest & -> & HF).
    exists rest. split; [reflexivity|now constructor].
Qed.

Lemma match_template_fits T : forall m rest,
  Forall2 (fun p c => p c = true) T m ->
  match_template T (m ++ rest) = Some m.
Proof.
  induction T as [|p T IH]; intros m rest H; inversion H; subst;
    [reflexivity|].
  cbn [app match_template].
  match goal with Hp : p _ = true |- _ => rewrite Hp end.
  now rewrite IH.
Qed.

Lemma time_shape_cases h mm ss :
  time_shape h mm ss ->
  exists m1 m2 s1 s2,
    mm = [m1; m2] /\ ss = [s1; s2]
    /\ is_digit m1 = true /\ is_digit m2 = true
    /\ is_digit s1 = true /\ is_digit s2 = true
    /\ ((exists h1, h = [h1] /\ is_digit h1 = true)
        \/ (exists h1 h2, h = [h1; h2] /\ is_digit h1 = true
                          /\ is_digit h2 = true)).
Proof.
  intros (Hh & Hh1 & Hm & Hm1 & Hs & Hs1).
  destruct mm as [|m1 [|m2 [|]]]; try discriminate.
  destruct ss as [|s1 [|s2 [|]]]; try discriminate.
  cbn [forallb] in Hm, Hs. rewrite !andb_true_iff in Hm, Hs.
  exists m1, m2, s1, s2. repeat split; try tauto.
  destruct h as [|h1 [|h2 [|]]]; cbn [length] in Hh1; try lia;
    cbn [forallb] in Hh; rewrite !andb_true_iff in Hh.
  - left. exists h1. tauto.
  - right. exists h1, h2. tauto.
Qed.

Lemma digit_not_colon d : is_digit d = true -> (colon =? d)%N = false.
Proof. intros H. rewrite N.eqb_sym. now apply is_digit_not_colon. Qed.

Lemma colon_not_digit : is_digit colon = false.
Proof. reflexivity. Qed.

(** A citation at the start of a text is what the templates find there. *)
Lemma first_template_cite h mm ss rest :
  time_shape h mm ss ->
  first_template citation_templates (cite h mm ss ++ rest)
  = Some (cite h mm ss).
Proof.
  intros H. apply time_shape_cases in H
    as (m1 & m2 & s1 & s2 & -> & -> & Hm1 & Hm2 & Hs1 & Hs2 & Hh).
  destruct Hh as [(h1 & -> & Hh1)|(h1 & h2 & -> & Hh1 & Hh2)].
  - change (cite [h1] [m1; m2] [s1; s2])
      with [lparen; h1; colon; m1; m2; colon; s1; s2; rparen].
    unfold citation_templates. cbn [first_template].
    match goal with
    | |- match ?e with _ => _ end = _ =>
        assert (E10 : e = None)
          by (cbn [match_template app];
              rewrite N.eqb_refl, Hh1, colon_not_digit; reflexivity);
        rewrite E10
    end.
    rewrite match_template_fits; [reflexivity|].
    repeat constructor; auto.
  - change (cite [h1; h2] [m1; m2] [s1; s2])
      with [lparen; h1; h2; colon; m1; m2; colon; s1; s2; rparen].
    unfold citation_templates. cbn [first_template].
    rewrite match_template_fits; [reflexivity|].
    repeat constructor; auto.
Qed.

Ltac forall2_inv H :=
  repeat match type of H with
         | Forall2 _ (_ :: _) _ =>
             let c := fresh "c" in let m := fresh "m" in
             let Hc := fresh "Hc" in
             inversion H as [|? c ? m Hc H']; subst; clear H; rename H' into H
         | Forall2 _ [] _ => inversion H; subst; clear H
         end.

Lemma first_template_citation s m :
  first_template citation_templates s = Some m ->
  exists h mm ss rest,
    time_shape h mm ss /\ m = cite h mm ss /\ s = m ++ rest.
Proof.
  unfold citation_templates. cbn [first_template].
  destruct (match_template _ s) as [m10|] eqn:E10.
  - intros H. injection H as <-.
    apply match_template_inv in E10 as (rest & -> & HF).
    forall2_inv HF.
    repeat match goal with
           | H : (_ =? _)%N = true |- _ => apply N.eqb_eq in H; subst
           end.
    exists [c0; c1], [c3; c4], [c6; c7], rest.
    unfold time_shape, cite. cbn [forallb length app].
    repeat match goal with H : is_digit _ = true |- _ => rewrite H end.
    repeat split; auto.
  - match goal with
    | |- context [match_template ?T s] =>
        destruct (match_template T s) as [m9|] eqn:E9
    end; [|intros H; discriminate H].
    intros H. injection H as <-.
    apply match_template_inv in E9 as (rest & -> & HF).
    forall2_inv HF.
    repeat match goal with
           | H : (_ =? _)%N = true |- _ => apply N.eqb_eq in H; subst
           end.
    exists [c0], [c2; c3], [c5; c6], rest.
    unfold time_shape, cite. cbn [forallb length app].
    repeat match goal with H : is_digit _ = true |- _ => rewrite H end.
    repeat split; auto.
Qed.

(** ** The citation pattern *)

Lemma cite_app h mm ss rest :
  cite h mm ss ++ rest
  = lparen :: h ++ colon :: mm ++ colon :: ss ++ rparen :: rest.
Proof.
  unfold cite. cbn [app]. f_equal. rewrite <- app_assoc. cbn [app].
  do 2 f_equal. rewrite <- app_assoc. cbn [app]. do 2 f_equal.
  rewrite <- app_assoc. reflexivity.
Qed.

Lemma run_citation s rest caps :
  run citation s [] rest caps ->
  exists h mm ss,
    time_shape h mm ss /\ s = cite h mm ss ++ rest
    /\ caps = set_cap 3 ss (set_cap 2 mm (set_cap 1 h [])).
Proof.
  unfold citation. intros H.
  apply run_seq_inv in H as (s0 & c0 & H0 & H).
  apply run_chr_inv in H0 as (x & -> & Hx & ->). apply N.eqb_eq in Hx. subst x.
  apply run_seq_inv in H as (s1 & c1 & H1 & H).
  apply run_grp_rep_inv in H1 as (h & -> & Hh & Hh1 & Hh2 & ->).
  apply run_seq_inv in H as (s2 & c2 & H2 & H).
  apply run_chr_inv in H2 as (x & -> & Hx & ->). apply N.eqb_eq in Hx. subst x.
  apply run_seq_inv in H as (s3 & c3 & H3 & H).
  apply run_grp_rep_inv in H3 as (mm & -> & Hm & Hm1 & Hm2 & ->).
  apply run_seq_inv in H as (s4 & c4 & H4 & H).
  apply run_chr_inv in H4 as (x & -> & Hx & ->). apply N.eqb_eq in Hx. subst x.
  apply run_seq_inv in H as (s5 & c5 & H5 & H).
  apply run_grp_rep_inv in H5 as (ss & -> & Hs & Hs1 & Hs2 & ->).
  apply run_chr_inv in H as (x & -> & Hx & ->). apply N.eqb_eq in Hx. subst x.
  exists h, mm, ss. split; [unfold time_shape; repeat split; auto; lia|].
  split; [|reflexivity]. now rewrite cite_app.
Qed.

Lemma citation_run h mm ss rest :
  time_shape h mm ss ->
  run citation (cite h mm ss ++ rest) [] rest
      (set_cap 3 ss (set_cap 2 mm (set_cap 1 h []))).
Proof.
  intros (Hh & Hh1 & Hm & Hm1 & Hs & Hs1). rewrite cite_app.
  unfold citation.
  eapply run_seq; [apply run_chr, N.eqb_refl|].
  eapply run_seq; [apply run_grp_rep; [exact Hh|lia|simpl; lia]|].
  eapply run_seq; [apply run_chr, N.eqb_refl|].
  eapply run_seq; [apply run_grp_rep; [exact Hm|lia|simpl; lia]|].
  eapply run_seq; [apply run_chr, N.eqb_refl|].
  eapply run_seq; [apply run_grp_rep; [exact Hs|lia|simpl; lia]|].
  apply run_chr, N.eqb_refl.
Qed.

(** What the matcher finds at a position is what the templates find. *)
Lemma match_at_citation s caps rest :
  match_at citation s = Some (caps, rest) ->
  exists h mm ss,
    time_shape h mm ss /\ s = cite h mm ss ++ rest
    /\ get_cap 0 caps = cite h mm ss
    /\ placeholder_html caps = span_open ++ label h mm ss ++ span_close
    /\ first_template citation_templates s = Some (cite h mm ss).
Proof.
  intros H. apply match_at_sound in H as (caps' & Hr & ->).
  apply run_citation in Hr as (h & mm & ss & Hsh & -> & ->).
  exists h, mm, ss. split; [exact Hsh|]. split; [reflexivity|].
  rewrite get_set_cap_same, consumed_app. split; [reflexivity|].
  split; [|now apply first_template_cite].
  unfold placeholder_html, label.
  repeat (rewrite get_set_cap_other by discriminate).
  rewrite !get_set_cap_same.
  repeat (rewrite get_set_cap_other by discriminate).
  rewrite !get_set_cap_same.
  repeat (rewrite get_set_cap_other by discriminate).
  rewrite !get_set_cap_same.
  rewrite <- !app_assoc. cbn [app]. rewrite <- !app_assoc. reflexivity.
Qed.

Lemma match_at_citation_none s :
  match_at citation s = None -> first_template citation_templates s = None.
Proof.
  intros H. destruct (first_template citation_templates s) as [m|] eqn:E;
    [|reflexivity].
  apply first_template_citation in E as (h & mm & ss & rest & Hsh & -> & ->).
  exfalso. revert H. eapply match_at_complete. now apply citation_run.
Qed.

(** ** Occurrences and what separates them *)

Lemma fails_within_sound T : forall D,
  fails_within T D = true -> forall b, match_template T (D ++ b) = None.
Proof.
  induction T as [|p T IH]; intros D H b; [discriminate|].
  destruct D as [|c D]; [discriminate|]. cbn [fails_within] in H.
  cbn [app match_template]. destruct (p c); [|reflexivity].
  now rewrite IH.
Qed.

Lemma all_fail_found Ts c D b :
  forallb (fun T => fails_within T (c :: D)) Ts = true ->
  found Ts ((c :: D) ++ b) = [].
Proof.
  unfold found. induction Ts as [|T Ts IH]; intros H; [reflexivity|].
  cbn [forallb] in H. apply andb_true_iff in H as [H1 H2].
  cbn [first_template]. rewrite (fails_within_sound _ _ H1). now apply IH.
Qed.

Lemma occurrences_all_fail Ts b : forall D,
  all_fail Ts D = true -> occurrences Ts (D ++ b) = occurrences Ts b.
Proof.
  induction D as [|c D IH]; intros H; [reflexivity|].
  cbn [all_fail] in H. apply andb_true_iff in H as [H1 H2].
  change ((c :: D) ++ b) with (c :: D ++ b) at 1. cbn [occurrences].
  change (c :: D ++ b) with ((c :: D) ++ b).
  rewrite (all_fail_found _ _ _ _ H1). now apply IH.
Qed.

Lemma match_template_reject T d y :
  forallb (fun p : jschar -> bool => negb (p d)) T = true ->
  forall x, match_template T (x ++ d :: y) = match_template T x.
Proof.
  induction T as [|p T IH]; intros H x; [reflexivity|].
  cbn [forallb] in H. apply andb_true_iff in H as [Hd H].
  apply negb_true_iff in Hd.
  destruct x as [|c x]; cbn [app match_template].
  - now rewrite Hd.
  - destruct (p c); [|reflexivity]. now rewrite IH.
Qed.

Lemma found_reject Ts d y c x :
  tail_rejects Ts d = true ->
  found Ts ((c :: x) ++ d :: y) = found Ts (c :: x).
Proof.
  unfold found, tail_rejects. induction Ts as [|T Ts IH]; intros H;
    [reflexivity|].
  cbn [forallb] in H. apply andb_true_iff in H as [H1 H2].
  cbn [first_template].
  assert (E : match_template T ((c :: x) ++ d :: y) = match_template T (c :: x)).
  { destruct T as [|p T]; [reflexivity|]. cbn [tl] in H1.
    cbn [app match_template]. destruct (p c); [|reflexivity].
    now rewrite match_template_reject. }
  rewrite E. destruct (match_template T (c :: x)); [reflexivity|].
  specialize (IH H2).
  destruct (first_template Ts ((c :: x) ++ d :: y)),
           (first_template Ts (c :: x)); congruence.
Qed.

(** The occurrences on the two sides of a break are those of the whole. *)
Lemma occurrences_break Ts D b :
  is_break Ts D = true -> forall a,
  occurrences Ts (a ++ D ++ b) = occurrences Ts a ++ occurrences Ts b.
Proof.
  unfold is_break. destruct D as [|d D]; [discriminate|]. intros H.
  apply andb_true_iff in H as [Hd Hall].
  induction a as [|c a IH].
  - cbn [app occurrences]. now apply (occurrences_all_fail Ts b (d :: D)).
  - change ((c :: a) ++ (d :: D) ++ b) with (c :: a ++ (d :: D) ++ b).
    cbn [occurrences]. rewrite IH, <- app_assoc. f_equal.
    change (c :: a ++ (d :: D) ++ b) with ((c :: a) ++ d :: (D ++ b)).
    now apply found_reject.
Qed.

(** A delimited piece and its tagged replacement have the same
    occurrences, in any context. *)
Lemma occurrences_retag Ts D1 D2 R1 R2 :
  is_break Ts D1 = true -> is_break Ts D2 = true ->
  is_break Ts R1 = true -> is_break Ts R2 = true ->
  forall X p q,
  occurrences Ts (p ++ (D1 ++ X ++ D2) ++ q)
  = occurrences Ts (p ++ (R1 ++ X ++ R2) ++ q).
Proof.
  intros HD1 HD2 HR1 HR2 X p q.
  rewrite <- !app_assoc.
  rewrite (occurrences_break Ts D1 _ HD1), (occurrences_break Ts D2 _ HD2).
  rewrite (occurrences_break Ts R1 _ HR1), (occurrences_break Ts R2 _ HR2).
  reflexivity.
Qed.

(** A global replacement whose matches and replacements have the same
    occurrences leaves the occurrences of the text as they are. *)
Lemma replace_all_occurrences Ts r repl :
  (forall s caps rest,
     match_at r s = Some (caps, rest) ->
     get_cap 0 caps <> []
     /\ forall p q, occurrences Ts (p ++ get_cap 0 caps ++ q)
                    = occurrences Ts (p ++ repl caps ++ q)) ->
  forall s p,
    occurrences Ts (p ++ replace_all r repl s) = occurrences Ts (p ++ s).
Proof.
  intros Hr. induction s as [s IH] using list_length_ind. intros p.
  destruct (match_at r s) as [[caps rest]|] eqn:E.
  - destruct (Hr _ _ _ E) as [Hne Hocc].
    rewrite (replace_all_here r repl s caps rest E Hne).
    pose proof (match_at_split _ _ _ _ E) as Hs.
    rewrite app_assoc, IH, <- app_assoc.
    + rewrite <- Hocc. now rewrite <- Hs.
    + rewrite Hs, length_app.
      destruct (get_cap 0 caps); [contradiction|cbn; lia].
  - destruct s as [|c s]; [now rewrite replace_all_nil|].
    rewrite replace_all_skip by exact E.
    change (p ++ c :: replace_all r repl s)
      with (p ++ [c] ++ replace_all r repl s).
    rewrite app_assoc, IH by (cbn; lia).
    now rewrite <- app_assoc.
Qed.

Lemma run_rlit l : forall s caps s' caps',
  run (rlit l) s caps s' caps' -> s = l ++ s' /\ caps' = caps.
Proof.
  induction l as [|a l IH]; intros s caps s' caps' H; cbn [rlit] in H.
  - apply run_eps_inv in H as [-> ->]. auto.
  - apply run_seq_inv in H as (s1 & c1 & H1 & H).
    apply run_chr_inv in H1 as (x & -> & Hx & ->). apply N.eqb_eq in Hx. subst x.
    apply IH in H as [-> ->]. auto.
Qed.

(** ** The emphasis patterns *)

Lemma match_at_bold s caps rest :
  match_at bold s = Some (caps, rest) ->
  exists X,
    get_cap 0 caps = [star; star] ++ X ++ [star; star]
    /\ bold_html caps = strong_open ++ X ++ strong_close.
Proof.
  intros H. apply match_at_sound in H as (caps' & Hr & ->).
  unfold bold in Hr.
  apply run_seq_inv in Hr as (s1 & c1 & H1 & Hr).
  apply run_rlit in H1 as [-> ->].
  apply run_seq_inv in Hr as (s2 & c2 & H2 & Hr).
  apply run_grp_rep_inv in H2 as (X & -> & _ & _ & _ & ->).
  apply run_rlit in Hr as [-> ->].
  exists X. rewrite get_set_cap_same. split.
  - rewrite (app_assoc X), (app_assoc [star; star]).
    now rewrite consumed_app.
  - unfold bold_html. rewrite get_set_cap_other by discriminate.
    now rewrite get_set_cap_same.
Qed.

Lemma match_at_italic s caps rest :
  match_at italic s = Some (caps, rest) ->
  exists X,
    get_cap 0 caps = [star] ++ X ++ [star]
    /\ italic_html caps = em_open ++ X ++ em_close.
Proof.
  intros H. apply match_at_sound in H as (caps' & Hr & ->).
  unfold italic in Hr.
  apply run_seq_inv in Hr as (s1 & c1 & H1 & Hr).
  apply run_chr_inv in H1 as (x & -> & Hx & ->). apply N.eqb_eq in Hx. subst x.
  apply run_seq_inv in Hr as (s2 & c2 & H2 & Hr).
  apply run_grp_rep_inv in H2 as (X & -> & _ & _ & _ & ->).
  apply run_chr_inv in Hr as (x & -> & Hx & ->). apply N.eqb_eq in Hx. subst x.
  exists X. rewrite get_set_cap_same. split.
  - change (star :: X ++ star :: rest) with ([star] ++ X ++ [star] ++ rest).
    rewrite (app_assoc X), (app_assoc [star]).
    now rewrite consumed_app.
  - unfold italic_html. rewrite get_set_cap_other by discriminate.
    now rewrite get_set_cap_same.
Qed.

Lemma nonempty_app_l (a b : jsstring) : a <> [] -> a ++ b <> [].
Proof. destruct a; [contradiction|discriminate]. Qed.

(** The two emphasis passes leave the occurrences of citations, and of
    the start of the placeholder markup, as they are. *)
Lemma emphasis_occurrences Ts :
  is_break Ts [star; star] = true -> is_break Ts [star] = true ->
  is_break Ts strong_open = true -> is_break Ts strong_close = true ->
  is_break Ts em_open = true -> is_break Ts em_close = true ->
  forall t,
  occurrences Ts (replace_all italic italic_html (replace_all bold bold_html t))
  = occurrences Ts t.
Proof.
  intros B1 B2 B3 B4 B5 B6 t.
  transitivity (occurrences Ts (replace_all bold bold_html t)).
  - apply (replace_all_occurrences Ts italic italic_html) with (p := []).
    intros s caps rest H. apply match_at_italic in H as (X & -> & ->).
    split; [discriminate|]. intros p q. now apply occurrences_retag.
  - apply (replace_all_occurrences Ts bold bold_html) with (p := []).
    intros s caps rest H. apply match_at_bold in H as (X & -> & ->).
    split; [discriminate|]. intros p q. now apply occurrences_retag.
Qed.

Lemma emphasis_citations t :
  occurrences citation_templates
    (replace_all italic italic_html (replace_all bold bold_html t))
  = occurrences citation_templates t.
Proof. apply emphasis_occurrences; reflexivity. Qed.

Lemma emphasis_no_markup t :
  no_markup (replace_all italic italic_html (replace_all bold bold_html t))
  = no_markup t.
Proof. unfold no_markup. rewrite emphasis_occurrences; reflexivity. Qed.

(** ** The placeholder pass *)

Lemma placeholders_nil : placeholders [] = [].
Proof. apply replace_all_nil. reflexivity. Qed.

Lemma placeholders_skip c s :
  match_at citation (c :: s) = None ->
  placeholders (c :: s) = c :: placeholders s.
Proof. apply replace_all_skip. Qed.

Lemma placeholders_here s caps rest :
  match_at citation s = Some (caps, rest) ->
  exists h mm ss,
    time_shape h mm ss /\ s = cite h mm ss ++ rest
    /\ placeholders s = marker h mm ss ++ placeholders rest.
Proof.
  intros H. pose proof (match_at_citation _ _ _ H)
    as (h & mm & ss & Hsh & Hs & H0 & Hp & _).
  exists h, mm, ss. split; [exact Hsh|]. split; [exact Hs|].
  unfold placeholders. rewrite (replace_all_here _ _ _ _ _ H).
  - now rewrite Hp.
  - rewrite H0. discriminate.
Qed.

(** A character other than [<] in the output was copied from the input. *)
Lemma placeholders_head s x t :
  placeholders s = x :: t -> x <> 60%N ->
  exists s', s = x :: s' /\ t = placeholders s'.
Proof.
  intros H Hx. destruct (match_at citation s) as [[caps rest]|] eqn:E.
  - apply placeholders_here in E as (h & mm & ss & _ & _ & E).
    rewrite E in H. injection H as <- _. contradiction.
  - destruct s as [|c s]; [rewrite placeholders_nil in H; discriminate|].
    rewrite (placeholders_skip _ _ E) in H. injection H as <- <-.
    now exists s.
Qed.

(** ** The placeholder pattern *)

Lemma digits_sep_unique d : is_digit d = false -> forall a a' x x',
  forallb is_digit a = true -> forallb is_digit a' = true ->
  a ++ d :: x = a' ++ d :: x' -> a = a' /\ x = x'.
Proof.
  intros Hd. induction a as [|c a IH]; intros [|c' a'] x x' Ha Ha' E;
    cbn [app forallb] in *.
  - injection E as ->. auto.
  - injection E as <- _. apply andb_true_iff in Ha' as [Hc _]. congruence.
  - injection E as -> _. apply andb_true_iff in Ha as [Hc _]. congruence.
  - injection E as <- E. apply andb_true_iff in Ha as [_ Ha].
    apply andb_true_iff in Ha' as [_ Ha'].
    destruct (IH _ _ _ Ha Ha' E) as [-> ->]. auto.
Qed.

Lemma run_placeholder s rest caps :
  run placeholder s [] rest caps ->
  exists h mm ss,
    time_shape h mm ss /\ s = marker h mm ss ++ rest
    /\ caps = set_cap 1 (label h mm ss) [].
Proof.
  unfold placeholder. intros H.
  apply run_seq_inv in H as (s0 & c0 & H0 & H).
  apply run_rlit in H0 as [-> ->].
  apply run_seq_inv in H as (s1 & c1 & H1 & H).
  apply run_rlit in H as [-> ->].
  apply run_grp_inv in H1 as (c2 & H1 & ->).
  apply run_seq_inv in H1 as (s2 & c3 & H2 & H1).
  apply run_rep_inv in H2 as (h & -> & Hh & Hh1 & Hh2 & ->).
  apply run_seq_inv in H1 as (s3 & c4 & H3 & H1).
  apply run_chr_inv in H3 as (x & -> & Hx & ->). apply N.eqb_eq in Hx. subst x.
  apply run_seq_inv in H1 as (s4 & c5 & H4 & H1).
  apply run_rep_inv in H4 as (mm & -> & Hm & Hm1 & Hm2 & ->).
  apply run_seq_inv in H1 as (s5 & c6 & H5 & H1).
  apply run_chr_inv in H5 as (x & -> & Hx & ->). apply N.eqb_eq in Hx. subst x.
  apply run_rep_inv in H1 as (ss & -> & Hs & Hs1 & Hs2 & ->).
  exists h, mm, ss. split; [unfold time_shape; repeat split; auto; lia|].
  assert (E : h ++ colon :: mm ++ colon :: ss ++ span_close ++ rest
              = label h mm ss ++ span_close ++ rest).
  { unfold label. rewrite <- app_assoc. cbn [app]. rewrite <- app_assoc.
    reflexivity. }
  split.
  - unfold marker. rewrite <- !app_assoc. now rewrite E.
  - rewrite E, consumed_app. reflexivity.
Qed.

Lemma run_grp_app i r m s' caps caps1 :
  run r (m ++ s') caps s' caps1 ->
  run (Grp i r) (m ++ s') caps s' (set_cap i m caps1).
Proof.
  intros H. pose proof (run_grp i r _ _ _ _ H) as H'.
  now rewrite consumed_app in H'.
Qed.

Lemma run_rlit_app l : forall s c, run (rlit l) (l ++ s) c s c.
Proof.
  induction l as [|a l IH]; intros s c; [constructor|].
  cbn [rlit app]. eapply run_seq; [apply run_chr, N.eqb_refl|apply IH].
Qed.

Lemma placeholder_run h mm ss rest :
  time_shape h mm ss ->
  run placeholder (marker h mm ss ++ rest) [] rest
      (set_cap 1 (label h mm ss) []).
Proof.
  intros (Hh & Hh1 & Hm & Hm1 & Hs & Hs1).
  assert (E : label h mm ss ++ span_close ++ rest
              = h ++ colon :: mm ++ colon :: ss ++ span_close ++ rest).
  { unfold label. rewrite <- app_assoc. cbn [app]. rewrite <- app_assoc.
    reflexivity. }
  unfold marker, placeholder. rewrite <- !app_assoc.
  eapply run_seq; [apply run_rlit_app|].
  eapply run_seq; [|apply run_rlit_app].
  apply run_grp_app. rewrite E.
  eapply run_seq; [apply run_rep; [exact Hh|lia|simpl; lia]|].
  eapply run_seq; [apply run_chr, N.eqb_refl|].
  eapply run_seq; [apply run_rep; [exact Hm|lia|simpl; lia]|].
  eapply run_seq; [apply run_chr, N.eqb_refl|].
  apply run_rep; [exact Hs|lia|simpl; lia].
Qed.

Lemma label_unique h mm ss h' mm' ss' x x' :
  time_shape h mm ss -> time_shape h' mm' ss' ->
  label h mm ss ++ span_close ++ x = label h' mm' ss' ++ span_close ++ x' ->
  label h mm ss = label h' mm' ss' /\ x = x'.
Proof.
  intros (Hh & _ & Hm & _ & Hs & _) (Hh' & _ & Hm' & _ & Hs' & _) E.
  unfold label in *. rewrite <- !app_assoc in E. cbn [app] in E.
  rewrite <- !app_assoc in E. cbn [app] in E.
  apply (digits_sep_unique colon eq_refl) in E as [-> E]; auto.
  apply (digits_sep_unique colon eq_refl) in E as [-> E]; auto.
  change (span_close ++ x) with (60%N :: tl span_close ++ x) in E.
  change (span_close ++ x') with (60%N :: tl span_close ++ x') in E.
  apply (digits_sep_unique 60%N eq_refl) in E as [-> E]; auto.
  split; [reflexivity|]. now apply app_inv_head in E.
Qed.

(** At a marker the placeholder pattern matches the marker, and its group
    is the label. *)
Lemma match_at_marker h mm ss z :
  time_shape h mm ss ->
  exists caps,
    match_at placeholder (marker h mm ss ++ z) = Some (caps, z)
    /\ get_cap 0 caps <> [] /\ get_cap 1 caps = label h mm ss.
Proof.
  intros Hsh.
  destruct (match_at placeholder (marker h mm ss ++ z)) as [[caps rest]|] eqn:E.
  - pose proof (match_at_split _ _ _ _ E) as Hsplit.
    apply match_at_sound in E as (caps' & Hr & ->).
    apply run_placeholder in Hr as (h' & mm' & ss' & Hsh' & Hs & ->).
    unfold marker in Hs. rewrite <- !app_assoc in Hs.
    apply app_inv_head in Hs.
    apply label_unique in Hs as [Hl ->]; auto.
    eexists. split; [reflexivity|]. split.
    + rewrite get_set_cap_same. unfold marker. rewrite <- !app_assoc.
      rewrite (app_assoc (label h mm ss)), (app_assoc span_open).
      rewrite consumed_app. discriminate.
    + rewrite get_set_cap_other by discriminate.
      now rewrite get_set_cap_same.
  - exfalso. revert E. eapply match_at_complete.
    apply placeholder_run. exact Hsh.
Qed.

Lemma match_at_placeholder_open z :
  match_at placeholder z <> None -> exists z', z = span_open ++ z'.
Proof.
  destruct (match_at placeholder z) as [[caps rest]|] eqn:E; [|contradiction].
  intros _. apply match_at_sound in E as (caps' & Hr & _).
  apply run_placeholder in Hr as (h & mm & ss & _ & -> & _).
  unfold marker. rewrite <- app_assoc. eauto.
Qed.

Lemma match_template_literal l : forall s,
  match_template (map N.eqb l) (l ++ s) = Some l.
Proof.
  induction l as [|a l IH]; intros s; [reflexivity|].
  cbn [map app match_template]. now rewrite N.eqb_refl, IH.
Qed.

(** A run of characters other than [<] in the output was copied from the
    input. *)
Lemma placeholders_prefix : forall l,
  forallb (fun c => negb (c =? 60)%N) l = true ->
  forall s t, placeholders s = l ++ t ->
  exists s', s = l ++ s' /\ t = placeholders s'.
Proof.
  induction l as [|x l IH]; intros Hl s t E; [now exists s|].
  cbn [forallb] in Hl. apply andb_true_iff in Hl as [Hx Hl].
  apply negb_true_iff, N.eqb_neq in Hx.
  apply placeholders_head in E as (s1 & -> & E); [|exact Hx].
  symmetry in E. destruct (IH Hl _ _ E) as (s2 & -> & ->).
  now exists s2.
Qed.

(** ** Splitting at the placeholders *)

Lemma no_markup_cons c s : no_markup (c :: s) = true ->
  found markup_templates (c :: s) = [] /\ no_markup s = true.
Proof.
  unfold no_markup. cbn [occurrences].
  destruct (found markup_templates (c :: s)); [|discriminate]. auto.
Qed.

Lemma no_markup_app a : forall b, no_markup (a ++ b) = true -> no_markup b = true.
Proof.
  induction a as [|c a IH]; intros b H; [exact H|].
  apply IH. change ((c :: a) ++ b) with (c :: a ++ b) in H.
  now apply no_markup_cons in H.
Qed.

Lemma all_fail_no_lparen D :
  forallb (fun c => negb (c =? lparen)%N) D = true ->
  all_fail citation_templates D = true.
Proof.
  induction D as [|c D IH]; [reflexivity|]. intros H.
  cbn [forallb] in H. apply andb_true_iff in H as [Hc H].
  apply negb_true_iff in Hc. cbn [all_fail]. rewrite (IH H), andb_true_r.
  unfold citation_templates. cbn [forallb fails_within].
  now rewrite (N.eqb_sym lparen c), Hc.
Qed.

Lemma digits_no_lparen s :
  forallb is_digit s = true ->
  forallb (fun c => negb (c =? lparen)%N) s = true.
Proof.
  intros H. rewrite forallb_forall in *. intros c Hc. specialize (H c Hc).
  unfold is_digit in H. apply andb_true_iff in H as [H _].
  apply N.leb_le in H. apply negb_true_iff, N.eqb_neq. unfold lparen. lia.
Qed.

(** Inside a citation no other citation starts. *)
Lemma occurrences_cite h mm ss rest :
  time_shape h mm ss ->
  occurrences citation_templates (cite h mm ss ++ rest)
  = cite h mm ss :: occurrences citation_templates rest.
Proof.
  intros Hsh. pose proof (first_template_cite h mm ss rest Hsh) as Hf.
  destruct Hsh as (Hh & _ & Hm & _ & Hs & _).
  change (cite h mm ss ++ rest)
    with (lparen :: (h ++ colon :: mm ++ colon :: ss ++ [rparen]) ++ rest)
    in Hf |- *.
  cbn [occurrences]. unfold found. rewrite Hf. cbn [app]. f_equal.
  apply occurrences_all_fail, all_fail_no_lparen.
  repeat (rewrite forallb_app; cbn [forallb]).
  rewrite !digits_no_lparen by assumption. reflexivity.
Qed.

Lemma inner_cite h mm ss : inner (cite h mm ss) = label h mm ss.
Proof.
  unfold inner, cite, label. cbn [tl].
  replace (h ++ colon :: mm ++ colon :: ss ++ [rparen])
    with ((h ++ colon :: mm ++ colon :: ss) ++ [rparen]).
  - apply removelast_last.
  - rewrite <- app_assoc. cbn [app]. rewrite <- app_assoc. reflexivity.
Qed.

Lemma marker_length h mm ss : 0 < length (marker h mm ss).
Proof. unfold marker, span_open. cbn. lia. Qed.

(** Splitting the text with its placeholders gives back, at the odd
    indices, the labels of the citations of the text. *)
Lemma split_placeholders : forall s,
  no_markup s = true ->
  forall fuel acc,
    length (placeholders s) < fuel ->
    odds (split_re_fuel fuel placeholder acc (placeholders s))
    = map inner (occurrences citation_templates s).
Proof.
  induction s as [s IH] using list_length_ind. intros Hsp fuel acc Hf.
  destruct fuel as [|f]; [lia|].
  destruct (match_at citation s) as [[caps rest]|] eqn:E.
  - apply placeholders_here in E as (h & mm & ss & Hsh & -> & Ep).
    rewrite Ep in Hf |- *.
    destruct (match_at_marker h mm ss (placeholders rest) Hsh)
      as (caps' & Em & H0 & H1).
    pose proof (marker_length h mm ss) as Hml.
    assert (Hlen : length (placeholders rest) < f)
      by (rewrite length_app in Hf; lia).
    destruct (marker h mm ss ++ placeholders rest) as [|c z] eqn:Ez.
    { apply (f_equal (@length N)) in Ez. rewrite length_app in Ez.
      cbn in Ez. lia. }
    cbn [split_re_fuel]. rewrite Em.
    rewrite occurrences_cite by exact Hsh. cbn [map].
    rewrite inner_cite, <- H1.
    assert (Hrec : odds (split_re_fuel f placeholder [] (placeholders rest))
                   = map inner (occurrences citation_templates rest)).
    { apply IH.
      - rewrite length_app. unfold cite. cbn. lia.
      - now apply no_markup_app in Hsp.
      - exact Hlen. }
    destruct (get_cap 0 caps') as [|x0 m0]; [contradiction|].
    cbn [odds]. now rewrite Hrec.
  - destruct s as [|c s].
    + rewrite placeholders_nil. reflexivity.
    + rewrite (placeholders_skip _ _ E) in Hf |- *.
      cbn [split_re_fuel occurrences]. unfold found.
      rewrite (match_at_citation_none _ E). cbn [app].
      destruct (no_markup_cons _ _ Hsp) as [Hfound Hsp'].
      destruct (match_at placeholder (c :: placeholders s)) as [[caps' rest']|]
        eqn:Em.
      * exfalso.
        destruct (match_at_placeholder_open (c :: placeholders s)) as (z' & Ez);
          [rewrite Em; discriminate|].
        change (span_open ++ z') with (60%N :: tl span_open ++ z') in Ez.
        injection Ez as -> Ez.
        change (placeholders s = tl span_open ++ z') in Ez.
        apply (placeholders_prefix (tl span_open)) in Ez as (s1 & -> & _);
          [|reflexivity].
        revert Hfound. unfold found, markup_templates. cbn [first_template].
        change (60%N :: tl span_open ++ s1) with (span_open ++ s1).
        rewrite match_template_literal. discriminate.
      * apply IH; [cbn; lia|exact Hsp'|cbn [length] in Hf; lia].
Qed.

Lemma match_at_placeholder_nil : match_at placeholder [] = None.
Proof. reflexivity. Qed.

Lemma split_re_placeholder s :
  split_re placeholder s
  = split_re_fuel (2 * length s + 1) placeholder [] s.
Proof.
  destruct s as [|c s]; [|reflexivity].
  unfold split_re. now rewrite match_at_placeholder_nil.
Qed.

(** ** The rendering *)

Lemma buttons_render : forall parts i,
  Nat.even i = true ->
  buttons_of (render_parts i parts) = map button (odds parts).
Proof.
  induction parts as [parts IH] using list_length_ind. intros i Hi.
  destruct parts as [|p [|c rest]]; [reflexivity| |].
  - cbn [render_parts]. rewrite Hi. destruct p; reflexivity.
  - cbn [render_parts odds map]. rewrite Hi.
    assert (Ho : Nat.even (S i) = false).
    { rewrite Nat.even_succ, <- Nat.negb_even, Hi. reflexivity. }
    rewrite Ho. unfold buttons_of at 1. rewrite !flat_map_app.
    fold (buttons_of (render_parts (S (S i)) rest)).
    rewrite IH by (cbn; auto; lia).
    destruct p; reflexivity.
Qed.

Lemma citations_buttons t :
  citations t
  = map button (odds (split_re placeholder (formattedText t))).
Proof.
  unfold citations, formatText.
  rewrite <- (buttons_render _ 0 eq_refl).
  now destruct (render_parts 0 (split_re placeholder (formattedText t))).
Qed.

(** The occurrences of a citation are the places where the text reads
    [(h:mm:ss)]. *)
Lemma In_occurrences Ts m : forall t,
  In m (occurrences Ts t) <->
  exists pre s, t = pre ++ s /\ s <> [] /\ first_template Ts s = Some m.
Proof.
  induction t as [|c t IH].
  - split; [contradiction|]. intros (pre & s & E & Hne & _).
    symmetry in E. apply app_eq_nil in E as [_ ->]. contradiction.
  - cbn [occurrences]. rewrite in_app_iff, IH. unfold found. split.
    + intros [H|(pre & s & -> & Hne & H)].
      * destruct (first_template Ts (c :: t)) as [m'|] eqn:E; [|contradiction].
        destruct H as [<-|[]]. exists [], (c :: t). repeat split; auto.
        discriminate.
      * exists (c :: pre), s. auto.
    + intros (pre & s & E & Hne & H). destruct pre as [|c' pre].
      * left. cbn [app] in E. rewrite E, H. now left.
      * right. injection E as _ ->. now exists pre, s.
Qed.

Lemma parseTime_label h mm ss :
  time_shape h mm ss ->
  parseTimeToSeconds (label h mm ss)
  = Int (Z.of_N (digits_value h) * 3600 + Z.of_N (digits_value mm) * 60
         + Z.of_N (digits_value ss)).
Proof.
  intros (Hh & Hh1 & Hm & Hm1 & Hs & Hs1). unfold label.
  pose proof (digits_value_two h Hh ltac:(lia)).
  pose proof (digits_value_two mm Hm ltac:(lia)).
  pose proof (digits_value_two ss Hs ltac:(lia)).
  apply parseTime_hms_digits; auto;
    first [ rewrite MAX_SAFE_INTEGER_eq; lia
          | eapply nonempty_of_length; try reflexivity; lia ].
Qed.

(** C3 as stated fails: a text that holds the placeholder markup itself is
    rendered with a button although it has no citation. *)
Lemma citation_counterexample :
  citations (span_open ++ lit "0:01:02" ++ span_close)
  = [(lit "0:01:02", Int 62)]
  /\ occurrences citation_templates (span_open ++ lit "0:01:02" ++ span_close)
     = []
  /\ search citation (span_open ++ lit "0:01:02" ++ span_close) = None.
Proof. repeat split; vm_compute; reflexivity. Qed.

(** C3, amended. In a text without the opening tag of the placeholder
    markup, [formatText] turns into buttons exactly the occurrences of
    [(H:MM:SS)], H of one or two digits, MM and SS of two digits, in order;
    the button of an occurrence shows [H:MM:SS] and seeks to
    [H*3600 + MM*60 + SS] seconds. *)
Theorem formatText_citations (t : jsstring) :
  no_markup t = true ->
  citations t = spec_citations t
  /\ forall l secs,
       In (l, secs) (citations t) <->
       exists pre post h mm ss,
         time_shape h mm ss /\ t = pre ++ cite h mm ss ++ post
         /\ l = label h mm ss
         /\ secs = Int (Z.of_N (digits_value h) * 3600
                        + Z.of_N (digits_value mm) * 60
                        + Z.of_N (digits_value ss)).
Proof.
  intros Hsp.
  assert (E : citations t = spec_citations t).
  { rewrite citations_buttons, split_re_placeholder. unfold formattedText.
    fold (placeholders
            (replace_all italic italic_html (replace_all bold bold_html t))).
    rewrite split_placeholders.
    - rewrite emphasis_citations. unfold spec_citations.
      rewrite map_map. reflexivity.
    - now rewrite emphasis_no_markup.
    - lia. }
  split; [exact E|]. intros l secs. rewrite E. unfold spec_citations.
  rewrite in_map_iff. split.
  - intros (m & Hm & Hin). injection Hm as <- <-.
    apply In_occurrences in Hin as (pre & s & -> & _ & Hf).
    apply first_template_citation in Hf as (h & mm & ss & post & Hsh & -> & ->).
    exists pre, post, h, mm, ss. rewrite inner_cite.
    split; [exact Hsh|]. split; [reflexivity|]. split; [reflexivity|].
    now apply parseTime_label.
  - intros (pre & post & h & mm & ss & Hsh & -> & -> & ->).
    exists (cite h mm ss). rewrite inner_cite, (parseTime_label h mm ss Hsh).
    split; [reflexivity|]. apply In_occurrences.
    exists pre, (cite h mm ss ++ post). split; [reflexivity|].
    split; [discriminate|]. now apply first_template_cite.
Qed.

Lemma formatText_citations_witness :
  let t := lit "See **this** (0:02:30) and (1:00:00)." in
  citations t = spec_citations t
  /\ forall l secs,
       In (l, secs) (citations t) <->
       exists pre post h mm ss,
         time_shape h mm ss /\ t = pre ++ cite h mm ss ++ post
         /\ l = label h mm ss
         /\ secs = Int (Z.of_N (digits_value h) * 3600
                        + Z.of_N (digits_value mm) * 60
                        + Z.of_N (digits_value ss)).
Proof.
  apply (formatText_citations (lit "See **this** (0:02:30) and (1:00:00).")).
  reflexivity.
Defined.

(** ** Single flight *)

Lemma str_eqb_refl s : str_eqb s s = true.
Proof. unfold str_eqb. destruct (list_eq_dec N.eq_dec s s); congruence. Qed.

Lemma str_eqb_eq a b : str_eqb a b = true -> a = b.
Proof. unfold str_eqb. destruct (list_eq_dec N.eq_dec a b); congruence. Qed.

Lemma set_at_same {V} (f : jsstring -> V) k v : set_at f k v k = v.
Proof. unfold set_at. now rewrite str_eqb_refl. Qed.

Lemma set_at_other {V} (f : jsstring -> V) k v k' :
  str_eqb k' k = false -> set_at f k v k' = f k'.
Proof. unfold set_at. now intros ->. Qed.

(** A step on another identity leaves the entry, the executions and the
    observations of [id] as they are. *)
Lemma cache_step_other id st e :
  match e with
  | Arrive _ id' | Complete id' _ => str_eqb id' id = false
  end ->
  let st' := cache_step st e in
  entries st' id = entries st id
  /\ executions st' id = executions st id
  /\ observed_for id st' = observed_for id st.
Proof.
  assert (Hsym : forall a, str_eqb a id = false -> str_eqb id a = false).
  { intros a H. unfold str_eqb in *.
    destruct (list_eq_dec N.eq_dec a id), (list_eq_dec N.eq_dec id a);
      congruence. }
  assert (Hmap : forall id' o (ws : list nat),
    str_eqb id' id = false ->
    flat_map (fun x : nat * jsstring * outcome =>
                match x with
                | (c, id'', o0) => if str_eqb id'' id then [(c, o0)] else []
                end) (map (fun c => (c, id', o)) ws) = []).
  { intros id' o ws H. induction ws as [|w ws IH]; [reflexivity|].
    cbn [map flat_map]. now rewrite H, IH. }
  destruct e as [c id'|id' o]; intros H; cbn [cache_step].
  - destruct (entries st id') as [[ws|r|reasons]|]; cbn [entries executions];
      rewrite ?set_at_other by (apply Hsym, H); repeat split; auto;
      unfold observed_for; cbn [observed]; rewrite ?flat_map_app;
      cbn [flat_map]; rewrite ?H; now rewrite ?app_nil_r.
  - destruct (entries st id') as [[ws|r|reasons]|]; cbn [entries executions];
      rewrite ?set_at_other by (apply Hsym, H); repeat split; auto.
    unfold observed_for; cbn [observed]. rewrite flat_map_app, Hmap by exact H.
    now rewrite app_nil_r.
Qed.

(** While no extraction of [id] completes, its callers pile up on one
    pending entry and one execution. *)
Lemma in_flight_invariant id : forall tr st,
  in_flight id tr = true ->
  (entries st id = None /\ executions st id = 0
   \/ exists ws, ws <> [] /\ entries st id = Some (PENDING ws)
                 /\ executions st id = 1) ->
  let st' := cache_run tr st in
  observed_for id st' = observed_for id st
  /\ match entries st id with
     | Some (PENDING ws) =>
         entries st' id = Some (PENDING (ws ++ arrivals id tr))
         /\ executions st' id = 1
     | _ =>
         match arrivals id tr with
         | [] => entries st' id = None /\ executions st' id = 0
         | cs => entries st' id = Some (PENDING cs) /\ executions st' id = 1
         end
     end.
Proof.
  induction tr as [|e tr IH]; intros st Hfl Hst.
  - cbn. split; [reflexivity|].
    destruct Hst as [[-> ->]|(ws & _ & -> & ->)]; [auto|].
    now rewrite app_nil_r.
  - cbn [in_flight forallb] in Hfl. apply andb_true_iff in Hfl as [He Hfl].
    change (cache_run (e :: tr) st) with (cache_run tr (cache_step st e)).
    assert (Hother : match e with
                     | Arrive _ id' | Complete id' _ => str_eqb id' id = false
                     end ->
                     let st' := cache_run tr (cache_step st e) in
                     arrivals id (e :: tr) = arrivals id tr ->
                     observed_for id st' = observed_for id st
                     /\ match entries st id with
                        | Some (PENDING ws) =>
                            entries st' id
                            = Some (PENDING (ws ++ arrivals id (e :: tr)))
                            /\ executions st' id = 1
                        | _ =>
                            match arrivals id (e :: tr) with
                            | [] => entries st' id = None
                                    /\ executions st' id = 0
                            | cs => entries st' id = Some (PENDING cs)
                                    /\ executions st' id = 1
                            end
                        end).
    { intros Hne st' Harr. subst st'.
      destruct (cache_step_other id st e Hne) as (E1 & E2 & E3).
      rewrite Harr, <- E3, <- E1. apply (IH _ Hfl).
      rewrite E1, E2. exact Hst. }
    cbv zeta in Hother |- *.
    destruct e as [c id'|id' o].
    + destruct (str_eqb id' id) eqn:Eid.
      * apply str_eqb_eq in Eid. subst id'.
        assert (Harr : arrivals id (Arrive c id :: tr) = c :: arrivals id tr).
        { unfold arrivals. cbn [flat_map]. now rewrite str_eqb_refl. }
        rewrite Harr.
        destruct Hst as [[Hn He0]|(ws & Hws & Hp & He1)].
        -- rewrite Hn.
           assert (Hst' : entries (cache_step st (Arrive c id)) id
                          = Some (PENDING [c])
                          /\ executions (cache_step st (Arrive c id)) id = 1
                          /\ observed_for id (cache_step st (Arrive c id))
                             = observed_for id st).
           { cbn [cache_step]. rewrite Hn. cbn [entries executions].
             rewrite !set_at_same, He0. auto. }
           destruct Hst' as (E1 & E2 & E3).
           destruct (IH (cache_step st (Arrive c id)) Hfl) as [Ho Hent].
           { right. exists [c]. repeat split; auto. discriminate. }
           rewrite E1 in Hent. rewrite Ho, E3. split; [reflexivity|].
           exact Hent.
        -- rewrite Hp.
           assert (Hst' : entries (cache_step st (Arrive c id)) id
                          = Some (PENDING (ws ++ [c]))
                          /\ executions (cache_step st (Arrive c id)) id = 1
                          /\ observed_for id (cache_step st (Arrive c id))
                             = observed_for id st).
           { cbn [cache_step]. rewrite Hp. cbn [entries executions].
             rewrite !set_at_same, He1. auto. }
           destruct Hst' as (E1 & E2 & E3).
           destruct (IH (cache_step st (Arrive c id)) Hfl) as [Ho Hent].
           { right. exists (ws ++ [c]). repeat split; auto.
             destruct ws; discriminate. }
           rewrite E1 in Hent. rewrite Ho, E3. split; [reflexivity|].
           rewrite <- app_assoc in Hent. exact Hent.
      * apply Hother; [reflexivity|].
        unfold arrivals. cbn [flat_map]. now rewrite Eid.
    + apply negb_true_iff in He. apply Hother; [exact He|reflexivity].
Qed.

(** C8. N concurrent calls for an identity that the cache has not seen
    start exactly one extraction, and every one of them observes the
    outcome of that extraction, be it a record or a failure. *)
Theorem single_flight (id : jsstring) (tr : list cache_event) (o : outcome)
    (st : cache_state) :
  entries st id = None -> executions st id = 0 -> observed_for id st = [] ->
  in_flight id tr = true -> arrivals id tr <> [] ->
  let st' := cache_run (tr ++ [Complete id o]) st in
  executions st' id = 1
  /\ observed_for id st' = map (fun c => (c, o)) (arrivals id tr)
  /\ entries st' id = Some (commit o).
Proof.
  intros Hn He Ho Hfl Harr st'. subst st'. unfold cache_run.
  rewrite fold_left_app. fold (cache_run tr st).
  destruct (in_flight_invariant id tr st Hfl (or_introl (conj Hn He)))
    as [Hobs Hent].
  rewrite Hn in Hent.
  destruct (arrivals id tr) as [|c cs] eqn:Ea; [contradiction|].
  destruct Hent as [Hp H1].
  cbn [fold_left cache_step]. rewrite Hp. cbn [entries executions].
  rewrite set_at_same. split; [exact H1|]. split; [|reflexivity].
  unfold observed_for at 1. cbn [observed]. rewrite flat_map_app.
  fold (observed_for id (cache_run tr st)). rewrite Hobs, Ho. cbn [app].
  generalize (c :: cs). intros ws. induction ws as [|w ws IH]; [reflexivity|].
  cbn [map flat_map]. now rewrite str_eqb_refl, IH.
Qed.

Lemma single_flight_witness :
  let id := lit "dQw4w9WgXcQ" in
  let other := lit "other" in
  let o := Extracted (mkRecord (lit "A video") API) in
  let tr := [Arrive 1 id; Arrive 7 other; Arrive 2 id;
             Complete other (ExtractionFailure (lit "no captions"));
             Arrive 3 id] in
  let st' := cache_run (tr ++ [Complete id o]) empty_cache in
  executions st' id = 1
  /\ observed_for id st' = map (fun c => (c, o)) (arrivals id tr)
  /\ entries st' id = Some (commit o).
Proof.
  apply (single_flight (lit "dQw4w9WgXcQ")
           [Arrive 1 (lit "dQw4w9WgXcQ"); Arrive 7 (lit "other");
            Arrive 2 (lit "dQw4w9WgXcQ");
            Complete (lit "other") (ExtractionFailure (lit "no captions"));
            Arrive 3 (lit "dQw4w9WgXcQ")]
           (Extracted (mkRecord (lit "A video") API)) empty_cache);
    try reflexivity.
  vm_compute. discriminate.
Defined.

(** ** Fuel

    The loops that carry a fuel argument get more than they use: past the
    bound, the result does not depend on the fuel. *)

Lemma split_re_fuel_enough r : forall n fuel1 fuel2 acc s,
  split_measure acc s < n -> n <= fuel1 -> n <= fuel2 ->
  split_re_fuel fuel1 r acc s = split_re_fuel fuel2 r acc s.
Proof.
  induction n as [|n IH]; intros fuel1 fuel2 acc s Hm H1 H2; [lia|].
  destruct fuel1 as [|f1]; [lia|]. destruct fuel2 as [|f2]; [lia|].
  cbn [split_re_fuel]. destruct s as [|c s]; [reflexivity|].
  unfold split_measure in Hm. cbn [length] in Hm.
  destruct (match_at r (c :: s)) as [[caps rest]|] eqn:E.
  - pose proof (match_at_split _ _ _ _ E) as Hs.
    destruct (get_cap 0 caps) as [|x m] eqn:E0.
    + cbn [app] in Hs. subst rest. destruct acc as [|a acc].
      * apply IH; try lia. unfold split_measure. cbn [length]. lia.
      * do 2 f_equal.
        apply IH; try lia. unfold split_measure. cbn [length]. lia.
    + assert (Hl : length rest <= length s).
      { apply (f_equal (@length N)) in Hs. rewrite length_app in Hs.
        cbn [length] in Hs. lia. }
      destruct acc; do 2 f_equal;
        (apply IH; try lia; unfold split_measure; cbn [length]; lia).
  - apply IH; try lia. unfold split_measure.
    destruct (acc ++ [c]) eqn:Ea; [destruct acc; discriminate|].
    destruct acc; lia.
Qed.

Lemma split_re_fuel_more r s fuel :
  2 * length s < fuel ->
  split_re_fuel fuel r [] s = split_re_fuel (2 * length s + 1) r [] s.
Proof.
  intros H. apply (split_re_fuel_enough r (2 * length s + 1));
    unfold split_measure; lia.
Qed.

Lemma chapter_loop_fuel data stride fuel1 fuel2 i acc :
  0 < stride -> length data <= i + fuel1 -> length data <= i + fuel2 ->
  chapter_loop fuel1 data stride i acc = chapter_loop fuel2 data stride i acc.
Proof.
  intros Hs H1 H2. now rewrite !chapter_loop_buckets.
Qed.

(** ** Sample runs *)

Example chapterTitle_lead_in :
  chapterTitle (lit " Welcome to the big show about your cats and dogs")
  = lit "big show about".
Proof. reflexivity. Qed.

Example chapterTitle_numbered :
  chapterTitle (lit "Tip 12: water the plants every morning")
  = lit "water plants every".
Proof. reflexivity. Qed.

Example chapters_short_transcript :
  chapters [mkSegment (Some (lit "Hello everyone and welcome back"))
              (Some (lit "0:00:00")) (Some (lit "0:00:04"));
            mkSegment (Some (lit "second segment")) (Some (lit "0:00:04"))
              (Some (lit "0:00:09"))]
  = [mkChapter (lit "0:00:00") (lit "everyone welcome back") (Int 0);
     mkChapter (lit "0:00:09") (lit "Conclusion") (Int 9)].
Proof. reflexivity. Qed.

Example parse_line_en_dash :
  parse_line (lit "1. 0:12:05 " ++ en_dash :: lit "  **Setup** and tools ")
  = [mkChapter (lit "0:12:05") (lit "Setup and tools") (Int 725)].
Proof. vm_compute. reflexivity. Qed.

Example parse_line_blank_title :
  parse_line (lit "0:02:00 -  ") = [mkChapter (lit "0:02:00") [] (Int 120)].
Proof. vm_compute. reflexivity. Qed.

Example formatText_sample :
  formatText (lit "See **this** (0:02:30).")
  = Elements
      [HtmlSpan 0 (lit "See " ++ strong_open ++ lit "this" ++ strong_close
                   ++ lit " ");
       TimestampButton 1 (lit "0:02:30") (Int 150);
       HtmlSpan 2 (lit ".")].
Proof. vm_compute. reflexivity. Qed.

Example formatText_plain : formatText [] = PlainText [].
Proof. reflexivity. Qed.

Example jumpToTime_sample :
  jumpToTime (Int 150)
    (Some (lit "https://www.youtube.com/embed/dQw4w9WgXcQ?start=5&autoplay=1"))
  = Some (lit "https://www.youtube.com/embed/dQw4w9WgXcQ?start=150&autoplay=1").
Proof. vm_compute. reflexivity. Qed.

Example loadVideo_sample :
  let w := run_handler (loadVideo sample_server (lit "10:00:00") sample_state)
             sample_state in
  videoId (app_state w) = lit "dQw4w9WgXcQ"
  /\ videoTitle (app_state w) = lit "A video"
  /\ map seconds (timestamps (app_state w)) = [Int 120; Int 60]
  /\ error (app_state w) = [].
Proof. vm_compute. repeat split. Qed.

(** ** [createTimestampsFromTranscript] *)

(** On a transcript the handler stores the structural chapters and sends
    no request. *)
Lemma createTimestampsFromTranscript_stores server a data :
  let w := run_handler
             (createTimestampsFromTranscript server a (Some data)) a in
  timestamps (app_state w) = chapters data
  /\ log w = [structural_started; Removed msg_creating;
              Shown (lit "Chapters created successfully!") Success false].
Proof. split; reflexivity. Qed.

(** Without a transcript the [catch] block hands over to the generative
    strategy. *)
Lemma createTimestampsFromTranscript_falls_back server a :
  exists rest,
    log (run_handler (createTimestampsFromTranscript server a None) a)
    = [structural_started; Removed msg_creating;
       Shown (lit "Using AI to generate chapters...") Info false;
       Shown msg_generating Loading true;
       Fetched (mkRequest SmartQuestion (videoUrl a) (Some chapters_prompt))]
      ++ rest.
Proof.
  unfold run_handler, createTimestampsFromTranscript.
  cbv beta iota zeta delta [bind showNotification removeNotification emit ret
    fst snd log app_state].
  match goal with
  | |- context [generateAITimestamps ?s ?t ?u ?w] =>
      destruct (generateAITimestamps_log s t u w) as (rest & E & _);
      destruct (generateAITimestamps s t u w) as [u0 w0]
  end.
  cbv beta iota zeta delta [snd log] in E |- *. rewrite E.
  cbv beta iota zeta delta [log]. rewrite <- !app_assoc. cbn [List.app].
  now exists rest.
Qed.

(** ** [parseTimeToSeconds] on other shapes *)

Lemma parseTime_ms_digits m s :
  m <> [] -> s <> [] ->
  forallb is_digit m = true -> forallb is_digit s = true ->
  (Z.of_N (digits_value m) * 60 + Z.of_N (digits_value s)
   <= MAX_SAFE_INTEGER)%Z ->
  parseTimeToSeconds (m ++ colon :: s)
  = Int (Z.of_N (digits_value m) * 60 + Z.of_N (digits_value s)).
Proof.
  intros Hm Hs Dm Ds Hv. unfold parseTimeToSeconds.
  rewrite split_on_app by now apply digits_colon_free.
  rewrite split_on_free by now apply digits_colon_free.
  cbn [map]. rewrite !Number_digits by (assumption || lia).
  apply ms_exact; lia.
Qed.

Lemma split_on_length sep s :
  length (split_on sep s) = S (count_occ N.eq_dec s sep).
Proof.
  induction s as [|c s IH]; [reflexivity|].
  cbn [split_on]. destruct (N.eqb_spec c sep) as [->|Hne].
  - rewrite count_occ_cons_eq by reflexivity. cbn [length]. now rewrite IH.
  - rewrite count_occ_cons_neq by exact Hne.
    destruct (split_on sep s) as [|p ps]; [discriminate IH | exact IH].
Qed.

(** X1. A time written as minutes and seconds, [MM:SS], is read as
    sixty times the minutes plus the seconds, as long as that number is a
    safe integer (at most 2^53 - 1); [0:MM:SS] is read as the same
    number. *)
Theorem parseTime_minutes_seconds (m s : jsstring) :
  m <> [] -> s <> [] ->
  forallb is_digit m = true -> forallb is_digit s = true ->
  (Z.of_N (digits_value m) * 60 + Z.of_N (digits_value s)
   <= MAX_SAFE_INTEGER)%Z ->
  parseTimeToSeconds (m ++ colon :: s)
  = Int (Z.of_N (digits_value m) * 60 + Z.of_N (digits_value s))
  /\ parseTimeToSeconds (nat_digits 0 ++ colon :: m ++ colon :: s)
     = parseTimeToSeconds (m ++ colon :: s).
Proof.
  intros Hm Hs Dm Ds Hv. split; [now apply parseTime_ms_digits|].
  rewrite (parseTime_ms_digits m s) by assumption.
  rewrite parseTime_hms_digits
    by (rewrite ?nat_digits_value;
        auto using nat_digits_nonempty, nat_digits_digits).
  rewrite nat_digits_value. reflexivity.
Qed.

Lemma parseTime_minutes_seconds_witness :
  parseTimeToSeconds (lit "12" ++ colon :: lit "05")
  = Int (Z.of_N (digits_value (lit "12")) * 60
         + Z.of_N (digits_value (lit "05")))
  /\ parseTimeToSeconds (nat_digits 0 ++ colon :: lit "12" ++ colon :: lit "05")
     = parseTimeToSeconds (lit "12" ++ colon :: lit "05").
Proof.
  apply (parseTime_minutes_seconds (lit "12") (lit "05"));
    first [discriminate | reflexivity | vm_compute; discriminate].
Defined.

(** Beyond the safe integers the parts are rounded: 9007199254740993 is
    read as 2^53. *)
Example parseTime_rounds :
  parseTimeToSeconds (lit "9007199254740993:00") = Int 540431955284459520.
Proof. vm_compute. reflexivity. Qed.

(** X2. A string with no colon, or with three colons or more, is read
    as 0 seconds whatever it contains. *)
Theorem parseTime_part_count (timeStr : jsstring) :
  count_occ N.eq_dec timeStr colon <> 1 ->
  count_occ N.eq_dec timeStr colon <> 2 ->
  parseTimeToSeconds timeStr = Int 0.
Proof.
  intros H1 H2. unfold parseTimeToSeconds.
  pose proof (split_on_length colon timeStr) as HL.
  destruct (split_on colon timeStr) as [|a [|b [|c [|d l]]]];
    cbn [map length] in *; try reflexivity; exfalso; lia.
Qed.

Lemma parseTime_part_count_witness :
  parseTimeToSeconds (lit "1:00:02:30") = Int 0.
Proof.
  apply (parseTime_part_count (lit "1:00:02:30")); vm_compute; discriminate.
Defined.

(** ** The shape of what [formatTime] prints *)

(** X3. For every integer number of seconds from 0 to 2^53 - 1,
    [formatTime] prints the hours, a colon, two digits of minutes below
    60, a colon and two digits of seconds below 60. *)
Theorem formatTime_shape (s : Z) :
  (0 <= s <= MAX_SAFE_INTEGER)%Z ->
  exists mm ss,
    formatTime s = toString (s / 3600) ++ colon :: mm ++ colon :: ss
    /\ length mm = 2 /\ length ss = 2
    /\ forallb is_digit mm = true /\ forallb is_digit ss = true
    /\ (digits_value mm < 60)%N /\ (digits_value ss < 60)%N.
Proof.
  intros H. pose proof H as [H0 _].
  pose proof (minutes_bound s H0) as Hm.
  pose proof (Z.mod_pos_bound s 60 ltac:(lia)) as Hs.
  exists (padStart0 2 (nat_digits (Z.to_N (s mod 3600 / 60)))),
         (padStart0 2 (nat_digits (Z.to_N (s mod 60)))).
  split.
  { rewrite formatTime_fields by exact H. unfold label.
    rewrite toString_nonneg by (apply Z.div_pos; lia). reflexivity. }
  split; [apply two_digits; lia|]. split; [apply two_digits; lia|].
  split; [apply padStart0_digits, nat_digits_digits|].
  split; [apply padStart0_digits, nat_digits_digits|].
  rewrite !digits_value_padded. lia.
Qed.

Lemma formatTime_shape_witness :
  exists mm ss,
    formatTime 86399 = toString (86399 / 3600) ++ colon :: mm ++ colon :: ss
    /\ length mm = 2 /\ length ss = 2
    /\ forallb is_digit mm = true /\ forallb is_digit ss = true
    /\ (digits_value mm < 60)%N /\ (digits_value ss < 60)%N.
Proof.
  apply (formatTime_shape 86399). unfold MAX_SAFE_INTEGER. lia.
Defined.

(** ** A time printed by [formatTime], cited in a text *)

Lemma citations_spec_citations t :
  no_markup t = true -> citations t = spec_citations t.
Proof.
  intros Hsp. rewrite citations_buttons, split_re_placeholder.
  unfold formattedText.
  fold (placeholders
          (replace_all italic italic_html (replace_all bold bold_html t))).
  rewrite split_placeholders.
  - rewrite emphasis_citations. unfold spec_citations.
    rewrite map_map. reflexivity.
  - now rewrite emphasis_no_markup.
  - lia.
Qed.

Lemma lacks_lt_no_occurrence s :
  lacks 60%N s = true -> occurrences markup_templates s = [].
Proof.
  induction s as [|c s IH]; [reflexivity|].
  unfold lacks in *. cbn [forallb]. intros H.
  apply andb_prop in H as [Hc Hs]. cbn [occurrences].
  rewrite (IH Hs), app_nil_r.
  unfold found, markup_templates, span_open.
  cbn [first_template map match_template].
  apply negb_true_iff in Hc. rewrite N.eqb_sym, Hc. reflexivity.
Qed.

Lemma lacks_lt_no_markup s : lacks 60%N s = true -> no_markup s = true.
Proof. intros H. unfold no_markup. now rewrite lacks_lt_no_occurrence. Qed.

Lemma digits_lack x s :
  is_digit x = false -> forallb is_digit s = true -> lacks x s = true.
Proof.
  intros Hx. unfold lacks. induction s as [|c s IH]; [reflexivity|].
  cbn [forallb]. intros H. apply andb_prop in H as [Hc Hs].
  rewrite (IH Hs), andb_true_r. apply negb_true_iff.
  destruct (N.eqb_spec c x) as [->|]; [congruence | reflexivity].
Qed.

Lemma cite_lacks_lt h mm ss :
  time_shape h mm ss -> lacks 60%N (cite h mm ss) = true.
Proof.
  intros (Hh & _ & Hm & _ & Hs & _). unfold cite.
  change (lparen :: h ++ colon :: mm ++ colon :: ss ++ [rparen])
    with ([lparen] ++ h ++ [colon] ++ mm ++ [colon] ++ ss ++ [rparen]).
  rewrite !lacks_app.
  rewrite (digits_lack 60%N h), (digits_lack 60%N mm), (digits_lack 60%N ss)
    by (assumption || reflexivity).
  reflexivity.
Qed.

(** X4. A time that [formatTime] printed, put in parentheses in a text,
    is rendered as one button that carries this time as its label and
    seeks to the very number of seconds that was printed. *)
Theorem formatTime_citation (s : Z) (pre post : jsstring) :
  (0 <= s < 360000)%Z ->
  lacks lparen pre = true -> lacks 60%N pre = true ->
  lacks lparen post = true -> lacks 60%N post = true ->
  citations (pre ++ lparen :: formatTime s ++ rparen :: post)
  = [(formatTime s, Int s)].
Proof.
  intros Hs Hp1 Hp2 Hq1 Hq2.
  pose proof (formatTime_time_shape s Hs) as Hsh.
  rewrite formatTime_fields by (rewrite MAX_SAFE_INTEGER_eq; lia).
  set (h := nat_digits (Z.to_N (s / 3600))) in *.
  set (mm := padStart0 2 (nat_digits (Z.to_N (s mod 3600 / 60)))) in *.
  set (ss := padStart0 2 (nat_digits (Z.to_N (s mod 60)))) in *.
  assert (E : pre ++ lparen :: label h mm ss ++ rparen :: post
              = pre ++ cite h mm ss ++ post).
  { rewrite cite_app. unfold label. f_equal. f_equal.
    rewrite <- !app_assoc. cbn [app]. rewrite <- !app_assoc. reflexivity. }
  rewrite E. rewrite citations_spec_citations.
  - unfold spec_citations.
    rewrite (occurrences_all_fail citation_templates _ pre)
      by now apply all_fail_no_lparen.
    rewrite occurrences_cite by exact Hsh.
    rewrite <- (app_nil_r post).
    rewrite (occurrences_all_fail citation_templates [] post)
      by now apply all_fail_no_lparen.
    cbn [occurrences map]. rewrite inner_cite.
    rewrite (parseTime_label h mm ss Hsh). subst h mm ss.
    rewrite nat_digits_value, !digits_value_padded.
    rewrite formatTime_value by lia. reflexivity.
  - apply lacks_lt_no_markup. rewrite !lacks_app, Hp2, Hq2.
    now rewrite cite_lacks_lt.
Qed.

Lemma formatTime_citation_witness :
  citations (lit "It starts at " ++ lparen :: formatTime 150
             ++ rparen :: lit " sharp.")
  = [(formatTime 150, Int 150)].
Proof.
  apply (formatTime_citation 150 (lit "It starts at ") (lit " sharp."));
    first [lia | reflexivity].
Defined.

(** ** A chapter line written with [formatTime] *)

(** X5. A line that consists of a time printed by [formatTime], [ - ]
    and a title is read back as one chapter with that time and that
    number of seconds; its title is the first line of the text after the
    dash, trimmed, without double stars and cut to forty characters. *)
Theorem parse_line_formatTime (s : Z) (c : N) (t : jsstring) :
  (0 <= s < 360000)%Z -> is_space c = false ->
  parse_line (formatTime s ++ lit " - " ++ c :: t)
  = [mkChapter (formatTime s)
       (shorten 40
          (remove_pairs
             (trim (takeWhile (fun c => negb (is_line_terminator c))
                              (c :: t)))))
       (Int s)].
Proof.
  intros Hs Hc.
  pose proof (formatTime_time_shape s Hs) as Hsh.
  rewrite formatTime_fields by (rewrite MAX_SAFE_INTEGER_eq; lia).
  set (h := nat_digits (Z.to_N (s / 3600))) in *.
  set (mm := padStart0 2 (nat_digits (Z.to_N (s mod 3600 / 60)))) in *.
  set (ss := padStart0 2 (nat_digits (Z.to_N (s mod 60)))) in *.
  destruct (match_at_chapter_line h mm ss c t Hsh Hc) as (whole & Hm).
  change (lit " - ") with [space; hyphen; space].
  assert (E : label h mm ss ++ [space; hyphen; space] ++ c :: t
              = h ++ colon :: mm ++ colon :: ss
                  ++ space :: hyphen :: space :: c :: t).
  { unfold label. rewrite <- !app_assoc. cbn [app].
    rewrite <- !app_assoc. reflexivity. }
  rewrite E. unfold parse_line, str_match.
  rewrite (search_here _ _ _ _ Hm). unfold line_captures.
  destruct Hsh as (Hh & Hh1 & Hm2 & Hm1 & Hs2 & Hs1).
  repeat (rewrite get_set_cap_other by discriminate).
  rewrite !get_set_cap_same.
  repeat (rewrite get_set_cap_other by discriminate).
  rewrite !get_set_cap_same.
  repeat (rewrite get_set_cap_other by discriminate).
  rewrite !get_set_cap_same.
  rewrite !parseInt_two by
    (first [assumption | lia
           | eapply nonempty_of_length; [|reflexivity]; lia]).
  rewrite replace_double_star, !num_string_nat. subst h mm ss.
  rewrite nat_digits_value, !digits_value_padded.
  pose proof (formatTime_value s ltac:(lia)) as Hv.
  rewrite hms_exact by (rewrite ?MAX_SAFE_INTEGER_eq; lia).
  rewrite Hv. reflexivity.
Qed.

Lemma parse_line_formatTime_witness :
  parse_line (formatTime 725 ++ lit " - " ++ lit "Setup and tools")
  = [mkChapter (formatTime 725) (lit "Setup and tools") (Int 725)].
Proof.
  apply (parse_line_formatTime 725 83%N (lit "etup and tools"));
    first [lia | reflexivity].
Defined.

(** ** What [getVideoId] returns *)

Lemma takeWhile_app_stop (p : jschar -> bool) a d b :
  forallb p a = true -> p d = false -> takeWhile p (a ++ d :: b) = a.
Proof.
  intros Ha Hd. induction a as [|c a IH]; cbn [app takeWhile].
  - now rewrite Hd.
  - cbn [forallb] in Ha. apply andb_prop in Ha as [Hc Ha].
    rewrite Hc. now rewrite IH.
Qed.

Lemma id_at_some prefix s t :
  id_at prefix s = Some t ->
  exists post,
    s = prefix ++ t ++ post /\ t <> [] /\ forallb not_delim t = true
    /\ match post with d :: _ => not_delim d = false | [] => True end.
Proof.
  unfold id_at. destruct (strip_prefix prefix s) as [s'|] eqn:E;
    [|discriminate].
  apply strip_prefix_inv in E as ->.
  destruct (takeWhile not_delim s') as [|c u] eqn:Et; [discriminate|].
  intros [= <-]. exists (dropWhile not_delim s').
  rewrite <- Et, take_drop_while. split; [reflexivity|].
  split; [rewrite Et; discriminate|].
  split; [apply takeWhile_forallb | apply dropWhile_stops].
Qed.

Lemma find_id_some prefix : forall s t,
  find_id prefix s = Some t ->
  exists pre post,
    s = pre ++ prefix ++ t ++ post /\ t <> [] /\ forallb not_delim t = true
    /\ match post with d :: _ => not_delim d = false | [] => True end.
Proof.
  induction s as [|c s IH]; intros t H.
  - cbn [find_id] in H. destruct (id_at prefix []) eqn:E; [|discriminate].
    injection H as ->. apply id_at_some in E as (post & E & Ht).
    exists [], post. now split.
  - rewrite find_id_cons in H. destruct (id_at prefix (c :: s)) eqn:E.
    + injection H as ->. apply id_at_some in E as (post & E & Ht).
      exists [], post. now split.
    + apply IH in H as (pre & post & -> & Ht).
      exists (c :: pre), post. now split.
Qed.

Lemma find_id_none_occurs prefix : forall s,
  find_id prefix s = None -> occurs prefix s = false.
Proof.
  assert (Hat : forall s, id_at prefix s = None ->
                match strip_prefix prefix s with
                | Some (c :: _) => not_delim c
                | _ => false
                end = false).
  { intros s. unfold id_at. destruct (strip_prefix prefix s) as [[|c u]|];
      try reflexivity.
    cbn [takeWhile]. destruct (not_delim c); [discriminate | reflexivity]. }
  induction s as [|c s IH]; intros H.
  - cbn [find_id] in H. destruct (id_at prefix []) eqn:E; [discriminate|].
    cbn [occurs]. now rewrite (Hat _ E).
  - rewrite find_id_cons in H.
    destruct (id_at prefix (c :: s)) eqn:E; [discriminate|].
    cbn [occurs]. now rewrite (Hat _ E), (IH H).
Qed.

Lemma find_id_none_iff prefix s :
  find_id prefix s = None <-> ~ has_form prefix s.
Proof.
  rewrite <- occurs_has_form. split.
  - intros H. now rewrite (find_id_none_occurs _ _ H).
  - intros H. apply find_id_occurs. now destruct (occurs prefix s).
Qed.

(** X6. The id ends at the first [&], newline, [?] or [#] after
    [youtube.com/watch?v=]: parameters that follow it are left out. *)
Theorem getVideoId_parameters (pre v rest : jsstring) (d : N) :
  lacks 121%N pre = true ->
  v <> [] -> forallb not_delim v = true -> not_delim d = false ->
  getVideoId (pre ++ watch_prefix ++ v ++ d :: rest) = Some v.
Proof.
  intros Hpre Hv Hnd Hd. rewrite getVideoId_find.
  unfold watch_prefix at 1. rewrite find_id_skip by exact Hpre.
  fold watch_prefix.
  assert (E : id_at watch_prefix (watch_prefix ++ v ++ d :: rest) = Some v).
  { unfold id_at. rewrite strip_prefix_app.
    rewrite takeWhile_app_stop by assumption.
    destruct v; [contradiction | reflexivity]. }
  change (watch_prefix ++ v ++ d :: rest)
    with (121%N :: tl watch_prefix ++ v ++ d :: rest) in *.
  rewrite find_id_cons, E. reflexivity.
Qed.

Lemma getVideoId_parameters_witness :
  getVideoId (lit "https://www." ++ watch_prefix ++ lit "dQw4w9WgXcQ"
              ++ 38%N :: lit "t=42s&list=PL1")
  = Some (lit "dQw4w9WgXcQ").
Proof.
  apply (getVideoId_parameters (lit "https://www.") (lit "dQw4w9WgXcQ")
           (lit "t=42s&list=PL1") 38%N);
    first [discriminate | reflexivity].
Defined.

(** X7. Whatever id [getVideoId] returns is not empty, contains none of
    [&], newline, [?], [#], stands in the URL right after one of the three
    prefixes, and runs up to the end of the URL or to such a character. *)
Theorem getVideoId_result (url id : jsstring) :
  getVideoId url = Some id ->
  id <> [] /\ forallb not_delim id = true
  /\ exists prefix pre post,
       In prefix [watch_prefix; short_prefix; embed_prefix]
       /\ url = pre ++ prefix ++ id ++ post
       /\ match post with d :: _ => not_delim d = false | [] => True end.
Proof.
  rewrite getVideoId_find. intros H.
  assert (G : exists prefix,
            In prefix [watch_prefix; short_prefix; embed_prefix]
            /\ find_id prefix url = Some id).
  { destruct (find_id watch_prefix url) eqn:E1.
    { exists watch_prefix. split; [now left | congruence]. }
    destruct (find_id short_prefix url) eqn:E2.
    { exists short_prefix. split; [right; now left | congruence]. }
    exists embed_prefix. split; [right; right; now left | exact H]. }
  destruct G as (prefix & Hin & Hf).
  apply find_id_some in Hf as (pre & post & E & Hne & Hnd & Hpost).
  split; [exact Hne|]. split; [exact Hnd|].
  now exists prefix, pre, post.
Qed.

Lemma getVideoId_result_witness :
  let id := lit "dQw4w9WgXcQ" in
  id <> [] /\ forallb not_delim id = true
  /\ exists prefix pre post,
       In prefix [watch_prefix; short_prefix; embed_prefix]
       /\ lit "https://youtu.be/dQw4w9WgXcQ?t=42" = pre ++ prefix ++ id ++ post
       /\ match post with d :: _ => not_delim d = false | [] => True end.
Proof.
  apply (getVideoId_result (lit "https://youtu.be/dQw4w9WgXcQ?t=42")
           (lit "dQw4w9WgXcQ")).
  reflexivity.
Defined.

(** X8. [getVideoId] returns [null] exactly for the URLs that contain
    none of the three prefixes followed by a character other than [&],
    newline, [?] and [#]. *)
Theorem getVideoId_null_iff (url : jsstring) :
  getVideoId url = None
  <-> ~ has_form watch_prefix url /\ ~ has_form short_prefix url
      /\ ~ has_form embed_prefix url.
Proof.
  rewrite getVideoId_find, <- !find_id_none_iff. split.
  - destruct (find_id watch_prefix url); [discriminate|].
    destruct (find_id short_prefix url); [discriminate|]. auto.
  - intros (-> & -> & ->). reflexivity.
Qed.

(** ** The player frame *)

Lemma hd_split_on sep s :
  hd [] (split_on sep s) = takeWhile (fun c => negb (c =? sep)%N) s.
Proof.
  induction s as [|c s IH]; [reflexivity|].
  cbn [split_on takeWhile]. destruct (c =? sep)%N; [reflexivity|].
  cbn [negb]. rewrite <- IH.
  destruct (split_on sep s) as [|p ps] eqn:E; [|reflexivity].
  now apply split_on_nonempty in E.
Qed.

(** X9. Jumping twice is jumping once to the second time: the [start]
    parameter of an earlier jump is dropped with everything else after
    the first [?], and the base URL stays. *)
Theorem jumpToTime_twice (a b : jsnum) (player : option jsstring) :
  jumpToTime b (jumpToTime a player) = jumpToTime b player.
Proof.
  destruct player as [src|]; [|reflexivity].
  cbn [jumpToTime]. f_equal. f_equal. rewrite !hd_split_on.
  change (lit "?start=" ++ num_string a ++ lit "&autoplay=1")
    with (63%N :: tl (lit "?start=") ++ num_string a ++ lit "&autoplay=1").
  apply takeWhile_app_stop; [apply takeWhile_forallb | reflexivity].
Qed.

(** X10. On the frame of a video whose id consists of letters, digits,
    [-] and [_], a jump to a whole number of seconds up to 2^53 - 1 sets
    the source to the embed URL of the video followed by the [start]
    parameter, the seconds in decimal, and the [autoplay] parameter. *)
Theorem jumpToTime_player (videoId src : jsstring) (z : Z) :
  iframe_src videoId = Some src ->
  (0 <= z <= MAX_SAFE_INTEGER)%Z ->
  jumpToTime (Int z) (Some src)
  = Some (player_base ++ videoId
            ++ lit "?start=" ++ nat_digits (Z.to_N z) ++ lit "&autoplay=1").
Proof.
  intros Hsrc Hz. unfold iframe_src in Hsrc.
  destruct videoId as [|c v]; [discriminate Hsrc|].
  destruct (forallb plain_id_char (c :: v)) eqn:Hid; [|discriminate Hsrc].
  replace src with (player_base ++ c :: v) by congruence. clear Hsrc.
  assert (Hq : forallb (fun x => negb (x =? 63)%N) (player_base ++ c :: v)
               = true).
  { rewrite forallb_app. apply andb_true_iff. split; [reflexivity|].
    revert Hid. generalize (c :: v). intros l.
    induction l as [|x l IH]; [reflexivity|]. cbn [forallb].
    intros H. apply andb_prop in H as [Hx Hl]. rewrite (IH Hl), andb_true_r.
    destruct (N.eqb_spec x 63) as [->|_]; [discriminate Hx | reflexivity]. }
  unfold jumpToTime. rewrite (split_on_free _ _ Hq).
  cbn [hd num_string]. rewrite toString_nonneg by lia.
  now rewrite <- app_assoc.
Qed.

Lemma jumpToTime_player_witness :
  jumpToTime (Int 150) (Some (lit "https://www.youtube.com/embed/dQw4w9WgXcQ"))
  = Some (player_base ++ lit "dQw4w9WgXcQ"
            ++ lit "?start=" ++ nat_digits (Z.to_N 150) ++ lit "&autoplay=1").
Proof.
  apply (jumpToTime_player (lit "dQw4w9WgXcQ")
           (lit "https://www.youtube.com/embed/dQw4w9WgXcQ") 150).
  - reflexivity.
  - unfold MAX_SAFE_INTEGER. lia.
Defined.

(** ** How many chapters the structural strategy gives *)

Lemma first_of_buckets_count size : forall l wait,
  length (first_of_buckets size wait l) * size
  <= length l + (size - 1) - wait.
Proof.
  induction l as [|sg l IH]; intros wait; [cbn; lia|].
  destruct wait as [|w]; cbn [first_of_buckets length].
  - specialize (IH (size - 1)). lia.
  - specialize (IH w). lia.
Qed.

Lemma first_of_buckets_short size : forall l wait,
  length l <= wait -> first_of_buckets size wait l = [].
Proof.
  induction l as [|sg l IH]; intros wait H; [reflexivity|].
  cbn [length] in H. destruct wait as [|w]; [lia|].
  cbn [first_of_buckets]. apply IH. lia.
Qed.

Lemma visit_at_most_one seg : length (visit seg) <= 1.
Proof.
  unfold visit. destruct seg as [sg|]; [|cbn; lia].
  destruct (truthy (text sg)); [|cbn; lia].
  destruct (truthy (start_formatted sg)); [|cbn; lia].
  cbv zeta. destruct (3 <? length (chapterTitle l)); cbn; lia.
Qed.

Lemma conclusion_at_most_one data : length (conclusion data) <= 1.
Proof.
  unfold conclusion. destruct data as [|sg l]; [cbn; lia|].
  destruct (nth_error (sg :: l) (length (sg :: l) - 1)); [|cbn; lia].
  destruct (truthy (end_formatted s)); cbn; lia.
Qed.

Lemma flat_map_at_most_one {A B} (f : A -> list B) l :
  (forall x, length (f x) <= 1) -> length (flat_map f l) <= length l.
Proof.
  intros H. induction l as [|x l IH]; [cbn; lia|].
  cbn [flat_map length]. rewrite length_app. specialize (H x). lia.
Qed.

Lemma chapters_buckets data :
  chapters data
  = flat_map (fun sg => visit (Some sg))
      (first_of_buckets (Nat.max 50 (length data / 15)) 0 data)
    ++ conclusion data.
Proof.
  unfold chapters. cbv zeta.
  rewrite chapter_loop_buckets by lia. reflexivity.
Qed.

(** X11. The structural strategy never gives more than seventeen
    chapters, however long the transcript is: at most sixteen from the
    buckets, and the conclusion. *)
Theorem chapters_at_most_seventeen (structuredData : list segment) :
  length (chapters structuredData) <= 17.
Proof.
  rewrite chapters_buckets, length_app.
  pose proof (conclusion_at_most_one structuredData) as Hc.
  set (k := Nat.max 50 (length structuredData / 15)).
  pose proof (first_of_buckets_count k structuredData 0) as Hb.
  pose proof (flat_map_at_most_one (fun sg => visit (Some sg))
                (first_of_buckets k 0 structuredData)
                (fun sg => visit_at_most_one (Some sg))) as Hf.
  set (c := length (first_of_buckets k 0 structuredData)) in *.
  assert (Hk : 50 <= k /\ length structuredData < 15 * (k + 1)).
  { subst k. split; [lia|].
    pose proof (Nat.Div0.div_mod (length structuredData) 15) as Hd.
    pose proof (Nat.mod_upper_bound (length structuredData) 15
                  ltac:(discriminate)) as Hm.
    lia. }
  assert (c <= 16) by nia. lia.
Qed.

(** X12. A transcript of at most fifty segments gives the chapter of its
    first segment, if that segment gives one, and the conclusion;
    nothing else is looked at. *)
Theorem chapters_short_transcript_only_first (structuredData : list segment) :
  length structuredData <= 50 ->
  chapters structuredData
  = visit (nth_error structuredData 0) ++ conclusion structuredData.
Proof.
  intros H. rewrite chapters_buckets.
  replace (Nat.max 50 (length structuredData / 15)) with 50.
  2:{ pose proof (Nat.Div0.div_le_upper_bound (length structuredData) 15 50
                    ltac:(lia)). lia. }
  destruct structuredData as [|sg l]; [reflexivity|].
  cbn [first_of_buckets nth_error]. cbn [length] in H.
  rewrite first_of_buckets_short by (cbn; lia).
  cbn [flat_map]. now rewrite app_nil_r.
Qed.

Lemma chapters_short_transcript_only_first_witness :
  let data := [mkSegment (Some (lit "Hello everyone and welcome back"))
                 (Some (lit "0:00:00")) (Some (lit "0:00:04"));
               mkSegment (Some (lit "a second segment with many words"))
                 (Some (lit "0:00:04")) (Some (lit "0:00:09"))] in
  chapters data = visit (nth_error data 0) ++ conclusion data.
Proof.
  apply chapters_short_transcript_only_first. cbn. lia.
Defined.

(** ** The fields of a structural chapter *)

Lemma shorten_keeps_long n t :
  3 < n -> 3 < length t -> 3 < length (shorten n t).
Proof.
  intros Hn Ht. unfold shorten, substring0.
  destruct (Nat.ltb_spec n (length t)) as [Hl|Hl]; [|exact Ht].
  rewrite length_app, length_firstn. change (length ellipsis) with 3. lia.
Qed.

Lemma visit_fields sg c :
  In c (visit (Some sg)) ->
  time c <> [] /\ 3 < length (title c)
  /\ seconds c = parseTimeToSeconds (time c).
Proof.
  unfold visit.
  destruct (text sg) as [[|a t]|]; cbn [truthy]; try contradiction.
  destruct (start_formatted sg) as [[|b st]|]; cbn [truthy]; try contradiction.
  cbv zeta.
  destruct (Nat.ltb_spec 3 (length (chapterTitle (a :: t)))) as [Hl|Hl];
    [|contradiction].
  intros [<-|[]]. cbn [time title seconds].
  split; [discriminate|]. split; [|reflexivity].
  apply shorten_keeps_long; [lia | exact Hl].
Qed.

Lemma conclusion_fields data c :
  In c (conclusion data) ->
  time c <> [] /\ title c = conclusion_title
  /\ seconds c = parseTimeToSeconds (time c).
Proof.
  unfold conclusion. destruct data as [|sg l]; [contradiction|].
  destruct (nth_error (sg :: l) (length (sg :: l) - 1)) as [lastSegment|];
    [|contradiction].
  destruct (end_formatted lastSegment) as [[|e es]|]; cbn [truthy];
    try contradiction.
  intros [<-|[]]. cbn [time title seconds].
  split; [discriminate|]. split; reflexivity.
Qed.

(** X13. Every chapter of the structural strategy has a time that is
    not empty, a title of more than three characters, and seeks to what
    [parseTimeToSeconds] reads in the time it shows. *)
Theorem chapters_fields (structuredData : list segment) (c : chapter) :
  In c (chapters structuredData) ->
  time c <> [] /\ 3 < length (title c)
  /\ seconds c = parseTimeToSeconds (time c).
Proof.
  unfold chapters. cbv zeta. rewrite in_app_iff. intros [H|H].
  - apply chapter_loop_in in H as [[]|(j & sg & _ & Hv)].
    now apply visit_fields in Hv.
  - apply conclusion_fields in H as (Ht & Hti & Hs).
    split; [exact Ht|]. split; [|exact Hs]. rewrite Hti. cbn. lia.
Qed.

Lemma chapters_fields_witness :
  let c := mkChapter (lit "0:00:09") (lit "Conclusion") (Int 9) in
  time c <> [] /\ 3 < length (title c)
  /\ seconds c = parseTimeToSeconds (time c).
Proof.
  apply (chapters_fields
           [mkSegment (Some (lit "Hello everyone and welcome back"))
              (Some (lit "0:00:00")) (Some (lit "0:00:04"));
            mkSegment (Some (lit "second segment")) (Some (lit "0:00:04"))
              (Some (lit "0:00:09"))]).
  vm_compute. right. left. reflexivity.
Defined.

(** ** The words of a chapter title *)

Lemma split_on_lacks sep s :
  Forall (fun p => lacks sep p = true) (split_on sep s).
Proof.
  induction s as [|c s IH]; [repeat constructor|].
  cbn [split_on]. destruct (c =? sep)%N eqn:E.
  - constructor; [reflexivity | exact IH].
  - destruct (split_on sep s) as [|p ps]; [repeat constructor|].
    + unfold lacks. cbn [forallb]. now rewrite E.
    + inversion IH as [|? ? Hp Hps]; subst. constructor; [|exact Hps].
      unfold lacks in *. cbn [forallb]. now rewrite E, Hp.
Qed.

Lemma split_join sep ws :
  ws <> [] -> Forall (fun p => lacks sep p = true) ws ->
  split_on sep (join sep ws) = ws.
Proof.
  induction ws as [|p ws IH]; [contradiction|]. intros _ H.
  inversion H as [|? ? Hp Hws]; subst.
  destruct ws as [|q ws]; cbn [join].
  - now apply split_on_free.
  - rewrite split_on_app by exact Hp. f_equal.
    apply IH; [discriminate | exact Hws].
Qed.

Lemma Forall_firstn {A} (P : A -> Prop) n : forall l,
  Forall P l -> Forall P (firstn n l).
Proof.
  induction n as [|n IH]; intros l H; [constructor|].
  destruct H; cbn [firstn]; constructor; auto.
Qed.

Lemma Forall_filter {A} (P : A -> Prop) f l :
  Forall P l -> Forall P (filter f l).
Proof.
  induction 1 as [|x l Hx Hl IH]; cbn [filter]; [constructor|].
  destruct (f x); [constructor|]; auto.
Qed.

Lemma forallb_firstn {A} (f : A -> bool) n : forall l,
  forallb f l = true -> forallb f (firstn n l) = true.
Proof.
  induction n as [|n IH]; intros l H; [reflexivity|].
  destruct l as [|x l]; [reflexivity|]. cbn [firstn forallb] in *.
  apply andb_prop in H as [Hx Hl]. now rewrite Hx, IH.
Qed.

Lemma forallb_filter_same {A} (f : A -> bool) l :
  forallb f (filter f l) = true.
Proof.
  induction l as [|x l IH]; [reflexivity|]. cbn [filter].
  destruct (f x) eqn:E; [cbn [forallb]; now rewrite E | exact IH].
Qed.

(** X14. A chapter title that is not empty consists of one to three
    words separated by single spaces; each of them has more than two
    characters and is none of the stop words, in small or in capital
    letters. *)
Theorem chapterTitle_words (t : jsstring) :
  chapterTitle t <> [] ->
  let words := split_on space (chapterTitle t) in
  1 <= length words <= 3
  /\ (forall w, In w words ->
        2 < length w
        /\ forall sw, In sw spec_stop_words -> same_word w sw = false)
  /\ chapterTitle t = join space words.
Proof.
  unfold chapterTitle.
  set (ws := firstn 3 (filter significant
                         (split_on space (strip_lead_ins t)))).
  intros Hne. cbv zeta.
  assert (Hws : ws <> []) by (intros E; apply Hne; now rewrite E).
  rewrite split_join.
  - split.
    + split; [destruct ws; [contradiction | cbn; lia]|].
      subst ws. rewrite length_firstn. lia.
    + split; [|reflexivity]. intros w Hw.
      assert (Hsig : forallb significant ws = true)
        by (subst ws; apply forallb_firstn, forallb_filter_same).
      rewrite forallb_forall in Hsig. specialize (Hsig w Hw).
      rewrite significant_spec in Hsig. unfold spec_significant in Hsig.
      apply andb_prop in Hsig as [Hlen Hstop].
      apply Nat.leb_le in Hlen. split; [lia|]. intros sw Hsw.
      apply negb_true_iff in Hstop. unfold is_stop_word in Hstop.
      destruct (same_word w sw) eqn:E; [|reflexivity].
      assert (existsb (same_word w) spec_stop_words = true)
        by (apply existsb_exists; now exists sw).
      congruence.
  - exact Hws.
  - subst ws. apply Forall_firstn, Forall_filter, split_on_lacks.
Qed.

Lemma chapterTitle_words_witness :
  let words :=
    split_on space
      (chapterTitle (lit "Welcome to The big show about YOUR cats")) in
  1 <= length words <= 3
  /\ (forall w, In w words ->
        2 < length w
        /\ forall sw, In sw spec_stop_words -> same_word w sw = false)
  /\ chapterTitle (lit "Welcome to The big show about YOUR cats")
     = join space words.
Proof.
  apply (chapterTitle_words (lit "Welcome to The big show about YOUR cats")).
  vm_compute. discriminate.
Defined.

(** ** The fields of a generative chapter *)

Lemma parse_line_fields line c :
  In c (parse_line line) ->
  exists H M S,
    (H < 100)%N /\ (M < 100)%N /\ (S < 100)%N
    /\ time c = label (nat_digits H) (padStart0 2 (nat_digits M))
                      (padStart0 2 (nat_digits S))
    /\ seconds c = Int (Z.of_N H * 3600 + Z.of_N M * 60 + Z.of_N S).
Proof.
  unfold parse_line, str_match.
  destruct (search chapter_line line) as [[[pre m] rest]|] eqn:E;
    [|contradiction].
  intros [<-|[]].
  apply search_sound in E as (s & -> & Hm).
  apply match_at_sound in Hm as (caps' & Hr & ->).
  apply run_chapter_line in Hr as (h & mm & ss & t & Hat & ->).
  destruct Hat as (ws1 & d & ws2 & _ & Hh & Hh1 & Hm & Hm1 & Hs & Hs1 & _).
  exists (digits_value h), (digits_value mm), (digits_value ss).
  split; [apply digits_value_two; [exact Hh | lia]|].
  split; [apply digits_value_two; [exact Hm | lia]|].
  split; [apply digits_value_two; [exact Hs | lia]|].
  unfold line_captures.
  repeat (rewrite get_set_cap_other by discriminate).
  rewrite !get_set_cap_same.
  repeat (rewrite get_set_cap_other by discriminate).
  rewrite !get_set_cap_same.
  repeat (rewrite get_set_cap_other by discriminate).
  rewrite !get_set_cap_same.
  cbn [time seconds].
  rewrite !parseInt_two by
    (first [assumption | lia
           | eapply nonempty_of_length; [|reflexivity]; lia]).
  pose proof (digits_value_two h Hh ltac:(lia)).
  pose proof (digits_value_two mm Hm ltac:(lia)).
  pose proof (digits_value_two ss Hs ltac:(lia)).
  rewrite hms_exact by (rewrite ?MAX_SAFE_INTEGER_eq; lia).
  rewrite !num_string_nat. split; reflexivity.
Qed.

Lemma parse_line_at_most_one line : length (parse_line line) <= 1.
Proof.
  unfold parse_line. destruct (str_match chapter_line line); cbn; lia.
Qed.

(** X15. Every chapter of the generative strategy shows a time of the
    form [H:MM:SS], hours without a leading zero, and seeks to what
    [parseTimeToSeconds] reads in the time it shows. *)
Theorem newTimestamps_fields (answer : jsstring) (c : chapter) :
  In c (newTimestamps answer) ->
  (exists H M S,
     time c = label (nat_digits H) (padStart0 2 (nat_digits M))
                    (padStart0 2 (nat_digits S))
     /\ time_shape (nat_digits H) (padStart0 2 (nat_digits M))
                   (padStart0 2 (nat_digits S)))
  /\ parseTimeToSeconds (time c) = seconds c.
Proof.
  unfold newTimestamps. rewrite in_flat_map. intros (line & _ & Hc).
  apply parse_line_fields in Hc as (H & M & S & HH & HM & HS & Ht & Hs).
  assert (Hsh : time_shape (nat_digits H) (padStart0 2 (nat_digits M))
                           (padStart0 2 (nat_digits S))).
  { unfold time_shape. split; [apply nat_digits_digits|].
    split; [now apply nat_digits_length|].
    split; [apply padStart0_digits, nat_digits_digits|].
    split; [now apply two_digits|].
    split; [apply padStart0_digits, nat_digits_digits | now apply two_digits]. }
  split; [now exists H, M, S|].
  rewrite Ht, Hs, (parseTime_label _ _ _ Hsh).
  now rewrite nat_digits_value, !digits_value_padded.
Qed.

Lemma newTimestamps_fields_witness :
  let c := mkChapter (lit "0:12:05") (lit "Setup and tools") (Int 725) in
  (exists H M S,
     time c = label (nat_digits H) (padStart0 2 (nat_digits M))
                    (padStart0 2 (nat_digits S))
     /\ time_shape (nat_digits H) (padStart0 2 (nat_digits M))
                   (padStart0 2 (nat_digits S)))
  /\ parseTimeToSeconds (time c) = seconds c.
Proof.
  apply (newTimestamps_fields
           (lit "Chapters:" ++ newline :: lit "00:12:05 - **Setup** and tools")).
  vm_compute. left. reflexivity.
Defined.

(** X16. A line of the answer gives at most one chapter, so the
    generative strategy gives at most as many chapters as the answer has
    lines. *)
Theorem newTimestamps_per_line (answer : jsstring) :
  length (newTimestamps answer) <= S (count_occ N.eq_dec answer newline).
Proof.
  unfold newTimestamps. rewrite <- split_on_length.
  apply flat_map_at_most_one, parse_line_at_most_one.
Qed.

(** ** What [loadVideo] leaves when it fails *)

(** X17. When the transcript request is rejected or answers without
    success, [loadVideo] has already set the video id and emptied the
    messages and the chapters; they stay so, the title is untouched, the
    error names the failure, and no chapter request is sent. *)
Theorem loadVideo_failure (server : request -> fetch_result)
    (now : jsstring) (a : AppState) (id : jsstring) :
  getVideoId (videoUrl a) = Some id ->
  match server (mkRequest ProcessYoutube (videoUrl a) None) with
  | Json data => success data = false
  | Rejected _ => True
  end ->
  let w := run_handler (loadVideo server now a) a in
  videoId (app_state w) = id
  /\ messages (app_state w) = []
  /\ timestamps (app_state w) = []
  /\ videoTitle (app_state w) = videoTitle a
  /\ error (app_state w)
     = match server (mkRequest ProcessYoutube (videoUrl a) None) with
       | Json _ => lit "Could not extract transcript from this video"
       | Rejected _ => lit "Failed to connect to server"
       end
  /\ exists toast,
       log w = [Shown msg_loading Loading true;
                Fetched (mkRequest ProcessYoutube (videoUrl a) None);
                Removed msg_loading;
                Shown toast Failure false].
Proof.
  intros Hid Hres w. subst w. unfold run_handler, loadVideo. rewrite Hid.
  cbv beta iota zeta delta [bind setVideoId setMessages setTimestamps setError
    setVideoTitle update showNotification removeNotification fetch emit ret
    fst snd log app_state].
  destruct (server (mkRequest ProcessYoutube (videoUrl a) None)) as [msg|data].
  - cbn. repeat split. eexists. reflexivity.
  - rewrite Hres. cbn. repeat split. eexists. reflexivity.
Qed.

Lemma loadVideo_failure_witness :
  let server := fun _ : request => Rejected (lit "Failed to fetch") in
  let a := mkApp (lit "https://youtu.be/dQw4w9WgXcQ")
             [mkMessage UserMsg (lit "What is this about?") None None]
             (lit "old") (lit "Old title")
             [mkChapter (lit "0:00:05") (lit "Intro") (Int 5)] [] in
  let w := run_handler (loadVideo server (lit "10:00:00") a) a in
  videoId (app_state w) = lit "dQw4w9WgXcQ"
  /\ messages (app_state w) = []
  /\ timestamps (app_state w) = []
  /\ videoTitle (app_state w) = videoTitle a
  /\ error (app_state w)
     = match server (mkRequest ProcessYoutube (videoUrl a) None) with
       | Json _ => lit "Could not extract transcript from this video"
       | Rejected _ => lit "Failed to connect to server"
       end
  /\ exists toast,
       log w = [Shown msg_loading Loading true;
                Fetched (mkRequest ProcessYoutube (videoUrl a) None);
                Removed msg_loading;
                Shown toast Failure false].
Proof.
  apply (loadVideo_failure (fun _ : request => Rejected (lit "Failed to fetch"))
           (lit "10:00:00")
           (mkApp (lit "https://youtu.be/dQw4w9WgXcQ")
              [mkMessage UserMsg (lit "What is this about?") None None]
              (lit "old") (lit "Old title")
              [mkChapter (lit "0:00:05") (lit "Intro") (Int 5)] [])
           (lit "dQw4w9WgXcQ")).
  - reflexivity.
  - exact I.
Defined.

(** ** What [generateAITimestamps] touches *)

(** The state [generateAITimestamps] leaves, as a function of the
    answer. *)
Lemma generateAITimestamps_state server t url w :
  app_state (snd (generateAITimestamps server t url w))
  = match server (mkRequest SmartQuestion url (Some chapters_prompt)) with
    | Rejected _ => app_state w
    | Json data =>
        if success data then
          let a := app_state w in
          let ti := match truthy (video_title data), t with
                    | Some v, [] => v
                    | _, _ => videoTitle a
                    end in
          mkApp (videoUrl a) (messages a) (videoId a) ti
                (match answer data with
                 | Some ans => newTimestamps ans
                 | None => timestamps a
                 end)
                (error a)
        else app_state w
    end.
Proof.
  cbv beta iota zeta delta [generateAITimestamps bind showNotification fetch
    emit removeNotification ret setVideoTitle setTimestamps update snd fst log
    app_state].
  destruct w as [a l].
  destruct (server _) as [msg|data]; [reflexivity|].
  destruct (success data); [|reflexivity].
  destruct (truthy (video_title data)) as [ti|], t as [|c t];
    destruct (answer data) as [ans|]; destruct a; reflexivity.
Qed.




(** X20. The title [loadVideo] leaves. The chapter request is made by a
    closure that still sees the title of the render the click came from:
    when that title was empty, a title in the chapter answer replaces the
    one the transcript answer gave; otherwise the transcript answer's
    title, or [Unknown Video], stays. *)
Theorem loadVideo_title (server : request -> fetch_result)
    (now : jsstring) (a : AppState) (id : jsstring) (data d : response) :
  getVideoId (videoUrl a) = Some id ->
  server (mkRequest ProcessYoutube (videoUrl a) None) = Json data ->
  success data = true ->
  server (mkRequest SmartQuestion (videoUrl a) (Some chapters_prompt)) = Json d ->
  success d = true ->
  videoTitle (app_state (run_handler (loadVideo server now a) a))
  = match truthy (video_title d), videoTitle a with
    | Some t, [] => t
    | _, _ => or_else (video_title data) (lit "Unknown Video")
    end.
Proof.
  intros Hid Hres Hok Hres2 Hok2. unfold run_handler, loadVideo.
  rewrite Hid.
  cbn [bind setVideoId setMessages setTimestamps setError
    setVideoTitle update showNotification removeNotification fetch emit ret
    fst snd log app_state].
  rewrite Hres, Hok.
  cbn [bind setVideoId setMessages setTimestamps setError
    setVideoTitle update showNotification removeNotification fetch emit ret
    fst snd log app_state negb].
  rewrite generateAITimestamps_state. cbn [app_state].
  rewrite Hres2, Hok2. cbv zeta. cbn [videoTitle].
  destruct (truthy (video_title d)), (videoTitle a); reflexivity.
Qed.

Lemma loadVideo_title_witness :
  let server := fun r : request =>
    match req_endpoint r with
    | ProcessYoutube =>
        Json (mkResponse true (Some (lit "Transcript title")) None None)
    | SmartQuestion =>
        Json (mkResponse true (Some (lit "Answer title")) (Some []) None)
    end in
  videoTitle (app_state (run_handler (loadVideo server (lit "10:00:00")
                                        sample_state) sample_state))
  = lit "Answer title".
Proof.
  apply (loadVideo_title
           (fun r : request =>
              match req_endpoint r with
              | ProcessYoutube =>
                  Json (mkResponse true (Some (lit "Transcript title")) None None)
              | SmartQuestion =>
                  Json (mkResponse true (Some (lit "Answer title")) (Some [])
                          None)
              end)
           (lit "10:00:00") sample_state (lit "dQw4w9WgXcQ")
           (mkResponse true (Some (lit "Transcript title")) None None)
           (mkResponse true (Some (lit "Answer title")) (Some []) None));
    reflexivity.
Defined.

(** ** [askQuestion] *)

Lemma blank_spec s : Ask.blank s = true <-> forallb is_space s = true.
Proof.
  unfold Ask.blank, trim. split.
  - intros H.
    destruct (rev (dropWhile is_space (rev (dropWhile is_space s))))
      as [|c u] eqn:E; [|discriminate].
    apply (f_equal (@rev N)) in E. rewrite rev_involutive in E. cbn [rev] in E.
    apply dropWhile_nil_iff in E. rewrite forallb_rev in E.
    rewrite <- (take_drop_while is_space s), forallb_app, E.
    now rewrite takeWhile_forallb.
  - intros H. apply dropWhile_nil_iff in H. rewrite H. reflexivity.
Qed.

(** X21. A question that is empty or consists of white space only, or
    such a URL field, makes [askQuestion] set the error and do nothing
    else: no request is sent, no message added, and neither the loading
    flag nor the question field changes. *)
Theorem askQuestion_blank (server : request -> Ask.result)
    (rendered st : Ask.state) :
  forallb is_space (Ask.question rendered) = true
  \/ forallb is_space (Ask.videoUrl rendered) = true ->
  let st' := fst (Ask.askQuestion server rendered st) in
  snd (Ask.askQuestion server rendered st) = []
  /\ Ask.messages st' = Ask.messages st
  /\ Ask.loading st' = Ask.loading st
  /\ Ask.question st' = Ask.question st
  /\ Ask.error st'
     = if forallb is_space (Ask.question rendered)
       then lit "Please enter a question"
       else lit "Please load a video first".
Proof.
  intros H. unfold Ask.askQuestion, Ask.before_await.
  destruct (forallb is_space (Ask.question rendered)) eqn:Eq.
  - apply blank_spec in Eq. rewrite Eq. cbn. repeat split.
  - destruct H as [H|H]; [discriminate|].
    assert (Eb : Ask.blank (Ask.question rendered) = false).
    { destruct (Ask.blank (Ask.question rendered)) eqn:E; [|reflexivity].
      apply blank_spec in E. congruence. }
    apply blank_spec in H. rewrite Eb, H. cbn. repeat split.
Qed.

Lemma askQuestion_blank_witness :
  let server := fun _ : request => Ask.Rejected [] in
  let st := Ask.mkState (lit "https://youtu.be/dQw4w9WgXcQ")
              (lit "dQw4w9WgXcQ") (lit "  ") [] false [] in
  let st' := fst (Ask.askQuestion server st st) in
  snd (Ask.askQuestion server st st) = []
  /\ Ask.messages st' = Ask.messages st
  /\ Ask.loading st' = Ask.loading st
  /\ Ask.question st' = Ask.question st
  /\ Ask.error st'
     = if forallb is_space (Ask.question st)
       then lit "Please enter a question"
       else lit "Please load a video first".
Proof.
  apply (askQuestion_blank (fun _ : request => Ask.Rejected [])
           (Ask.mkState (lit "https://youtu.be/dQw4w9WgXcQ")
              (lit "dQw4w9WgXcQ") (lit "  ") [] false [])).
  left. reflexivity.
Defined.

(** X22. With a question and a URL that are not blank, [askQuestion]
    sends one request, for the URL field as it is and the question
    followed by the request for timestamps; it adds the question to the
    messages; whatever comes back, it ends with the loading flag off and
    the question field empty, and either the answer was added and the
    error is empty, or nothing more was added and the error is set. *)
Theorem askQuestion_outcome (server : request -> Ask.result)
    (rendered st : Ask.state) :
  Ask.blank (Ask.question rendered) = false ->
  Ask.blank (Ask.videoUrl rendered) = false ->
  let rq := mkRequest SmartQuestion (Ask.videoUrl rendered)
              (Some (Ask.question rendered ++ Ask.timestamps_please)) in
  let asked := Ask.mkMessage UserMsg (Some (Ask.question rendered)) None in
  let st' := fst (Ask.askQuestion server rendered st) in
  snd (Ask.askQuestion server rendered st) = [rq]
  /\ Ask.loading st' = false /\ Ask.question st' = []
  /\ Ask.videoUrl st' = Ask.videoUrl st /\ Ask.videoId st' = Ask.videoId st
  /\ ((exists d, server rq = Ask.Json d /\ Ask.success d = true
                 /\ Ask.messages st'
                    = Ask.messages st
                      ++ [asked; Ask.mkMessage AiMsg (Ask.answer d)
                                   (Ask.method_used d)]
                 /\ Ask.error st' = [])
      \/ (Ask.messages st' = Ask.messages st ++ [asked]
          /\ Ask.error st' <> []
          /\ match server rq with
             | Ask.Json d => Ask.success d = false
             | Ask.Rejected _ => True
             end)).
Proof.
  intros Hq Hu rq asked st'. subst st'.
  unfold Ask.askQuestion, Ask.before_await. rewrite Hq, Hu.
  fold rq. fold asked. cbn [fst snd].
  split; [reflexivity|]. unfold Ask.after_await.
  destruct (server rq) as [msg|d] eqn:E; [|destruct (Ask.success d) eqn:Es];
    cbn; (split; [reflexivity|]); (split; [reflexivity|]);
    (split; [reflexivity|]); (split; [reflexivity|]).
  - right. repeat split. discriminate.
  - left. exists d. rewrite <- app_assoc. repeat split. exact Es.
  - right. repeat split. discriminate.
Qed.

Lemma askQuestion_outcome_witness :
  let server := fun _ : request =>
    Ask.Json (Ask.mkData true (Some (lit "See (0:02:30)."))
                (Some (lit "Visual Analysis")) None) in
  let st := Ask.mkState (lit "https://youtu.be/dQw4w9WgXcQ")
              (lit "dQw4w9WgXcQ") (lit "What happens?") [] false [] in
  let rq := mkRequest SmartQuestion (Ask.videoUrl st)
              (Some (Ask.question st ++ Ask.timestamps_please)) in
  let asked := Ask.mkMessage UserMsg (Some (Ask.question st)) None in
  let st' := fst (Ask.askQuestion server st st) in
  snd (Ask.askQuestion server st st) = [rq]
  /\ Ask.loading st' = false /\ Ask.question st' = []
  /\ Ask.videoUrl st' = Ask.videoUrl st /\ Ask.videoId st' = Ask.videoId st
  /\ ((exists d, server rq = Ask.Json d /\ Ask.success d = true
                 /\ Ask.messages st'
                    = Ask.messages st
                      ++ [asked; Ask.mkMessage AiMsg (Ask.answer d)
                                   (Ask.method_used d)]
                 /\ Ask.error st' = [])
      \/ (Ask.messages st' = Ask.messages st ++ [asked]
          /\ Ask.error st' <> []
          /\ match server rq with
             | Ask.Json d => Ask.success d = false
             | Ask.Rejected _ => True
             end)).
Proof.
  apply (askQuestion_outcome
           (fun _ : request =>
              Ask.Json (Ask.mkData true (Some (lit "See (0:02:30)."))
                          (Some (lit "Visual Analysis")) None))
           (Ask.mkState (lit "https://youtu.be/dQw4w9WgXcQ")
              (lit "dQw4w9WgXcQ") (lit "What happens?") [] false []));
    reflexivity.
Defined.

(** ** One question at a time *)

Lemma answers_follow_snoc m : forall l b,
  Ask.answers_follow b (l ++ [m])
  = Ask.answers_follow b l
    && (negb (Ask.is_ai m) || Ask.ends_with_question b l).
Proof.
  induction l as [|x l IH]; intros b.
  - cbn. now rewrite andb_true_r.
  - cbn [app Ask.answers_follow]. rewrite IH.
    unfold Ask.ends_with_question. cbn [fold_left].
    now rewrite andb_assoc.
Qed.

Lemma ends_with_question_snoc m l b :
  Ask.ends_with_question b (l ++ [m]) = Ask.is_user m.
Proof. unfold Ask.ends_with_question. now rewrite fold_left_app. Qed.

Lemma begin_flight s :
  Ask.loading (Ask.ui s) = false -> flight_invariant s ->
  Ask.in_flight s = []
  /\ flight_invariant (Ask.begin s)
  /\ (Ask.in_flight (Ask.begin s) = []
      /\ Ask.messages (Ask.ui (Ask.begin s)) = Ask.messages (Ask.ui s)
      \/ exists rq q,
           Ask.in_flight (Ask.begin s) = [rq]
           /\ Ask.messages (Ask.ui (Ask.begin s))
              = Ask.messages (Ask.ui s) ++ [Ask.mkMessage UserMsg (Some q) None]).
Proof.
  intros Hl (Hlen & Hiff).
  assert (Hnone : Ask.in_flight s = []).
  { destruct (Ask.in_flight s) as [|r l]; [reflexivity|].
    assert (Ask.loading (Ask.ui s) = true) by (apply Hiff; discriminate).
    congruence. }
  split; [exact Hnone|].
  unfold Ask.begin, Ask.before_await, flight_invariant.
  destruct (Ask.blank (Ask.question (Ask.ui s)));
    [|destruct (Ask.blank (Ask.videoUrl (Ask.ui s)))];
    cbn [Ask.ui Ask.in_flight Ask.setError Ask.setLoading Ask.addMessage
         Ask.loading Ask.messages]; rewrite Hnone.
  - rewrite Hl. split; [|left; now split].
    split; [cbn; lia | split; [discriminate | contradiction]].
  - rewrite Hl. split; [|left; now split].
    split; [cbn; lia | split; [discriminate | contradiction]].
  - split; [|right; eexists; eexists; split; reflexivity].
    split; [cbn; lia | split; [discriminate | reflexivity]].
Qed.

Lemma begin_invariant s :
  Ask.loading (Ask.ui s) = false -> chat_invariant s ->
  chat_invariant (Ask.begin s).
Proof.
  intros Hl (Hfl & Hwf & Hend).
  destruct (begin_flight s Hl Hfl) as (Hnone & Hfl' & [[Hf Hm]|(rq & q & Hf & Hm)]).
  - split; [exact Hfl'|]. rewrite Hf, Hm. split; [exact Hwf | contradiction].
  - split; [exact Hfl'|]. rewrite Hf, Hm.
    rewrite answers_follow_snoc, ends_with_question_snoc, Hwf.
    split; [reflexivity | reflexivity].
Qed.

Lemma settle_flight s r rq rest :
  Ask.in_flight s = rq :: rest -> flight_invariant s ->
  rest = []
  /\ flight_invariant (Ask.mkSession (Ask.after_await r (Ask.ui s)) rest)
  /\ exists reply,
       Ask.messages (Ask.after_await r (Ask.ui s))
       = Ask.messages (Ask.ui s) ++ reply
       /\ (reply = [] \/ exists a m, reply = [Ask.mkMessage AiMsg a m]).
Proof.
  intros Ef (Hlen & Hiff). rewrite Ef in *.
  assert (rest = []) as ->
    by (destruct rest; [reflexivity | cbn [length] in Hlen; lia]).
  split; [reflexivity|]. unfold flight_invariant, Ask.after_await.
  cbn [Ask.ui Ask.in_flight].
  destruct r as [msg|d]; [|destruct (Ask.success d)];
    cbn [Ask.setQuestion Ask.setLoading Ask.setError Ask.addMessage
         Ask.messages Ask.loading length];
    (split; [split; [lia | split; [discriminate | contradiction]]|]).
  - exists []. rewrite app_nil_r. split; [reflexivity | now left].
  - eexists. split; [reflexivity|]. right. eexists. eexists. reflexivity.
  - exists []. rewrite app_nil_r. split; [reflexivity | now left].
Qed.

Lemma step_flight s e : flight_invariant s -> flight_invariant (Ask.step s e).
Proof.
  intros Hinv. destruct e as [q|u|l|v|er|key| |r]; cbn [Ask.step];
    try exact Hinv.
  - destruct (str_eqb key Ask.key_enter); cbn [andb]; [|exact Hinv].
    destruct (Ask.loading (Ask.ui s)) eqn:El; cbn [negb]; [exact Hinv|].
    now apply begin_flight.
  - unfold Ask.ask_disabled.
    destruct (Ask.loading (Ask.ui s)) eqn:El; cbn [orb]; [exact Hinv|].
    destruct (Ask.blank (Ask.question (Ask.ui s)) || _); [exact Hinv|].
    now apply begin_flight.
  - destruct (Ask.in_flight s) as [|rq rest] eqn:Ef; [exact Hinv|].
    now apply (settle_flight s r rq rest Ef Hinv).
Qed.

Lemma step_invariant s e :
  match e with Ask.SetMessages _ => False | _ => True end ->
  chat_invariant s -> chat_invariant (Ask.step s e).
Proof.
  intros He Hinv. destruct e as [q|u|l|v|er|key| |r]; cbn [Ask.step];
    try exact Hinv; try contradiction.
  - destruct (str_eqb key Ask.key_enter); cbn [andb]; [|exact Hinv].
    destruct (Ask.loading (Ask.ui s)) eqn:El; cbn [negb]; [exact Hinv|].
    now apply begin_invariant.
  - unfold Ask.ask_disabled.
    destruct (Ask.loading (Ask.ui s)) eqn:El; cbn [orb]; [exact Hinv|].
    destruct (Ask.blank (Ask.question (Ask.ui s)) || _); [exact Hinv|].
    now apply begin_invariant.
  - destruct (Ask.in_flight s) as [|rq rest] eqn:Ef; [exact Hinv|].
    destruct Hinv as (Hfl & Hwf & Hend).
    destruct (settle_flight s r rq rest Ef Hfl)
      as (-> & Hfl' & reply & Hm & Hreply).
    split; [exact Hfl'|]. cbn [Ask.ui Ask.in_flight]. rewrite Hm.
    split; [|contradiction].
    destruct Hreply as [->|(a & m & ->)]; [now rewrite app_nil_r|].
    rewrite answers_follow_snoc, Hwf, Hend by (rewrite Ef; discriminate).
    now rewrite orb_true_r.
Qed.

(** X23. Over any sequence of events of the chat box, reloads of the
    video included, at most one question is in flight and the loading
    flag is on exactly while one is. As long as the video is not
    reloaded, every answer in the messages stands right after a
    question. *)
Theorem one_question_in_flight (events : list Ask.ui_event)
    (s : Ask.session) :
  Ask.loading (Ask.ui s) = false -> Ask.in_flight s = [] ->
  let s' := Ask.play events s in
  length (Ask.in_flight s') <= 1
  /\ (Ask.loading (Ask.ui s') = true <-> Ask.in_flight s' <> [])
  /\ (Ask.no_reload events = true ->
      Ask.answers_follow false (Ask.messages (Ask.ui s)) = true ->
      Ask.answers_follow false (Ask.messages (Ask.ui s')) = true).
Proof.
  intros Hl Hf s'.
  assert (Hfl : flight_invariant s).
  { unfold flight_invariant. rewrite Hf, Hl.
    split; [cbn; lia | split; [discriminate | contradiction]]. }
  assert (G : flight_invariant s').
  { subst s'. unfold Ask.play. clear Hl Hf. revert s Hfl.
    induction events as [|e es IH]; intros s Hinv; [exact Hinv|].
    cbn [fold_left]. apply IH. now apply step_flight. }
  destruct G as (G1 & G2). split; [exact G1|]. split; [exact G2|].
  intros Hnr Hwf.
  assert (Hinv : chat_invariant s).
  { split; [exact Hfl|]. split; [exact Hwf|]. rewrite Hf. contradiction. }
  assert (G : chat_invariant s').
  { subst s'. unfold Ask.play. clear Hl Hf Hfl Hwf G1 G2. revert s Hinv.
    induction events as [|e es IH]; intros s Hinv; [exact Hinv|].
    cbn [fold_left]. unfold Ask.no_reload in Hnr. cbn [forallb] in Hnr.
    apply andb_prop in Hnr as [He Hes].
    apply IH; [exact Hes|]. apply step_invariant; [|exact Hinv].
    destruct e; try exact I. discriminate He. }
  now destruct G as (_ & G3 & _).
Qed.

Lemma one_question_in_flight_witness :
  let s := Ask.mkSession
             (Ask.mkState (lit "https://youtu.be/dQw4w9WgXcQ")
                (lit "dQw4w9WgXcQ") [] [] false [])
             [] in
  let events :=
    [Ask.TypeQuestion (lit "What happens?"); Ask.KeyPress Ask.key_enter;
     Ask.KeyPress Ask.key_enter; Ask.ClickAsk;
     Ask.TypeQuestion (lit "And then?"); Ask.ClickAsk;
     Ask.Settle (Ask.Json (Ask.mkData true (Some (lit "See (0:02:30)."))
                             None None));
     Ask.ClickAsk] in
  let s' := Ask.play events s in
  length (Ask.in_flight s') <= 1
  /\ (Ask.loading (Ask.ui s') = true <-> Ask.in_flight s' <> [])
  /\ (Ask.no_reload events = true ->
      Ask.answers_follow false (Ask.messages (Ask.ui s)) = true ->
      Ask.answers_follow false (Ask.messages (Ask.ui s')) = true).
Proof.
  apply one_question_in_flight; reflexivity.
Defined.

(** An answer that arrives after the video was reloaded is added to the
    messages of the new video, where no question stands before it. *)
Example answer_after_reload :
  let s := Ask.mkSession
             (Ask.mkState (lit "https://youtu.be/dQw4w9WgXcQ")
                (lit "dQw4w9WgXcQ") (lit "What happens?") [] false [])
             [] in
  let answer := Ask.mkData true (Some (lit "See (0:02:30).")) None None in
  Ask.messages
    (Ask.ui (Ask.play [Ask.ClickAsk; Ask.SetMessages [];
                       Ask.Settle (Ask.Json answer)] s))
  = [Ask.mkMessage AiMsg (Some (lit "See (0:02:30).")) None].
Proof. reflexivity. Qed.

(** ** The notification list *)

Lemma removeNotification_fresh id prev :
  (forall n, In n prev -> Toasts.n_id n <> id) ->
  Toasts.removeNotification id prev = prev.
Proof.
  intros H. unfold Toasts.removeNotification.
  induction prev as [|n l IH]; [reflexivity|]. cbn [filter].
  destruct (Z.eqb_spec (Toasts.n_id n) id) as [E|E].
  - exfalso. apply (H n); [now left | exact E].
  - cbn [negb]. f_equal. apply IH. intros m Hm. apply H. now right.
Qed.

(** X24. Removing the toast that [showNotification] has just added,
    by the id it returned, gives back the list as it was, provided no
    toast of the list was created in the same millisecond. *)
Theorem showNotification_removeNotification (now : Z) (message : jsstring)
    (type : kind) (persistent : bool) (prev : list Toasts.notification) :
  (forall n, In n prev -> Toasts.n_id n <> now) ->
  let '(id, shown, _) :=
    Toasts.showNotification now message type persistent prev in
  In (Toasts.mkNotification id message type persistent) shown
  /\ Toasts.removeNotification id shown = prev.
Proof.
  intros H. cbn [Toasts.showNotification]. split.
  - apply in_or_app. right. now left.
  - unfold Toasts.removeNotification. rewrite filter_app. cbn [filter Toasts.n_id].
    rewrite Z.eqb_refl. cbn [negb]. rewrite app_nil_r.
    now apply removeNotification_fresh.
Qed.

Lemma showNotification_removeNotification_witness :
  let prev := [Toasts.mkNotification 1000 (lit "Loading") Loading true] in
  let '(id, shown, _) :=
    Toasts.showNotification 1250 (lit "Timestamps generated!") Success false
      prev in
  In (Toasts.mkNotification id (lit "Timestamps generated!") Success false)
     shown
  /\ Toasts.removeNotification id shown = prev.
Proof.
  apply (showNotification_removeNotification 1250
           (lit "Timestamps generated!") Success false
           [Toasts.mkNotification 1000 (lit "Loading") Loading true]).
  intros n [<-|[]]. cbn. lia.
Defined.

(** X25. A toast is named by the millisecond of its creation only:
    removing one toast, or the timer of one toast firing, removes every
    toast created in the same millisecond, persistent or not, and leaves
    all the others in their order. *)
Theorem removeNotification_same_millisecond (now : Z) (message : jsstring)
    (type : kind) (persistent : bool) (prev : list Toasts.notification) :
  let '(id, shown, timer) :=
    Toasts.showNotification now message type persistent prev in
  timer = (if persistent then None else Some id)
  /\ Toasts.removeNotification id shown
     = filter (fun n => negb (Toasts.n_id n =? now)%Z) prev
  /\ forall n, In n prev ->
       (In n (Toasts.removeNotification id shown) <-> Toasts.n_id n <> now).
Proof.
  cbn [Toasts.showNotification]. split; [reflexivity|].
  assert (E : Toasts.removeNotification now
                (prev ++ [Toasts.mkNotification now message type persistent])
              = filter (fun n => negb (Toasts.n_id n =? now)%Z) prev).
  { unfold Toasts.removeNotification. rewrite filter_app.
    cbn [filter Toasts.n_id]. rewrite Z.eqb_refl. cbn [negb].
    now rewrite app_nil_r. }
  split; [exact E|]. intros n Hin. rewrite E, filter_In.
  destruct (Z.eqb_spec (Toasts.n_id n) now) as [Hn|Hn]; cbn [negb].
  - split; [intros [_ H]; discriminate H | intros H; contradiction].
  - split; [intros _; exact Hn | intros _; now split].
Qed.

(** ** Text without markup *)

Lemma search_none_intro r : forall s,
  (forall pre m, s = pre ++ m -> match_at r m = None) -> search r s = None.
Proof.
  induction s as [|c s IH]; intros H; cbn [search].
  - now rewrite (H [] [] eq_refl).
  - rewrite (H [] (c :: s) eq_refl). rewrite IH; [reflexivity|].
    intros pre m ->. now apply (H (c :: pre)).
Qed.

Lemma replace_all_none r repl s :
  search r s = None -> replace_all r repl s = s.
Proof. intros H. now rewrite replace_all_unfold, H. Qed.

Lemma lacks_head x s :
  lacks x s = true ->
  match s with c :: _ => (x =? c)%N = false | [] => True end.
Proof.
  destruct s as [|c s]; [trivial|]. unfold lacks. cbn [forallb].
  intros H. apply andb_prop in H as [H _]. apply negb_true_iff in H.
  now rewrite N.eqb_sym.
Qed.

Lemma lacks_suffix x pre m : lacks x (pre ++ m) = true -> lacks x m = true.
Proof. rewrite lacks_app. intros H. now apply andb_prop in H. Qed.

Lemma match_at_first (p : jschar -> bool) r s :
  match s with c :: _ => p c = false | [] => True end ->
  match_at (Seq (Chr p) r) s = None.
Proof.
  intros H. unfold match_at. cbn [exec].
  destruct s as [|c s]; [reflexivity | now rewrite H].
Qed.

Lemma match_at_bold_none s :
  match s with c :: _ => (star =? c)%N = false | [] => True end ->
  match_at bold s = None.
Proof.
  intros H. unfold match_at, bold. cbn [rlit exec].
  destruct s as [|c s]; [reflexivity | now rewrite H].
Qed.

Lemma replace_all_lacks r repl x s :
  (forall m, match m with c :: _ => (x =? c)%N = false | [] => True end ->
             match_at r m = None) ->
  lacks x s = true -> replace_all r repl s = s.
Proof.
  intros Hr Hs. apply replace_all_none, search_none_intro.
  intros pre m ->. apply Hr, lacks_head. now apply lacks_suffix in Hs.
Qed.

Lemma formattedText_plain t :
  lacks star t = true -> lacks lparen t = true -> formattedText t = t.
Proof.
  intros Hs Hp. unfold formattedText.
  rewrite (replace_all_lacks bold bold_html star t match_at_bold_none Hs).
  rewrite (replace_all_lacks italic italic_html star t
             (match_at_first (N.eqb star) _) Hs).
  apply (replace_all_lacks citation placeholder_html lparen t
           (match_at_first (N.eqb lparen) _) Hp).
Qed.

Lemma no_markup_open z : no_markup (span_open ++ z) = false.
Proof.
  unfold no_markup.
  change (span_open ++ z) with (60%N :: tl span_open ++ z).
  cbn [occurrences].
  change (60%N :: tl span_open ++ z) with (span_open ++ z).
  unfold found, markup_templates. cbn [first_template].
  now rewrite match_template_literal.
Qed.

Lemma no_markup_no_placeholder t :
  no_markup t = true ->
  forall pre m, t = pre ++ m -> match_at placeholder m = None.
Proof.
  intros H pre m ->. apply no_markup_app in H.
  destruct (match_at placeholder m) eqn:E; [|reflexivity].
  destruct (match_at_placeholder_open m) as (z & ->); [congruence|].
  now rewrite no_markup_open in H.
Qed.

Lemma split_re_fuel_none r : forall s,
  (forall pre m, s = pre ++ m -> match_at r m = None) ->
  forall fuel acc, split_re_fuel fuel r acc s = [acc ++ s].
Proof.
  induction s as [|c s IH]; intros H fuel acc.
  - destruct fuel; cbn [split_re_fuel]; [reflexivity | now rewrite app_nil_r].
  - destruct fuel; cbn [split_re_fuel]; [reflexivity|].
    rewrite (H [] (c :: s) eq_refl). rewrite IH.
    + now rewrite <- app_assoc.
    + intros pre m ->. now apply (H (c :: pre)).
Qed.

(** X26. A text that is not empty and contains no star, no opening
    parenthesis and no placeholder tag is rendered as one span whose
    inner HTML is the text itself, character for character: nothing in
    it is escaped. *)
Theorem formatText_verbatim (t : jsstring) :
  t <> [] -> lacks star t = true -> lacks lparen t = true ->
  no_markup t = true ->
  formatText t = Elements [HtmlSpan 0 t].
Proof.
  intros Hne Hs Hp Hm. unfold formatText. cbv zeta.
  rewrite formattedText_plain by assumption.
  destruct t as [|c t]; [contradiction|]. unfold split_re.
  rewrite split_re_fuel_none by now apply no_markup_no_placeholder.
  reflexivity.
Qed.

Lemma formatText_verbatim_witness :
  formatText (lit "<img src=x onerror=alert[1]>")
  = Elements [HtmlSpan 0 (lit "<img src=x onerror=alert[1]>")].
Proof.
  apply (formatText_verbatim (lit "<img src=x onerror=alert[1]>"));
    first [discriminate | reflexivity].
Defined.

(** ** The fallback of [formatText] *)

Lemma replace_all_nonempty r repl s :
  (forall caps, repl caps <> []) -> s <> [] -> replace_all r repl s <> [].
Proof.
  intros Hrepl Hs. rewrite replace_all_unfold.
  destruct (search r s) as [[[pre caps] rest]|]; [|exact Hs].
  specialize (Hrepl caps).
  destruct (get_cap 0 caps), rest; intros E;
    apply app_eq_nil in E as [_ E]; try (apply app_eq_nil in E as [E _]);
    contradiction.
Qed.

Lemma formattedText_nonempty t : t <> [] -> formattedText t <> [].
Proof.
  intros H. unfold formattedText.
  repeat (apply replace_all_nonempty; [intros caps; discriminate|]).
  exact H.
Qed.

Lemma split_re_fuel_shape r : forall fuel acc s,
  acc <> [] \/ s <> [] ->
  match split_re_fuel fuel r acc s with
  | [] => False
  | [p] => p <> []
  | _ :: _ :: _ => True
  end.
Proof.
  induction fuel as [|f IH]; intros acc s H; cbn [split_re_fuel].
  - intros E. apply app_eq_nil in E as [-> ->]. now destruct H.
  - destruct s as [|c s]; [now destruct H|].
    destruct (match_at r (c :: s)) as [[caps rest]|].
    + destruct (get_cap 0 caps), acc; try exact I.
      apply IH. left. discriminate.
    + apply IH. left. intros E. now apply app_eq_nil in E as [_ E].
Qed.

(** X27. [formatText] falls back to returning the text itself for the
    empty text only: every other text gives at least one element. *)
Theorem formatText_fallback (t : jsstring) :
  (exists u, formatText t = PlainText u) <-> t = [].
Proof.
  split; [|intros ->; now exists []].
  intros (u & H). destruct t as [|c t]; [reflexivity|]. exfalso.
  unfold formatText in H. cbv zeta in H.
  pose proof (formattedText_nonempty (c :: t) ltac:(discriminate)) as Hf.
  destruct (formattedText (c :: t)) as [|d s]; [contradiction|].
  unfold split_re in H.
  pose proof (split_re_fuel_shape placeholder (2 * length (d :: s) + 1) []
                (d :: s) ltac:(right; discriminate)) as Hsh.
  destruct (split_re_fuel (2 * length (d :: s) + 1) placeholder [] (d :: s))
    as [|p [|q parts]]; [contradiction| |].
  - destruct p; [contradiction|]. discriminate H.
  - cbn [render_parts Nat.even] in H. destruct p; discriminate H.
Qed.

(** ** The order of the patterns *)

(** X28. The patterns are tried in their order, not by position in the
    URL: a URL that has the [youtube.com/watch?v=] form anywhere gets its
    id from there, even when a [youtu.be/] or [youtube.com/embed/] form
    stands earlier in it; and without the first form, a [youtu.be/] form
    wins over an embed form. *)
Theorem getVideoId_pattern_order (url : jsstring) :
  (has_form watch_prefix url ->
   exists id pre post,
     getVideoId url = Some id /\ url = pre ++ watch_prefix ++ id ++ post)
  /\ (~ has_form watch_prefix url -> has_form short_prefix url ->
      exists id pre post,
        getVideoId url = Some id /\ url = pre ++ short_prefix ++ id ++ post).
Proof.
  rewrite getVideoId_find. split.
  - intros H. destruct (find_id watch_prefix url) as [v|] eqn:E.
    + apply find_id_some in E as (pre & post & E & _).
      now exists v, pre, post.
    + apply find_id_none_iff in E. contradiction.
  - intros Hn H. apply find_id_none_iff in Hn. rewrite Hn.
    destruct (find_id short_prefix url) as [v|] eqn:E.
    + apply find_id_some in E as (pre & post & E & _).
      now exists v, pre, post.
    + apply find_id_none_iff in E. contradiction.
Qed.

Lemma getVideoId_pattern_order_witness :
  exists id pre post,
    getVideoId (lit "https://youtu.be/first?u=youtube.com/watch?v=second")
    = Some id
    /\ lit "https://youtu.be/first?u=youtube.com/watch?v=second"
       = pre ++ watch_prefix ++ id ++ post.
Proof.
  apply (proj1 (getVideoId_pattern_order
                  (lit "https://youtu.be/first?u=youtube.com/watch?v=second"))).
  exists (lit "https://youtu.be/first?u="), 115%N, (lit "econd").
  split; reflexivity.
Defined.

Example getVideoId_later_watch_form :
  getVideoId (lit "https://youtu.be/first?u=youtube.com/watch?v=second")
  = Some (lit "second").
Proof. reflexivity. Qed.
